(** * The scene tree of the 3D model builder (src/src/App.tsx)

    A shallow embedding of the tree store of [App.tsx]: the [Component]
    record, [findComponentById], [addPrimitive], [updateComponent],
    [reorder] and the [buildScene] walk of [onExport].

    JavaScript values are modelled as follows.
    - [number] is an IEEE double: Rocq's primitive [float].  The code only
      stores and copies numbers, it never computes with them.  The two
      indices of [reorder] are taken as integers ([Z]).
    - An array statically typed [Component[]] is a [list (option Component)]:
      an entry is a component object or the value [undefined], which the
      unchecked destructuring of [reorderList] can put into an array.
    - Reading a property of [undefined] throws a [TypeError]; functions that
      read [comp.id] or [comp.type] return a [result].
    - The React state [model] is passed in and returned; the token of
      [Math.random] is an argument of [addPrimitive].
    - [buildScene] is given twice: on values (sections 7, 20), returning the
      objects attached to the parent, and on an object store (sections 9,
      21, 22), where the component objects and the [THREE] objects are
      cells and the writes are explicit; the second is shown to produce
      the objects of the first. *)

From Stdlib Require Import List String Ascii ZArith Bool Lia Permutation PrimFloat.
Import ListNotations.
Local Open Scope string_scope.
Local Open Scope list_scope.

(** ** 1. Data model *)

Definition number := float.

Definition Vec3 : Type := (number * number * number)%type.

Inductive PrimitiveType := cube | sphere | cylinder | cone | d20.

Inductive ComponentType :=
| primitive (p : PrimitiveType)
| group.

#[local] Unset Elimination Schemes.
Inductive Component : Type := mkComponent {
  id : string;
  name : string;
  type : ComponentType;
  position : Vec3;
  rotation : Vec3;
  scale : Vec3;
  children : list (option Component)
}.
#[local] Set Elimination Schemes.

(** The value [undefined] in an array slot ([None] in patterns). *)
Definition undefined : option Component := None.

(** ** 2. Exceptions *)

Inductive result (A : Type) :=
| Ok (a : A)
| TypeError.
Arguments Ok {A} a.
Arguments TypeError {A}.

Definition bind {A B} (r : result A) (k : A -> result B) : result B :=
  match r with
  | Ok a => k a
  | TypeError => TypeError
  end.

Notation "x <- r ;; k" := (bind r (fun x => k))
  (at level 61, r at next level, right associativity).

(** [Array.prototype.map] with a callback that may throw. *)
Fixpoint array_map {A B} (f : A -> result B) (arr : list A) : result (list B) :=
  match arr with
  | [] => Ok []
  | a :: rest =>
      b <- f a ;;
      bs <- array_map f rest ;;
      Ok (b :: bs)
  end.

(** A callback or loop body applied to an array entry [comp]: its first
    property read ([comp.id], [comp.type]) throws when the entry is
    [undefined]. *)
Definition on_entry {B} (f : Component -> result B) (entry : option Component)
  : result B :=
  match entry with
  | None => TypeError
  | Some comp => f comp
  end.

(** ** 3. findComponentById (App.tsx, lines 195-204) *)

(** A [for ... of] loop whose body either returns from the function
    ([Ok (Some v)]), falls through to the next element ([Ok None]) or
    throws. *)
Fixpoint for_of {A R} (body : A -> result (option R)) (arr : list A)
  : result (option R) :=
  match arr with
  | [] => Ok None
  | a :: rest =>
      match body a with
      | Ok None => for_of body rest
      | r => r
      end
  end.

(** The loop body at one array entry.  [comp.children] is an array and so
    always truthy; [found] is a component object (truthy) or [null]. *)
Fixpoint findComponentById_body (id0 : string) (comp : Component)
  : result (option Component) :=
  if String.eqb (id comp) id0 then Ok (Some comp)
  else
    for_of (on_entry (findComponentById_body id0)) (children comp).

Definition findComponentById (components : list (option Component)) (id0 : string)
  : result (option Component) :=
  for_of (on_entry (findComponentById_body id0)) components.

(** ** 4. addPrimitive (App.tsx, lines 290-301) *)

(** The string literal a [PrimitiveType] is at run time. *)
Definition type_string (t : PrimitiveType) : string :=
  match t with
  | cube => "cube"
  | sphere => "sphere"
  | cylinder => "cylinder"
  | cone => "cone"
  | d20 => "d20"
  end.

(** [String.prototype.charAt]: the empty string when out of range. *)
Definition charAt (n : nat) (s : string) : string :=
  match String.get n s with
  | Some c => String c EmptyString
  | None => EmptyString
  end.

(** [String.prototype.slice] with one non-negative argument. *)
Definition slice (n : nat) (s : string) : string :=
  String.substring n (String.length s - n) s.

Definition upper_ascii (c : ascii) : ascii :=
  let n := nat_of_ascii c in
  if (97 <=? n)%nat && (n <=? 122)%nat then ascii_of_nat (n - 32) else c.

(** [String.prototype.toUpperCase] on ASCII text. *)
Fixpoint toUpperCase (s : string) : string :=
  match s with
  | EmptyString => EmptyString
  | String c s' => String (upper_ascii c) (toUpperCase s')
  end.

(** [newId] stands for [Math.random().toString(36).substring(2, 9)]. *)
Definition newComponent (newId : string) (t : PrimitiveType) : Component :=
  {| id := newId;
     name := toUpperCase (charAt 0 (type_string t)) ++ slice 1 (type_string t);
     type := primitive t;
     position := (0, 0, 0)%float;
     rotation := (0, 0, 0)%float;
     scale := (1, 1, 1)%float;
     children := [] |}.

(** [setModel(prev => [...prev, newComponent])] *)
Definition addPrimitive (newId : string) (t : PrimitiveType)
    (prev : list (option Component)) : list (option Component) :=
  prev ++ [Some (newComponent newId t)].

(** ** 5. updateComponent (App.tsx, lines 303-316) *)

Definition with_children (comp : Component) (ch : list (option Component))
  : Component :=
  {| id := id comp; name := name comp; type := type comp;
     position := position comp; rotation := rotation comp;
     scale := scale comp; children := ch |}.

(** The callback of [components.map] in [updateRecursive]. *)
Fixpoint updateRecursive_cb (updatedComponent comp : Component)
  : result Component :=
  if String.eqb (id comp) (id updatedComponent) then Ok updatedComponent
  else if (0 <? List.length (children comp))%nat then
    ch <- array_map
            (on_entry (fun c => c' <- updateRecursive_cb updatedComponent c ;;
                                Ok (Some c')))
            (children comp) ;;
    Ok (with_children comp ch)
  else Ok comp.

Definition updateRecursive (updatedComponent : Component)
    (components : list (option Component)) : result (list (option Component)) :=
  array_map
    (on_entry (fun c => c' <- updateRecursive_cb updatedComponent c ;;
                        Ok (Some c')))
    components.

(** [setModel(updateRecursive(model))] *)
Definition updateComponent (updatedComponent : Component)
    (model : list (option Component)) : result (list (option Component)) :=
  updateRecursive updatedComponent model.

(** ** 6. reorder (App.tsx, lines 318-346) *)

(** [Array.prototype.splice(start, deleteCount, ...items)] for integer
    arguments: the removed elements and the array afterwards. *)
Definition splice {A} (start deleteCount : Z) (items : list A) (arr : list A)
  : list A * list A :=
  let len := Z.of_nat (List.length arr) in
  let actualStart :=
    if (start <? 0)%Z then Z.max (len + start) 0 else Z.min start len in
  let actualDeleteCount := Z.min (Z.max deleteCount 0) (len - actualStart) in
  let s := Z.to_nat actualStart in
  let d := Z.to_nat actualDeleteCount in
  (firstn d (skipn s arr), firstn s arr ++ items ++ skipn (s + d) arr).

(** [const [moved] = newList.splice(fromIndex, 1)] binds [moved] to the
    first removed entry, or to [undefined] when nothing was removed. *)
Definition reorderList (fromIndex toIndex : Z) (list0 : list (option Component))
  : list (option Component) :=
  let newList := list0 in
  let '(removed, newList) := splice fromIndex 1 [] newList in
  let moved := hd undefined removed in
  let '(_, newList) := splice toIndex 0 [moved] newList in
  newList.

(** [!parentId] for [parentId : string | null]: [null] and the empty
    string are falsy. *)
Definition not_parentId (parentId : option string) : bool :=
  match parentId with
  | None => true
  | Some s => String.eqb s ""
  end.

(** [comp.id === parentId] *)
Definition id_is (comp : Component) (parentId : option string) : bool :=
  match parentId with
  | None => false
  | Some p => String.eqb (id comp) p
  end.

(** The callback of [components.map] in [reorder]'s [updateRecursive]; the
    recursive call on [comp.children] tests [!parentId] again. *)
Fixpoint reorder_cb (parentId : option string) (fromIndex toIndex : Z)
    (comp : Component) : result Component :=
  if id_is comp parentId then
    Ok (with_children comp (reorderList fromIndex toIndex (children comp)))
  else if (0 <? List.length (children comp))%nat then
    ch <- (if not_parentId parentId
           then Ok (reorderList fromIndex toIndex (children comp))
           else array_map
                  (on_entry (fun c =>
                               c' <- reorder_cb parentId fromIndex toIndex c ;;
                               Ok (Some c')))
                  (children comp)) ;;
    Ok (with_children comp ch)
  else Ok comp.

(** [reorder] itself: [setModel(prev => updateRecursive(prev))], with the
    body of its [updateRecursive]. *)
Definition reorder (parentId : option string) (fromIndex toIndex : Z)
    (prev : list (option Component)) : result (list (option Component)) :=
  if not_parentId parentId then Ok (reorderList fromIndex toIndex prev)
  else array_map
         (on_entry (fun c => c' <- reorder_cb parentId fromIndex toIndex c ;;
                             Ok (Some c')))
         prev.

(** ** 7. buildScene (App.tsx, lines 348-395) *)

Inductive BufferGeometry :=
| BoxGeometry (width height depth : number)
| SphereGeometry (radius widthSegments heightSegments : number)
| CylinderGeometry (radiusTop radiusBottom height radialSegments : number)
| ConeGeometry (radius height radialSegments : number)
| IcosahedronGeometry (radius detail : number).

Record MeshStandardMaterial := { color : string }.

(** The objects [buildScene] creates: a [THREE.Mesh] with its geometry,
    material and transform, or a [THREE.Group] with the objects added to
    it (its own transform is never touched). *)
#[local] Unset Elimination Schemes.
Inductive Object3D :=
| Mesh (geometry : BufferGeometry) (material : MeshStandardMaterial)
       (mesh_position mesh_rotation mesh_scale : Vec3)
| Group (group_children : list Object3D).
#[local] Set Elimination Schemes.

(** [new THREE.Mesh(geometry, material)]: position and rotation at the
    origin, unit scale. *)
Definition new_Mesh (g : BufferGeometry) (m : MeshStandardMaterial) : Object3D :=
  Mesh g m (0, 0, 0)%float (0, 0, 0)%float (1, 1, 1)%float.

(** [mesh.position.set(...v)], [mesh.rotation.set(...v)] and
    [mesh.scale.set(...v)] copy the three numbers of [v]. *)
Definition position_set (v : Vec3) (o : Object3D) : Object3D :=
  match o with
  | Mesh g m _ r s => let '(x, y, z) := v in Mesh g m (x, y, z) r s
  | Group _ => o
  end.

Definition rotation_set (v : Vec3) (o : Object3D) : Object3D :=
  match o with
  | Mesh g m p _ s => let '(x, y, z) := v in Mesh g m p (x, y, z) s
  | Group _ => o
  end.

Definition scale_set (v : Vec3) (o : Object3D) : Object3D :=
  match o with
  | Mesh g m p r _ => let '(x, y, z) := v in Mesh g m p r (x, y, z)
  | Group _ => o
  end.

(** [Array.prototype.forEach] with a callback that updates a state (here:
    the objects attached to [parent] so far) and may throw. *)
Fixpoint forEach {A S} (f : A -> S -> result S) (arr : list A) (s : S)
  : result S :=
  match arr with
  | [] => Ok s
  | a :: rest => s' <- f a s ;; forEach f rest s'
  end.

(** The [switch (comp.type)] of [buildScene]: the mesh, or [null]. *)
Definition mesh_of_type (t : ComponentType) (material : MeshStandardMaterial)
  : option Object3D :=
  (match t with
   | primitive cube => Some (new_Mesh (BoxGeometry 1 1 1) material)
   | primitive sphere => Some (new_Mesh (SphereGeometry 1 32 32) material)
   | primitive cylinder => Some (new_Mesh (CylinderGeometry 1 1 2 32) material)
   | primitive cone => Some (new_Mesh (ConeGeometry 1 2 32) material)
   | primitive d20 => Some (new_Mesh (IcosahedronGeometry 1 0) material)
   | group => None
   end)%float.

(** The callback of [components.forEach] in [buildScene].  [parent] is the
    list of objects attached to the parent object so far; [parent.add(o)]
    appends to it.  The new group is attached to the parent and then
    filled by the recursive call. *)
Fixpoint buildScene_cb (comp : Component) (parent : list Object3D)
  : result (list Object3D) :=
  let material := {| color := "white" |} in
  let mesh := mesh_of_type (type comp) material in
  let parent :=
    match mesh with
    | Some mesh =>
        let mesh := position_set (position comp) mesh in
        let mesh := rotation_set (rotation comp) mesh in
        let mesh := scale_set (scale comp) mesh in
        parent ++ [mesh]
    | None => parent
    end in
  if (0 <? List.length (children comp))%nat then
    group_children <-
      forEach (fun entry group_children =>
                 on_entry (fun c => buildScene_cb c group_children) entry)
              (children comp) [] ;;
    Ok (parent ++ [Group group_children])
  else Ok parent.

Definition buildScene (components : list (option Component))
    (parent : list Object3D) : result (list Object3D) :=
  forEach (fun entry parent => on_entry (fun c => buildScene_cb c parent) entry)
          components parent.

(** ** 8. Forests: typing, traversal order, positions *)

Definition forest := list (option Component).

(** A forest is well typed, as TypeScript's [Component[]] promises, when
    no array of it at any depth has an [undefined] entry. *)
Fixpoint well_typed_comp (comp : Component) : bool :=
  forallb (fun entry =>
             match entry with
             | None => false
             | Some c => well_typed_comp c
             end) (children comp).

Definition well_typed (components : forest) : bool :=
  forallb (fun entry =>
             match entry with
             | None => false
             | Some c => well_typed_comp c
             end) components.

(** The nodes of a forest in depth-first pre-order. *)
Fixpoint preorder_comp (comp : Component) : list Component :=
  comp :: flat_map (fun entry =>
                      match entry with
                      | None => []
                      | Some c => preorder_comp c
                      end) (children comp).

Definition preorder (components : forest) : list Component :=
  flat_map (fun entry =>
              match entry with
              | None => []
              | Some c => preorder_comp c
              end) components.

Definition ids (components : forest) : list string :=
  map id (preorder components).

(** The ids of one sibling sequence. *)
Definition sibling_ids (components : forest) : list string :=
  flat_map (fun entry =>
              match entry with
              | None => []
              | Some c => [id c]
              end) components.

(** The node at a position: [i :: rest] is entry [i] of the sequence, then
    [rest] inside its children. *)
Fixpoint node_at (components : forest) (path : list nat) : option Component :=
  match path with
  | [] => None
  | i :: rest =>
      match nth_error components i with
      | Some (Some c) =>
          match rest with
          | [] => Some c
          | _ :: _ => node_at (children c) rest
          end
      | _ => None
      end
  end.

Definition set_nth {A} (i : nat) (x : A) (l : list A) : list A :=
  firstn i l ++ x :: skipn (S i) l.

(** The forest with the node at [path] replaced by [new] and nothing else
    touched: the ancestors keep their records and their other children. *)
Fixpoint replace_at (path : list nat) (new : Component) (components : forest)
  : forest :=
  match path with
  | [] => components
  | i :: rest =>
      match nth_error components i with
      | Some (Some c) =>
          match rest with
          | [] => set_nth i (Some new) components
          | _ :: _ =>
              set_nth i
                (Some (with_children c (replace_at rest new (children c))))
                components
          end
      | _ => components
      end
  end.

(** [q] is a prefix of [p]: the node at [q] is the node at [p] or one of
    its ancestors. *)
Fixpoint is_prefix (q p : list nat) : bool :=
  match q, p with
  | [], _ => true
  | i :: q', j :: p' => Nat.eqb i j && is_prefix q' p'
  | _ :: _, [] => false
  end.

(** Moving an element of a list: take it out at [from], put it back at
    [to] of what is left. *)
Definition list_move {A} (from to : nat) (l : list A) : list A :=
  match nth_error l from with
  | Some x =>
      let rest := firstn from l ++ skipn (S from) l in
      firstn to rest ++ x :: skipn to rest
  | None => l
  end.

(** The capitalized kind strings, as the specification names them. *)
Definition capitalized_kind (t : PrimitiveType) : string :=
  match t with
  | cube => "Cube"
  | sphere => "Sphere"
  | cylinder => "Cylinder"
  | cone => "Cone"
  | d20 => "D20"
  end.

(** Where the entry at index [i] of [list_move from to l] comes from: the
    moved entry lands at [to], the entries between the two indices shift
    by one towards [from], all others stay. *)
Definition move_source (from to i : nat) : nat :=
  if (i =? to)%nat then from
  else if (from <=? i)%nat && (i <? to)%nat then S i
  else if (to <? i)%nat && (i <=? from)%nat then (i - 1)%nat
  else i.

(** The forests a session reaches from the empty forest by [addPrimitive]
    with any generated token, [updateComponent] with any node whose id is
    in the forest, and [reorder]. *)
Inductive reachable_any : forest -> Prop :=
| any_empty : reachable_any []
| any_addPrimitive F newId t :
    reachable_any F -> reachable_any (addPrimitive newId t F)
| any_updateComponent F u F' :
    reachable_any F -> In (id u) (ids F) ->
    updateComponent u F = Ok F' -> reachable_any F'
| any_reorder F parentId fromIndex toIndex F' :
    reachable_any F ->
    reorder parentId fromIndex toIndex F = Ok F' -> reachable_any F'.

(** What an updated node must not do for the ids to stay distinct: the
    ids below it are distinct from each other and from its own, and
    none of them is in the forest outside the descendants of [old], the
    node it replaces. *)
Definition brings_no_used_id (F : forest) (old u : Component) : Prop :=
  NoDup (ids (children u))
  /\ forall j, In j (ids (children u)) ->
       j <> id u /\ (In j (ids F) -> In j (ids (children old))).

(** The same with a generated token that is not yet in the forest and an
    updated node whose children bring no id that is in use beside the
    node carrying its id. *)
Inductive reachable : forest -> Prop :=
| reach_empty : reachable []
| reach_addPrimitive F newId t :
    reachable F -> ~ In newId (ids F) -> reachable (addPrimitive newId t F)
| reach_updateComponent F u F' :
    reachable F -> In (id u) (ids F) ->
    (forall old, In old (preorder F) -> id old = id u ->
                 brings_no_used_id F old u) ->
    updateComponent u F = Ok F' -> reachable F'
| reach_reorder F parentId fromIndex toIndex F' :
    reachable F ->
    reorder parentId fromIndex toIndex F = Ok F' -> reachable F'.

(** The canonical primitive of each leaf kind, as the specification lists
    them: unit box; sphere of radius 1 with 32 by 32 segments; cylinder of
    radius 1 (top and bottom), height 2, 32 radial segments; cone of
    radius 1, height 2, 32 radial segments; icosahedron of radius 1 and
    detail 0. *)
Definition canonical_geometry (t : PrimitiveType) : BufferGeometry :=
  (match t with
   | cube => BoxGeometry 1 1 1
   | sphere => SphereGeometry 1 32 32
   | cylinder => CylinderGeometry 1 1 2 32
   | cone => ConeGeometry 1 2 32
   | d20 => IcosahedronGeometry 1 0
   end)%float.

(** The mesh a node contributes by itself: one for a leaf kind, carrying
    the node's transform, none for a group. *)
Definition own_mesh (comp : Component) : list Object3D :=
  match type comp with
  | primitive t =>
      [Mesh (canonical_geometry t) {| color := "white" |}
            (position comp) (rotation comp) (scale comp)]
  | group => []
  end.

(** ** 9. buildScene on the object store

    The same walk with the JavaScript objects in a store, to state what
    [buildScene] writes: the component objects, their children arrays and
    their [position], [rotation] and [scale] arrays live in the same
    store as the [THREE] objects it creates. *)

Module Heap.

Definition loc := nat.

Inductive kind :=
| SceneKind
| GroupKind
| MeshKind (geometry : BufferGeometry) (material : MeshStandardMaterial).

(** A [THREE.Object3D]: its [position], [rotation] and [scale] are its own
    [Vector3] and [Euler] objects, written by [set]; [children] holds
    references. *)
Record Object3D := {
  obj_kind : kind;
  obj_position : Vec3;
  obj_rotation : Vec3;
  obj_scale : Vec3;
  obj_children : list loc
}.

Inductive cell :=
| NumberArray (v : Vec3)
| ComponentArray (entries : list (option loc))
| ComponentObject (id name : string) (type : ComponentType)
                  (position rotation scale children : loc)
| ThreeObject (o : Object3D).

Definition heap := list cell.

Inductive outcome (A : Type) :=
| Returns (a : A) (h : heap)
| Throws
| OutOfFuel.
Arguments Returns {A} a h.
Arguments Throws {A}.
Arguments OutOfFuel {A}.

(** Computations on the store. *)
Definition M (A : Type) : Type := heap -> outcome A.

Definition ret {A} (a : A) : M A := fun h => Returns a h.

Definition bindM {A B} (m : M A) (k : A -> M B) : M B :=
  fun h =>
    match m h with
    | Returns a h' => k a h'
    | Throws => Throws
    | OutOfFuel => OutOfFuel
    end.

Notation "x <~ m ;; k" := (bindM m (fun x => k))
  (at level 61, m at next level, right associativity).

Definition read (l : loc) (h : heap) : option cell := nth_error h l.

Definition alloc (c : cell) : M loc :=
  fun h => Returns (List.length h) (h ++ [c]).

(** The three numbers of a [position], [rotation] or [scale] array, as
    the spread [...comp.position] reads them. *)
Definition spread (l : loc) : M Vec3 :=
  fun h =>
    match read l h with
    | Some (NumberArray v) => Returns v h
    | _ => Throws
    end.

Definition length_of (l : loc) : M nat :=
  fun h =>
    match read l h with
    | Some (ComponentArray entries) => Returns (List.length entries) h
    | _ => Throws
    end.

(** An in-place update of the [THREE] object at [l]. *)
Definition modify (l : loc) (f : Object3D -> Object3D) : M unit :=
  fun h =>
    match read l h with
    | Some (ThreeObject o) => Returns tt (set_nth l (ThreeObject (f o)) h)
    | _ => Throws
    end.

Definition new_Object3D (k : kind) : M loc :=
  alloc (ThreeObject {| obj_kind := k;
                        obj_position := (0, 0, 0)%float;
                        obj_rotation := (0, 0, 0)%float;
                        obj_scale := (1, 1, 1)%float;
                        obj_children := [] |}).

Definition position_set (o : loc) (v : Vec3) : M unit :=
  modify o (fun obj =>
              let '(x, y, z) := v in
              {| obj_kind := obj_kind obj; obj_position := (x, y, z);
                 obj_rotation := obj_rotation obj; obj_scale := obj_scale obj;
                 obj_children := obj_children obj |}).

Definition rotation_set (o : loc) (v : Vec3) : M unit :=
  modify o (fun obj =>
              let '(x, y, z) := v in
              {| obj_kind := obj_kind obj; obj_position := obj_position obj;
                 obj_rotation := (x, y, z); obj_scale := obj_scale obj;
                 obj_children := obj_children obj |}).

Definition scale_set (o : loc) (v : Vec3) : M unit :=
  modify o (fun obj =>
              let '(x, y, z) := v in
              {| obj_kind := obj_kind obj; obj_position := obj_position obj;
                 obj_rotation := obj_rotation obj; obj_scale := (x, y, z);
                 obj_children := obj_children obj |}).

(** [children.push(...new)] *)
Definition push (new : list loc) (obj : Object3D) : Object3D :=
  {| obj_kind := obj_kind obj;
     obj_position := obj_position obj;
     obj_rotation := obj_rotation obj;
     obj_scale := obj_scale obj;
     obj_children := obj_children obj ++ new |}.

(** [parent.add(child)] for a child that has no parent yet. *)
Definition add (parent child : loc) : M unit :=
  modify parent (push [child]).

(** The [switch (comp.type)]: a reference to the new mesh, or [null]. *)
Definition mesh_of_type (t : ComponentType) (material : MeshStandardMaterial)
  : M (option loc) :=
  (match t with
   | primitive cube =>
       m <~ new_Object3D (MeshKind (BoxGeometry 1 1 1) material) ;; ret (Some m)
   | primitive sphere =>
       m <~ new_Object3D (MeshKind (SphereGeometry 1 32 32) material) ;;
       ret (Some m)
   | primitive cylinder =>
       m <~ new_Object3D (MeshKind (CylinderGeometry 1 1 2 32) material) ;;
       ret (Some m)
   | primitive cone =>
       m <~ new_Object3D (MeshKind (ConeGeometry 1 2 32) material) ;;
       ret (Some m)
   | primitive d20 =>
       m <~ new_Object3D (MeshKind (IcosahedronGeometry 1 0) material) ;;
       ret (Some m)
   | group => ret None
   end)%float.

(** [Array.prototype.forEach] over the entries of an array. *)
Fixpoint forEach (f : option loc -> M unit) (entries : list (option loc))
  : M unit :=
  match entries with
  | [] => ret tt
  | entry :: rest => _ <~ f entry ;; forEach f rest
  end.

(** The block [if (mesh) { ... }]: copy the transform of the component,
    whose three arrays are at [position], [rotation] and [scale], and
    attach the mesh. *)
Definition attach_mesh (mesh : option loc) (position rotation scale : loc)
    (parent : loc) : M unit :=
  match mesh with
  | Some mesh =>
      v <~ spread position ;;
      _ <~ position_set mesh v ;;
      v <~ spread rotation ;;
      _ <~ rotation_set mesh v ;;
      v <~ spread scale ;;
      _ <~ scale_set mesh v ;;
      add parent mesh
  | None => ret tt
  end.

(** The callback of [components.forEach]; [buildScene] is the recursive
    call. *)
Definition buildScene_cb (buildScene : loc -> loc -> M unit) (parent : loc)
    (entry : option loc) : M unit :=
  fun h =>
    match entry with
    | None => Throws
    | Some comp =>
        match read comp h with
        | Some (ComponentObject _ _ type position rotation scale children) =>
            (let material := {| color := "white" |} in
             mesh <~ mesh_of_type type material ;;
             _ <~ attach_mesh mesh position rotation scale parent ;;
             n <~ length_of children ;;
             if (0 <? n)%nat then
               group <~ new_Object3D GroupKind ;;
               _ <~ add parent group ;;
               buildScene children group
             else ret tt) h
        | _ => Throws
        end
    end.

Fixpoint buildScene (fuel : nat) (components parent : loc) : M unit :=
  fun h =>
    match fuel with
    | O => OutOfFuel
    | S fuel =>
        match read components h with
        | Some (ComponentArray entries) =>
            forEach (buildScene_cb (buildScene fuel) parent) entries h
        | _ => Throws
        end
    end.

End Heap.

Inductive option_rel {A B} (R : A -> B -> Prop) : option A -> option B -> Prop :=
| option_rel_None : option_rel R None None
| option_rel_Some a b : R a b -> option_rel R (Some a) (Some b).

(** The store holds the component [c] at [l]: the object, its three
    number arrays and its children array, entry by entry. *)
#[local] Unset Elimination Schemes.
Inductive rep_comp (h : Heap.heap) : Component -> Heap.loc -> Prop :=
| rep_comp_intro c l pl rl sl cl entries :
    Heap.read l h =
      Some (Heap.ComponentObject (id c) (name c) (type c) pl rl sl cl) ->
    Heap.read pl h = Some (Heap.NumberArray (position c)) ->
    Heap.read rl h = Some (Heap.NumberArray (rotation c)) ->
    Heap.read sl h = Some (Heap.NumberArray (scale c)) ->
    Heap.read cl h = Some (Heap.ComponentArray entries) ->
    Forall2 (option_rel (rep_comp h)) (children c) entries ->
    rep_comp h c l.
#[local] Set Elimination Schemes.

(** The store holds the forest [F] in the array at [a]. *)
Definition rep_forest (h : Heap.heap) (F : forest) (a : Heap.loc) : Prop :=
  exists entries,
    Heap.read a h = Some (Heap.ComponentArray entries) /\
    Forall2 (option_rel (rep_comp h)) F entries.

(** The nesting depth of a forest. *)
Fixpoint height_comp (c : Component) : nat :=
  S (fold_right Nat.max 0%nat
       (map (fun entry =>
               match entry with
               | None => 0%nat
               | Some c' => height_comp c'
               end) (children c))).

Definition height (F : forest) : nat :=
  fold_right Nat.max 0%nat
    (map (fun entry =>
            match entry with
            | None => 0%nat
            | Some c' => height_comp c'
            end) F).

(** What the store-level [buildScene] may do to a store [h] on the way to
    [h']: allocate, write to the object [parent], and nothing else.  The
    cells of [h] other than [parent] are as they were; [parent] keeps its
    kind and transform and gets references to new objects appended; every
    new cell is a [THREE] object whose children are new objects. *)
Definition only_adds_to (parent : Heap.loc) (h h' : Heap.heap) : Prop :=
  (List.length h <= List.length h')%nat
  /\ (forall l, (l < List.length h)%nat -> l <> parent ->
        Heap.read l h' = Heap.read l h)
  /\ (exists o new,
        Heap.read parent h = Some (Heap.ThreeObject o)
        /\ Heap.read parent h' = Some (Heap.ThreeObject (Heap.push new o))
        /\ Forall (fun x => (List.length h <= x)%nat) new)
  /\ (forall l c, (List.length h <= l)%nat -> Heap.read l h' = Some c ->
        exists o, c = Heap.ThreeObject o
                  /\ Forall (fun x => (List.length h <= x)%nat)
                       (Heap.obj_children o)).

(** The store after the [switch] and the [if (mesh)] block of the
    callback: for a leaf kind the new mesh with the component's transform
    [vp], [vr], [vs], attached to the object [o] at [p]. *)
Definition after_mesh (t : ComponentType) (material : MeshStandardMaterial)
    (vp vr vs : Vec3) (p : Heap.loc) (o : Heap.Object3D) (h : Heap.heap)
  : Heap.heap :=
  match t with
  | primitive k =>
      set_nth p (Heap.ThreeObject (Heap.push [List.length h] o))
        (h ++ [Heap.ThreeObject
                 {| Heap.obj_kind := Heap.MeshKind (canonical_geometry k) material;
                    Heap.obj_position := vp;
                    Heap.obj_rotation := vr;
                    Heap.obj_scale := vs;
                    Heap.obj_children := [] |}])
  | group => h
  end.

(** Putting a forest into the store: each component object with its
    three number arrays and its children array. *)
Fixpoint store_comp (c : Component) (h : Heap.heap) : Heap.loc * Heap.heap :=
  let '(entries, h) :=
    (fix store_entries (F : forest) (h : Heap.heap)
       : list (option Heap.loc) * Heap.heap :=
       match F with
       | [] => ([], h)
       | None :: F' =>
           let '(es, h) := store_entries F' h in (None :: es, h)
       | Some c' :: F' =>
           let '(l, h) := store_comp c' h in
           let '(es, h) := store_entries F' h in
           (Some l :: es, h)
       end) (children c) h in
  let n := List.length h in
  (S (S (S (S n))),
   h ++ [Heap.ComponentArray entries;
         Heap.NumberArray (position c);
         Heap.NumberArray (rotation c);
         Heap.NumberArray (scale c);
         Heap.ComponentObject (id c) (name c) (type c)
           (S n) (S (S n)) (S (S (S n))) n]).

Fixpoint store_entries (F : forest) (h : Heap.heap)
  : list (option Heap.loc) * Heap.heap :=
  match F with
  | [] => ([], h)
  | None :: F' =>
      let '(es, h) := store_entries F' h in (None :: es, h)
  | Some c' :: F' =>
      let '(l, h) := store_comp c' h in
      let '(es, h) := store_entries F' h in
      (Some l :: es, h)
  end.

Definition store_forest (F : forest) (h : Heap.heap) : Heap.loc * Heap.heap :=
  let '(entries, h) := store_entries F h in
  (List.length h, h ++ [Heap.ComponentArray entries]).

(** Reading an object of the store back as a value: a mesh without
    children, or a group at the default transform with the objects its
    children read back as. *)
#[local] Unset Elimination Schemes.
Inductive reads (h : Heap.heap) : Heap.loc -> Object3D -> Prop :=
| reads_Mesh l g m p r s :
    Heap.read l h =
      Some (Heap.ThreeObject
              {| Heap.obj_kind := Heap.MeshKind g m;
                 Heap.obj_position := p;
                 Heap.obj_rotation := r;
                 Heap.obj_scale := s;
                 Heap.obj_children := [] |}) ->
    reads h l (Mesh g m p r s)
| reads_Group l ch objs :
    Heap.read l h =
      Some (Heap.ThreeObject
              {| Heap.obj_kind := Heap.GroupKind;
                 Heap.obj_position := (0, 0, 0)%float;
                 Heap.obj_rotation := (0, 0, 0)%float;
                 Heap.obj_scale := (1, 1, 1)%float;
                 Heap.obj_children := ch |}) ->
    Forall2 (reads h) ch objs ->
    reads h l (Group objs).
#[local] Set Elimination Schemes.

(** Where that mesh is: the next free place of the store. *)
Definition mesh_loc (t : ComponentType) (h : Heap.heap) : list Heap.loc :=
  match t with
  | primitive _ => [List.length h]
  | group => []
  end.

(** ** 9a. The property editor (App.tsx, lines 206-243) *)

(** [if (selectedComponentId)]: [null] and the empty string are falsy. *)
Definition truthy (s : option string) : bool :=
  match s with
  | None => false
  | Some s => negb (String.eqb s "")
  end.

(** The effect of [PropertyEditor]: the component shown in the form, or
    [null]. *)
Definition PropertyEditor_component (selectedComponentId : option string)
    (model : list (option Component)) : result (option Component) :=
  match selectedComponentId with
  | Some selected =>
      if truthy selectedComponentId then findComponentById model selected
      else Ok None
  | None => Ok None
  end.

(** [String.prototype.includes] for a one-character needle. *)
Fixpoint includes (c : ascii) (s : string) : bool :=
  match s with
  | EmptyString => false
  | String c' s' => Ascii.eqb c' c || includes c s'
  end.

(** [String.prototype.split] with a one-character separator. *)
Fixpoint split (sep : ascii) (s : string) : list string :=
  match s with
  | EmptyString => [EmptyString]
  | String c s' =>
      if Ascii.eqb c sep then EmptyString :: split sep s'
      else
        match split sep s' with
        | seg :: rest => String c seg :: rest
        | [] => [String c EmptyString]
        end
  end.

(** [newArray[axisIndex] = x] on a copy of the triple. *)
Definition set_axis (axisIndex : nat) (x : number) (v : Vec3) : Vec3 :=
  let '(a, b, c) := v in
  match axisIndex with
  | O => (x, b, c)
  | S O => (a, x, c)
  | _ => (a, b, x)
  end.

(** [handleInputChange] on the event's [name] and [value]; [parseFloat] is
    the built-in.  The branch [(updatedComponent as any)[name] = value]
    is followed for the keys [name] and [id]; with any other key the
    object leaves the [Component] record and the result is [None]. *)
Definition handleInputChange (parseFloat : string -> number)
    (component : Component) (name0 value : string) : option Component :=
  let updatedComponent := component in
  if includes "." name0 then
    let parts := split "." name0 in
    let prop := nth 0 parts "" in
    let axis := nth_error parts 1 in
    let axisIndex :=
      match axis with
      | Some a => if String.eqb a "x" then 0%nat
                  else if String.eqb a "y" then 1%nat else 2%nat
      | None => 2%nat
      end in
    if String.eqb prop "position" then
      Some {| id := id updatedComponent; name := name updatedComponent;
              type := type updatedComponent;
              position := set_axis axisIndex (parseFloat value)
                            (position updatedComponent);
              rotation := rotation updatedComponent;
              scale := scale updatedComponent;
              children := children updatedComponent |}
    else if String.eqb prop "rotation" then
      Some {| id := id updatedComponent; name := name updatedComponent;
              type := type updatedComponent;
              position := position updatedComponent;
              rotation := set_axis axisIndex (parseFloat value)
                            (rotation updatedComponent);
              scale := scale updatedComponent;
              children := children updatedComponent |}
    else if String.eqb prop "scale" then
      Some {| id := id updatedComponent; name := name updatedComponent;
              type := type updatedComponent;
              position := position updatedComponent;
              rotation := rotation updatedComponent;
              scale := set_axis axisIndex (parseFloat value)
                         (scale updatedComponent);
              children := children updatedComponent |}
    else Some updatedComponent
  else if String.eqb name0 "name" then
    Some {| id := id updatedComponent; name := value;
            type := type updatedComponent;
            position := position updatedComponent;
            rotation := rotation updatedComponent;
            scale := scale updatedComponent;
            children := children updatedComponent |}
  else if String.eqb name0 "id" then
    Some {| id := value; name := name updatedComponent;
            type := type updatedComponent;
            position := position updatedComponent;
            rotation := rotation updatedComponent;
            scale := scale updatedComponent;
            children := children updatedComponent |}
  else None.

(** The [name] attributes of the ten inputs of the form. *)
Definition input_names : list string :=
  ["name"; "position.x"; "position.y"; "position.z";
   "rotation.x"; "rotation.y"; "rotation.z";
   "scale.x"; "scale.y"; "scale.z"].

(** ** 9b. The model tree (App.tsx, lines 137-183) *)

(** [Array.prototype.map] with the index, for a callback that may
    throw. *)
Fixpoint array_mapi_from {A B} (f : A -> nat -> result B) (arr : list A)
    (i : nat) : result (list B) :=
  match arr with
  | [] => Ok []
  | a :: rest =>
      b <- f a i ;;
      bs <- array_mapi_from f rest (S i) ;;
      Ok (b :: bs)
  end.

Definition array_mapi {A B} (f : A -> nat -> result B) (arr : list A)
  : result (list B) :=
  array_mapi_from f arr 0.

(** The arguments a click hands to [reorder] of [App]. *)
Definition ReorderCall : Type := (option string * Z * Z)%type.

Definition component_type_string (t : ComponentType) : string :=
  match t with
  | primitive p => type_string p
  | group => "group"
  end.

(** One [<li>]: the key, the text and style of the [<span>] (its click
    selects [key]), the two buttons with what a click on them calls, and
    the nested list. *)
#[local] Unset Elimination Schemes.
Inductive TreeItem := mkTreeItem {
  key : string;
  text : string;
  bold : bool;
  up_disabled : bool;
  up_click : ReorderCall;
  down_disabled : bool;
  down_click : ReorderCall;
  nested : option (list TreeItem)
}.
#[local] Set Elimination Schemes.

(** The callback of [components.map] in [ModelTree]; [len] is
    [components.length].  The nested tree gets a wrapper that drops the
    [parentId] it is called with. *)
Fixpoint ModelTree_li (selectedId : option string)
    (onReorder : option string -> Z -> Z -> ReorderCall) (len : nat)
    (comp : Component) (index : nat) : result TreeItem :=
  nested_list <-
    (if (0 <? List.length (children comp))%nat then
       items <- array_mapi
                  (fun entry i =>
                     on_entry
                       (fun c =>
                          ModelTree_li selectedId
                            (fun (parentId : option string) from to =>
                               onReorder (Some (id comp)) from to)
                            (List.length (children comp)) c i)
                       entry)
                  (children comp) ;;
       Ok (Some items)
     else Ok None) ;;
  Ok {| key := id comp;
        text := name comp ++ " (" ++ component_type_string (type comp) ++ ")";
        bold := id_is comp selectedId;
        up_disabled := (index =? 0)%nat;
        up_click := onReorder None (Z.of_nat index) (Z.of_nat index - 1)%Z;
        down_disabled := (Z.of_nat index =? Z.of_nat len - 1)%Z;
        down_click := onReorder None (Z.of_nat index) (Z.of_nat index + 1)%Z;
        nested := nested_list |}.

Definition ModelTree (components : list (option Component))
    (selectedId : option string)
    (onReorder : option string -> Z -> Z -> ReorderCall)
  : result (list TreeItem) :=
  array_mapi
    (fun entry i =>
       on_entry
         (fun c => ModelTree_li selectedId onReorder (List.length components) c i)
         entry)
    components.

(** [<ModelTree ... onReorder={reorder} />] in [App]: a click calls
    [reorder] with the arguments as they arrive. *)
Definition App_ModelTree (model : list (option Component))
    (selectedComponentId : option string) : result (list TreeItem) :=
  ModelTree model selectedComponentId (fun parentId from to => (parentId, from, to)).

(** The item at a position of the rendered tree. *)
Fixpoint item_at (items : list TreeItem) (path : list nat) : option TreeItem :=
  match path with
  | [] => None
  | i :: rest =>
      match nth_error items i with
      | Some it =>
          match rest with
          | [] => Some it
          | _ :: _ =>
              match nested it with
              | Some sub => item_at sub rest
              | None => None
              end
          end
      | None => None
      end
  end.

(** ** 9c. The rendered scene (App.tsx, lines 49-127) *)

(** What [Primitive] and [Scene] render: a [<mesh>] with its geometry
    child, its props and the id its click reports, or a [<group>]. *)
#[local] Unset Elimination Schemes.
Inductive Element :=
| mesh_el (shape : BufferGeometry) (el_position el_rotation el_scale : Vec3)
          (el_material : MeshStandardMaterial) (castShadow receiveShadow : bool)
          (onClick : string)
| group_el (el_children : list Element).
#[local] Set Elimination Schemes.

(** [Primitive]; the [default] of its [switch] is the box. *)
Definition Primitive (component : Component) (selected : bool) : Element :=
  let color0 := if selected then "gold" else "cornflowerblue" in
  let material := {| color := color0 |} in
  let shape :=
    (match type component with
     | primitive cube => BoxGeometry 1 1 1
     | primitive sphere => SphereGeometry 1 32 32
     | primitive cylinder => CylinderGeometry 1 1 2 32
     | primitive cone => ConeGeometry 1 2 32
     | primitive d20 => IcosahedronGeometry 1 0
     | group => BoxGeometry 1 1 1
     end)%float in
  mesh_el shape (position component) (rotation component) (scale component)
          material true true (id component).

(** [Array.prototype.map] whose callback yields a fragment; the fragments
    are spliced into the parent element. *)
Fixpoint array_fragments {A B} (f : A -> result (list B)) (arr : list A)
  : result (list B) :=
  match arr with
  | [] => Ok []
  | a :: rest =>
      b <- f a ;;
      bs <- array_fragments f rest ;;
      Ok (b ++ bs)
  end.

(** The [React.Fragment] of one component in [Scene]. *)
Fixpoint Scene_fragment (selectedComponentId : option string)
    (comp : Component) : result (list Element) :=
  let prim :=
    match type comp with
    | group => []
    | primitive _ => [Primitive comp (id_is comp selectedComponentId)]
    end in
  if (0 <? List.length (children comp))%nat then
    inner <- array_fragments (on_entry (Scene_fragment selectedComponentId))
               (children comp) ;;
    Ok (prim ++ [group_el inner])
  else Ok prim.

Definition Scene (components : list (option Component))
    (selectedComponentId : option string) : result Element :=
  inner <- array_fragments (on_entry (Scene_fragment selectedComponentId))
             components ;;
  Ok (group_el inner).

(** The meshes of a rendered element, depth first. *)
Fixpoint meshes_of (e : Element) : list Element :=
  match e with
  | mesh_el _ _ _ _ _ _ _ _ => [e]
  | group_el ch => flat_map meshes_of ch
  end.

(** Whether an element is a mesh in the colour of the selection, and the
    id a click on it reports. *)
Definition is_gold (e : Element) : bool :=
  match e with
  | mesh_el _ _ _ _ m _ _ _ => String.eqb (color m) "gold"
  | group_el _ => false
  end.

Definition clicked (e : Element) : option string :=
  match e with
  | mesh_el _ _ _ _ _ _ _ i => Some i
  | group_el _ => None
  end.

(** The rendered element as a scene object: the props of a mesh with the
    colour, the shadow flags and the click handler left out. *)
Fixpoint object_of (e : Element) : Object3D :=
  match e with
  | mesh_el g p r s _ _ _ _ => Mesh g {| color := "white" |} p r s
  | group_el ch => Group (map object_of ch)
  end.

(** The meshes of scene objects, depth first. *)
Fixpoint scene_meshes_of (o : Object3D) : list Object3D :=
  match o with
  | Mesh _ _ _ _ _ => [o]
  | Group ch => flat_map scene_meshes_of ch
  end.

Definition scene_meshes (objs : list Object3D) : list Object3D :=
  flat_map scene_meshes_of objs.

(** ** 9d. Sessions of the user interface *)

(** A forest of leaf shapes without children. *)
Definition flat (components : forest) : bool :=
  forallb (fun entry =>
             match entry with
             | None => false
             | Some c =>
                 match type c, children c with
                 | primitive _, [] => true
                 | _, _ => false
                 end
             end) components.

(** The state of [App] and the events of its interface: an add button;
    a click on a mesh or on a tree item, which selects its id; a click
    that hits nothing; a change of one of the ten inputs of the form, which
    is there when the selection resolves; an enabled button of the tree. *)
Definition AppState : Type := (forest * option string)%type.

Inductive ui_step (parseFloat : string -> number) : AppState -> AppState -> Prop :=
| ui_add model sel newId t :
    ui_step parseFloat (model, sel) (addPrimitive newId t model, sel)
| ui_select model sel i :
    In i (ids model) ->
    ui_step parseFloat (model, sel) (model, Some i)
| ui_missed model sel :
    ui_step parseFloat (model, sel) (model, None)
| ui_input model sel component name0 value updated model' :
    PropertyEditor_component sel model = Ok (Some component) ->
    In name0 input_names ->
    handleInputChange parseFloat component name0 value = Some updated ->
    updateComponent updated model = Ok model' ->
    ui_step parseFloat (model, sel) (model', sel)
| ui_up model sel items path item parentId from to model' :
    App_ModelTree model sel = Ok items ->
    item_at items path = Some item ->
    up_disabled item = false ->
    up_click item = (parentId, from, to) ->
    reorder parentId from to model = Ok model' ->
    ui_step parseFloat (model, sel) (model', sel)
| ui_down model sel items path item parentId from to model' :
    App_ModelTree model sel = Ok items ->
    item_at items path = Some item ->
    down_disabled item = false ->
    down_click item = (parentId, from, to) ->
    reorder parentId from to model = Ok model' ->
    ui_step parseFloat (model, sel) (model', sel).

Inductive ui_reachable (parseFloat : string -> number) : AppState -> Prop :=
| ui_start : ui_reachable parseFloat ([], None)
| ui_next st st' :
    ui_reachable parseFloat st -> ui_step parseFloat st st' ->
    ui_reachable parseFloat st'.

(** ** 10. Induction on forests and on scene objects *)

Section ForestInd.
Variable Q : forest -> Prop.
Hypothesis Q_nil : Q [].
Hypothesis Q_undefined : forall l, Q l -> Q (None :: l).
Hypothesis Q_comp : forall c l, Q (children c) -> Q l -> Q (Some c :: l).

Fixpoint comp_children_ind (c : Component) : Q (children c) :=
  match c with
  | mkComponent _ _ _ _ _ _ ch =>
      (fix entries (l : forest) : Q l :=
         match l with
         | [] => Q_nil
         | None :: l' => Q_undefined l' (entries l')
         | Some c' :: l' => Q_comp c' l' (comp_children_ind c') (entries l')
         end) ch
  end.

Lemma forest_ind (l : forest) : Q l.
Proof.
  induction l as [|[c|] l IH].
  - exact Q_nil.
  - apply Q_comp; [apply comp_children_ind | exact IH].
  - apply Q_undefined; exact IH.
Qed.
End ForestInd.

Section ObjectsInd.
Variable Q : list Object3D -> Prop.
Hypothesis Q_nil : Q [].
Hypothesis Q_mesh : forall g m p r s l, Q l -> Q (Mesh g m p r s :: l).
Hypothesis Q_group : forall ch l, Q ch -> Q l -> Q (Group ch :: l).

Fixpoint group_children_ind (o : Object3D)
  : match o with Mesh _ _ _ _ _ => True | Group ch => Q ch end :=
  match o with
  | Mesh _ _ _ _ _ => I
  | Group ch =>
      (fix objects (l : list Object3D) : Q l :=
         match l with
         | [] => Q_nil
         | o' :: l' =>
             match o' as x
                   return (match x with
                           | Mesh _ _ _ _ _ => True
                           | Group c => Q c
                           end -> Q (x :: l')) with
             | Mesh g m p r s => fun _ => Q_mesh g m p r s l' (objects l')
             | Group ch' => fun H => Q_group ch' l' H (objects l')
             end (group_children_ind o')
         end) ch
  end.

Lemma objects_ind (l : list Object3D) : Q l.
Proof.
  induction l as [|[g m p r s|ch] l IH].
  - exact Q_nil.
  - now apply Q_mesh.
  - apply Q_group; [exact (group_children_ind (Group ch)) | exact IH].
Qed.
End ObjectsInd.

(** ** 11. Unfolding equations *)

Lemma with_children_same (c : Component) : with_children c (children c) = c.
Proof. destruct c; reflexivity. Qed.

Lemma findComponentById_body_eq (id0 : string) (comp : Component) :
  findComponentById_body id0 comp =
  if String.eqb (id comp) id0 then Ok (Some comp)
  else findComponentById (children comp) id0.
Proof. destruct comp; reflexivity. Qed.

Lemma findComponentById_cons (c : Component) (l : forest) (id0 : string) :
  findComponentById (Some c :: l) id0 =
  match findComponentById_body id0 c with
  | Ok None => findComponentById l id0
  | r => r
  end.
Proof. reflexivity. Qed.

Lemma updateRecursive_cb_eq (u comp : Component) :
  updateRecursive_cb u comp =
  if String.eqb (id comp) (id u) then Ok u
  else if (0 <? List.length (children comp))%nat then
    ch <- updateRecursive u (children comp) ;; Ok (with_children comp ch)
  else Ok comp.
Proof. destruct comp; reflexivity. Qed.

Lemma updateRecursive_cons (u c : Component) (l : forest) :
  updateRecursive u (Some c :: l) =
  (c' <- updateRecursive_cb u c ;;
   l' <- updateRecursive u l ;;
   Ok (Some c' :: l')).
Proof.
  unfold updateRecursive; simpl.
  destruct (updateRecursive_cb u c); reflexivity.
Qed.

Lemma reorder_cb_eq (parentId : option string) (fromIndex toIndex : Z)
    (comp : Component) :
  reorder_cb parentId fromIndex toIndex comp =
  if id_is comp parentId then
    Ok (with_children comp (reorderList fromIndex toIndex (children comp)))
  else if (0 <? List.length (children comp))%nat then
    ch <- reorder parentId fromIndex toIndex (children comp) ;;
    Ok (with_children comp ch)
  else Ok comp.
Proof. destruct comp; reflexivity. Qed.

Lemma buildScene_cb_eq (comp : Component) (parent : list Object3D) :
  buildScene_cb comp parent =
  let parent' :=
    match mesh_of_type (type comp) {| color := "white" |} with
    | Some mesh =>
        parent ++ [scale_set (scale comp)
                     (rotation_set (rotation comp)
                        (position_set (position comp) mesh))]
    | None => parent
    end in
  if (0 <? List.length (children comp))%nat then
    group_children <- buildScene (children comp) [] ;;
    Ok (parent' ++ [Group group_children])
  else Ok parent'.
Proof. destruct comp; reflexivity. Qed.

(** ** 12. Facts on typing and traversal *)

Lemma well_typed_cons (c : Component) (l : forest) :
  well_typed (Some c :: l) = well_typed (children c) && well_typed l.
Proof. destruct c; reflexivity. Qed.

Lemma preorder_cons (c : Component) (l : forest) :
  preorder (Some c :: l) = c :: preorder (children c) ++ preorder l.
Proof. destruct c; reflexivity. Qed.

Lemma ids_cons (c : Component) (l : forest) :
  ids (Some c :: l) = id c :: ids (children c) ++ ids l.
Proof. unfold ids; rewrite preorder_cons; simpl; now rewrite map_app. Qed.

Lemma find_first_app {A} (p : A -> bool) (l1 l2 : list A) :
  find p (l1 ++ l2) =
  match find p l1 with
  | Some x => Some x
  | None => find p l2
  end.
Proof.
  induction l1 as [|a l1 IH]; simpl; [reflexivity|].
  destruct (p a); [reflexivity | exact IH].
Qed.

Lemma find_id_none (i : string) (l : list Component) :
  ~ In i (map id l) -> find (fun c => String.eqb (id c) i) l = None.
Proof.
  induction l as [|c l IH]; simpl; intros H; [reflexivity|].
  destruct (String.eqb_spec (id c) i) as [E|E]; [tauto|].
  apply IH; tauto.
Qed.

Lemma findComponentById_find (i : string) (F : forest) :
  well_typed F = true ->
  findComponentById F i =
  Ok (find (fun c => String.eqb (id c) i) (preorder F)).
Proof.
  induction F as [| l IH | c l IHc IHl] using forest_ind; intros WT.
  - reflexivity.
  - discriminate.
  - rewrite well_typed_cons in WT. apply andb_true_iff in WT as [WTc WTl].
    rewrite findComponentById_cons, findComponentById_body_eq, preorder_cons.
    simpl find.
    destruct (String.eqb (id c) i); [reflexivity|].
    rewrite (IHc WTc), find_first_app.
    destruct (find _ (preorder (children c))); [reflexivity|].
    exact (IHl WTl).
Qed.

(** ** 13. findComponentById and addPrimitive *)

(** C4. [findComponentById] walks the forest depth first in pre-order: on
    every well-typed (finite) forest it returns, without throwing, the
    first node of the pre-order sequence whose id matches, and [null]
    when no node at any depth has that id. *)
Theorem findComponentById_preorder (F : forest) (i : string) :
  well_typed F = true ->
  findComponentById F i =
    Ok (find (fun c => String.eqb (id c) i) (preorder F))
  /\ (forall c, findComponentById F i = Ok (Some c) ->
        exists before after,
          preorder F = before ++ c :: after /\ id c = i /\
          forall x, In x before -> id x <> i)
  /\ (~ In i (ids F) -> findComponentById F i = Ok None).
Proof.
  intros WT. pose proof (findComponentById_find i F WT) as E.
  split; [exact E|]. split.
  - intros c Hc. rewrite E in Hc. injection Hc as Hc.
    remember (preorder F) as l eqn:El. clear El E WT.
    induction l as [|a l IH]; simpl in Hc; [discriminate|].
    destruct (String.eqb_spec (id a) i) as [Ea|Ea].
    + injection Hc as <-. exists [], l. simpl. tauto.
    + destruct (IH Hc) as (before & after & -> & Hid & Hb).
      exists (a :: before), after. simpl. repeat split; auto.
      intros x [<-|Hx]; auto.
  - intros Hn. rewrite E. f_equal. apply find_id_none. exact Hn.
Qed.

Lemma findComponentById_preorder_witness :
  findComponentById
    [Some (with_children (newComponent "a" cube) [Some (newComponent "b" cone)]);
     Some (newComponent "c" d20)] "b"
  = Ok (Some (newComponent "b" cone)).
Proof.
  refine (eq_trans (proj1 (findComponentById_preorder _ "b" _)) _);
    reflexivity.
Defined.

(** C5. [addPrimitive] appends exactly one node at the end of the root
    sequence: it has the requested kind, the capitalized kind string as
    its name, position and rotation (0,0,0), scale (1,1,1) and no
    children; the nodes already there stay as they were, and when the
    generated id is not yet in the (well-typed) forest,
    [findComponentById] with that id returns the added node. *)
Theorem addPrimitive_appends (F : forest) (newId : string) (t : PrimitiveType) :
  let added :=
    {| id := newId; name := capitalized_kind t; type := primitive t;
       position := (0, 0, 0)%float; rotation := (0, 0, 0)%float;
       scale := (1, 1, 1)%float; children := [] |} in
  addPrimitive newId t F = F ++ [Some added]
  /\ List.length (addPrimitive newId t F) = S (List.length F)
  /\ firstn (List.length F) (addPrimitive newId t F) = F
  /\ (well_typed F = true -> ~ In newId (ids F) ->
      findComponentById (addPrimitive newId t F) newId = Ok (Some added)).
Proof.
  intros added.
  assert (E : addPrimitive newId t F = F ++ [Some added]).
  { unfold addPrimitive, newComponent, added. now destruct t. }
  rewrite E. split; [reflexivity|]. split.
  { rewrite length_app. simpl. lia. }
  split.
  { rewrite firstn_app, Nat.sub_diag, firstn_all. simpl. apply app_nil_r. }
  intros WT Hn.
  assert (WT' : well_typed (F ++ [Some added]) = true).
  { unfold well_typed in *. rewrite forallb_app, WT. reflexivity. }
  rewrite (findComponentById_find newId _ WT').
  unfold preorder. rewrite flat_map_app. fold (preorder F).
  rewrite find_first_app, (find_id_none newId (preorder F) Hn).
  simpl. now rewrite String.eqb_refl.
Qed.

Lemma addPrimitive_appends_witness :
  findComponentById (addPrimitive "k3x9q2a" sphere [Some (newComponent "a" cube)])
    "k3x9q2a"
  = Ok (Some {| id := "k3x9q2a"; name := "Sphere"; type := primitive sphere;
                position := (0, 0, 0)%float; rotation := (0, 0, 0)%float;
                scale := (1, 1, 1)%float; children := [] |}).
Proof.
  apply (proj2 (proj2 (proj2
           (addPrimitive_appends [Some (newComponent "a" cube)] "k3x9q2a" sphere)))).
  - reflexivity.
  - simpl. intros [H|[]]. discriminate H.
Defined.

(** ** 14. Positions and replacement *)

Lemma nth_error_set_nth_eq {A} (i : nat) (x : A) (l : list A) :
  (i < List.length l)%nat -> nth_error (set_nth i x l) i = Some x.
Proof.
  intros H. unfold set_nth.
  rewrite nth_error_app2; rewrite length_firstn, Nat.min_l by lia; [|lia].
  now rewrite Nat.sub_diag.
Qed.

Lemma nth_error_set_nth_neq {A} (i j : nat) (x : A) (l : list A) :
  (i < List.length l)%nat -> j <> i ->
  nth_error (set_nth i x l) j = nth_error l j.
Proof.
  intros H Hj. unfold set_nth.
  destruct (Nat.lt_ge_cases j i) as [Hlt|Hge].
  - rewrite nth_error_app1 by (rewrite length_firstn; lia).
    rewrite nth_error_firstn.
    destruct (Nat.ltb_spec j i); [reflexivity | lia].
  - rewrite nth_error_app2; rewrite length_firstn, Nat.min_l by lia; [|lia].
    destruct (j - i)%nat as [|k] eqn:E; [lia|].
    change (nth_error (skipn (S i) l) k = nth_error l j).
    rewrite nth_error_skipn. f_equal. lia.
Qed.

Lemma nth_error_lt {A} (l : list A) (i : nat) (x : A) :
  nth_error l i = Some x -> (i < List.length l)%nat.
Proof. intros H. apply nth_error_Some. congruence. Qed.

Lemma set_nth_cons_S {A} (i : nat) (x y : A) (l : list A) :
  set_nth (S i) x (y :: l) = y :: set_nth i x l.
Proof. reflexivity. Qed.

Lemma replace_at_cons_S (i : nat) (q : list nat) (u : Component)
    (x : option Component) (l : forest) :
  replace_at (S i :: q) u (x :: l) = x :: replace_at (i :: q) u l.
Proof.
  simpl. destruct (nth_error l i) as [[c|]|]; try reflexivity.
  destruct q; reflexivity.
Qed.

Lemma node_at_cons (l : forest) (i : nat) (rest : list nat) :
  node_at l (i :: rest) =
  match nth_error l i with
  | Some (Some c) =>
      match rest with
      | [] => Some c
      | _ :: _ => node_at (children c) rest
      end
  | _ => None
  end.
Proof. reflexivity. Qed.

Lemma replace_at_cons (l : forest) (i : nat) (rest : list nat) (u : Component) :
  replace_at (i :: rest) u l =
  match nth_error l i with
  | Some (Some c) =>
      match rest with
      | [] => set_nth i (Some u) l
      | _ :: _ =>
          set_nth i (Some (with_children c (replace_at rest u (children c)))) l
      end
  | _ => l
  end.
Proof. reflexivity. Qed.

Lemma node_at_nonempty (l : forest) (path : list nat) (c : Component) :
  node_at l path = Some c -> path <> [].
Proof. destruct path; simpl; congruence. Qed.

(** The replaced position holds the new node. *)
Lemma node_at_replace_at_same (u : Component) (path : list nat) :
  forall (l : forest) (old : Component),
    node_at l path = Some old ->
    node_at (replace_at path u l) path = Some u.
Proof.
  induction path as [|i rest IH]; intros l old H; simpl in *; [discriminate|].
  destruct (nth_error l i) as [[c|]|] eqn:E; try discriminate.
  pose proof (nth_error_lt _ _ _ E) as Hi.
  destruct rest as [|j r].
  - now rewrite nth_error_set_nth_eq.
  - rewrite nth_error_set_nth_eq by exact Hi. simpl children.
    exact (IH _ _ H).
Qed.

(** A position that is neither the replaced one, nor above it, nor below
    it holds the same node, with the same subtree. *)
Lemma node_at_replace_at_other (u : Component) (path : list nat) :
  forall (l : forest) (old : Component) (q : list nat),
    node_at l path = Some old ->
    is_prefix q path = false -> is_prefix path q = false ->
    node_at (replace_at path u l) q = node_at l q.
Proof.
  induction path as [|i rest IH]; intros l old q H Hq Hp; simpl in H;
    [discriminate|].
  destruct q as [|j q']; [discriminate|].
  simpl replace_at.
  destruct (nth_error l i) as [[c|]|] eqn:E; try discriminate.
  pose proof (nth_error_lt _ _ _ E) as Hi.
  simpl in Hq, Hp.
  destruct (Nat.eqb_spec j i) as [->|Hji].
  - rewrite Nat.eqb_refl in Hp. simpl in Hq, Hp.
    destruct rest as [|k r]; [discriminate|].
    destruct q' as [|k' r']; [discriminate|].
    rewrite !node_at_cons, nth_error_set_nth_eq, E by exact Hi.
    simpl children.
    exact (IH (children c) old (k' :: r') H Hq Hp).
  - assert (Hnth : forall x, nth_error (set_nth i x l) j = nth_error l j)
      by (intros; now apply nth_error_set_nth_neq).
    rewrite !node_at_cons. destruct rest; now rewrite Hnth.
Qed.

(** An ancestor of the replaced position keeps its record; among its
    children only the one on the way to the replaced node differs. *)
Lemma node_at_replace_at_ancestor (u : Component) (q : list nat) :
  forall (l : forest) (old c : Component) (suffix : list nat),
    suffix <> [] ->
    node_at l (q ++ suffix) = Some old ->
    node_at l q = Some c ->
    node_at (replace_at (q ++ suffix) u l) q =
    Some (with_children c (replace_at suffix u (children c))).
Proof.
  induction q as [|i q' IH]; intros l old c suffix Hs H Hc; simpl in Hc;
    [discriminate|].
  simpl app in *. simpl in H. simpl replace_at.
  destruct (nth_error l i) as [[c0|]|] eqn:E; try discriminate.
  pose proof (nth_error_lt _ _ _ E) as Hi.
  destruct q' as [|j r].
  - injection Hc as ->. simpl app in *.
    destruct suffix as [|k s]; [congruence|].
    simpl. now rewrite nth_error_set_nth_eq.
  - simpl app in *. rewrite node_at_cons.
    rewrite nth_error_set_nth_eq by exact Hi. simpl children.
    exact (IH (children c0) old c suffix Hs H Hc).
Qed.

(** ** 15. updateRecursive *)

Lemma count_ids_cons (c : Component) (l : forest) (i : string) :
  count_occ string_dec (ids (Some c :: l)) i =
  ((if string_dec (id c) i then 1 else 0)
   + count_occ string_dec (ids (children c)) i
   + count_occ string_dec (ids l) i)%nat.
Proof.
  rewrite ids_cons. simpl. rewrite count_occ_app.
  destruct (string_dec (id c) i); lia.
Qed.

Lemma ids_nonempty_length (l : forest) (i : string) :
  In i (ids l) -> (0 <? List.length l)%nat = true.
Proof. destruct l; simpl; [tauto | reflexivity]. Qed.

(** A run of [updateRecursive] that finds no matching id and does not
    throw returns the forest as it was. *)
Lemma updateRecursive_absent (u : Component) (l : forest) :
  forall l', ~ In (id u) (ids l) -> updateRecursive u l = Ok l' -> l' = l.
Proof.
  induction l as [| l IH | c l IHc IHl] using forest_ind; intros l' Hn H.
  - now injection H as <-.
  - discriminate.
  - rewrite ids_cons in Hn. simpl in Hn. rewrite in_app_iff in Hn.
    rewrite updateRecursive_cons, updateRecursive_cb_eq in H.
    destruct (String.eqb_spec (id c) (id u)) as [E|E]; [tauto|].
    assert (Hc : (if (0 <? List.length (children c))%nat
                  then ch <- updateRecursive u (children c) ;;
                       Ok (with_children c ch)
                  else Ok c) = Ok c \/
                 (if (0 <? List.length (children c))%nat
                  then ch <- updateRecursive u (children c) ;;
                       Ok (with_children c ch)
                  else Ok c) = TypeError).
    { destruct (0 <? List.length (children c))%nat; [|now left].
      destruct (updateRecursive u (children c)) as [ch|] eqn:Ech; [|now right].
      left. simpl. rewrite (IHc ch); [|tauto|reflexivity].
      now rewrite with_children_same. }
    destruct Hc as [Hc|Hc]; rewrite Hc in H; simpl in H; [|discriminate].
    destruct (updateRecursive u l) as [l1|] eqn:El; [|discriminate].
    simpl in H. injection H as <-. f_equal. apply IHl; tauto.
Qed.

(** On a well-typed forest [updateRecursive] does not throw. *)
Lemma updateRecursive_total (u : Component) (l : forest) :
  well_typed l = true -> exists l', updateRecursive u l = Ok l'.
Proof.
  induction l as [| l IH | c l IHc IHl] using forest_ind; intros WT.
  - now exists [].
  - discriminate.
  - rewrite well_typed_cons in WT. apply andb_true_iff in WT as [WTc WTl].
    destruct (IHc WTc) as [ch Hch], (IHl WTl) as [l1 Hl1].
    rewrite updateRecursive_cons, updateRecursive_cb_eq, Hch, Hl1.
    destruct (String.eqb (id c) (id u)); [simpl; eauto|].
    destruct (0 <? List.length (children c))%nat; simpl; eauto.
Qed.

Lemma updateRecursive_absent_wt (u : Component) (l : forest) :
  well_typed l = true -> ~ In (id u) (ids l) -> updateRecursive u l = Ok l.
Proof.
  intros WT Hn. destruct (updateRecursive_total u l WT) as [l' H].
  rewrite H. f_equal. exact (updateRecursive_absent u l l' Hn H).
Qed.

Lemma count_occ_zero_not_in (l : list string) (i : string) :
  count_occ string_dec l i = 0%nat -> ~ In i l.
Proof. intros H. now apply count_occ_not_In in H. Qed.

Lemma count_occ_pos_in (l : list string) (i : string) :
  count_occ string_dec l i = 1%nat -> In i l.
Proof. intros H. apply (count_occ_In string_dec). lia. Qed.

(** With exactly one node of the id in a well-typed forest,
    [updateRecursive] is the replacement at that node's position. *)
Lemma updateRecursive_replace (u : Component) (l : forest) :
  well_typed l = true ->
  count_occ string_dec (ids l) (id u) = 1%nat ->
  exists path old,
    node_at l path = Some old /\ id old = id u /\
    updateRecursive u l = Ok (replace_at path u l).
Proof.
  induction l as [| l IH | c l IHc IHl] using forest_ind; intros WT Hcount.
  - discriminate.
  - discriminate.
  - rewrite well_typed_cons in WT. apply andb_true_iff in WT as [WTc WTl].
    rewrite count_ids_cons in Hcount.
    rewrite updateRecursive_cons, updateRecursive_cb_eq.
    destruct (string_dec (id c) (id u)) as [E|E].
    + (* the root entry itself *)
      exists [0%nat], c. rewrite E, String.eqb_refl. simpl.
      rewrite updateRecursive_absent_wt;
        [tauto | exact WTl | apply count_occ_zero_not_in; lia].
    + apply String.eqb_neq in E. rewrite E.
      destruct (count_occ string_dec (ids (children c)) (id u)) as [|n] eqn:Ec.
      * (* in a later root *)
        destruct (IHl WTl) as (path & old & Hat & Hid & Hup); [lia|].
        destruct path as [|i q]; [discriminate|].
        exists (S i :: q), old. rewrite replace_at_cons_S.
        split; [exact Hat|]. split; [exact Hid|].
        rewrite Hup.
        rewrite updateRecursive_absent_wt;
          [| exact WTc | now apply count_occ_zero_not_in].
        simpl. rewrite with_children_same.
        now destruct (0 <? List.length (children c))%nat.
      * (* below this root *)
        destruct (IHc WTc) as (path & old & Hat & Hid & Hup); [lia|].
        destruct path as [|i q]; [discriminate|].
        exists (0%nat :: i :: q), old.
        split; [exact Hat|]. split; [exact Hid|].
        rewrite (ids_nonempty_length (children c) (id u))
          by (apply count_occ_pos_in; lia).
        rewrite Hup.
        rewrite updateRecursive_absent_wt;
          [| exact WTl | apply count_occ_zero_not_in; lia].
        reflexivity.
Qed.

(** ** 16. splice and reorderList *)

Lemma skipn_nth_error {A} (l : list A) (n : nat) (x : A) :
  nth_error l n = Some x -> skipn n l = x :: skipn (S n) l.
Proof.
  revert l; induction n as [|n IH]; intros [|a l] H; simpl in *;
    try discriminate.
  - now injection H as <-.
  - exact (IH l H).
Qed.

(** Taking out the entry at an index in range. *)
Lemma splice_remove (l : forest) (from : nat) (x : option Component) :
  nth_error l from = Some x ->
  splice (Z.of_nat from) 1 [] l = ([x], firstn from l ++ skipn (S from) l).
Proof.
  intros H. pose proof (nth_error_lt _ _ _ H) as Hlt.
  unfold splice. cbv zeta.
  destruct (Z.ltb_spec (Z.of_nat from) 0) as [Hneg|_]; [lia|].
  replace (Z.to_nat (Z.min (Z.max 1 0)
                        (Z.of_nat (List.length l)
                         - Z.min (Z.of_nat from) (Z.of_nat (List.length l)))))
    with 1%nat by lia.
  replace (Z.to_nat (Z.min (Z.of_nat from) (Z.of_nat (List.length l))))
    with from by lia.
  rewrite (skipn_nth_error _ _ _ H). simpl firstn.
  now rewrite Nat.add_1_r.
Qed.


(** Inserting one entry: it lands at the clamped index. *)
Lemma splice_insert (l : forest) (toIndex : Z) (x : option Component) :
  exists k, (k <= List.length l)%nat /\
    splice toIndex 0 [x] l = ([], firstn k l ++ x :: skipn k l) /\
    ((0 <= toIndex <= Z.of_nat (List.length l))%Z -> k = Z.to_nat toIndex).
Proof.
  unfold splice. cbv zeta.
  set (len := Z.of_nat (List.length l)).
  set (s := if (toIndex <? 0)%Z then Z.max (len + toIndex) 0
            else Z.min toIndex len).
  assert (Hs : (0 <= s <= len)%Z).
  { unfold s. destruct (Z.ltb_spec toIndex 0); lia. }
  exists (Z.to_nat s). split; [lia|]. split.
  - replace (Z.to_nat (Z.min (Z.max 0 0) (len - s))) with 0%nat by lia.
    now rewrite Nat.add_0_r.
  - intros H. unfold s. destruct (Z.ltb_spec toIndex 0); lia.
Qed.

(** With both indices in range [reorderList] is the list move. *)
Lemma reorderList_in_range (l : forest) (from to : nat) :
  (from < List.length l)%nat -> (to < List.length l)%nat ->
  reorderList (Z.of_nat from) (Z.of_nat to) l = list_move from to l.
Proof.
  intros Hf Ht. unfold reorderList, list_move.
  destruct (nth_error l from) as [x|] eqn:E;
    [| apply nth_error_None in E; lia].
  rewrite (splice_remove _ _ _ E). simpl hd.
  set (rest := firstn from l ++ skipn (S from) l).
  assert (Hlen : List.length rest = (List.length l - 1)%nat).
  { unfold rest. rewrite length_app, length_firstn, length_skipn. lia. }
  destruct (splice_insert rest (Z.of_nat to) x) as (k & _ & -> & Hk).
  rewrite Hk by lia. now rewrite Nat2Z.id.
Qed.


Lemma Permutation_insert {A} (k : nat) (x : A) (l : list A) :
  Permutation (firstn k l ++ x :: skipn k l) (x :: l).
Proof.
  symmetry. rewrite <- (firstn_skipn k l) at 1. apply Permutation_middle.
Qed.

Lemma Permutation_list_move {A} (from to : nat) (l : list A) :
  Permutation (list_move from to l) l.
Proof.
  unfold list_move. destruct (nth_error l from) as [x|] eqn:E; [|reflexivity].
  rewrite Permutation_insert.
  rewrite <- (firstn_skipn from l) at 3. rewrite (skipn_nth_error _ _ _ E).
  apply Permutation_middle.
Qed.

(** Whatever the indices, [reorderList] permutes the entries, possibly
    with one [undefined] added. *)
Lemma reorderList_Permutation (l : forest) (fromIndex toIndex : Z) :
  Permutation (reorderList fromIndex toIndex l) l \/
  Permutation (reorderList fromIndex toIndex l) (None :: l).
Proof.
  unfold reorderList.
  destruct (splice fromIndex 1 [] l) as [removed rest] eqn:E.
  destruct (splice_insert rest toIndex (hd undefined removed))
    as (k & _ & -> & _).
  pose proof (Permutation_insert k (hd undefined removed) rest) as P.
  assert (C : Permutation (hd undefined removed :: rest) l \/
              Permutation (hd undefined removed :: rest) (None :: l)).
  { clear P. unfold splice in E. cbv zeta in E.
    set (d := Z.to_nat (Z.min (Z.max 1 0) _)) in E.
    set (s := Z.to_nat _) in E.
    assert (Hd : (d <= 1)%nat) by (unfold d; lia).
    injection E as <- <-. simpl app.
    destruct d as [|[|d]]; [| |lia].
    - right. simpl. now rewrite Nat.add_0_r, firstn_skipn.
    - destruct (skipn s l) as [|x tl] eqn:Es.
      + right. simpl.
        assert (Hall : (List.length l <= s)%nat).
        { destruct (Nat.le_gt_cases (List.length l) s) as [Hle|Hgt];
            [exact Hle|].
          assert (H : List.length (skipn s l) = 0%nat) by now rewrite Es.
          rewrite length_skipn in H. lia. }
        rewrite firstn_all2, skipn_all2 by lia. now rewrite app_nil_r.
      + left. simpl hd.
        rewrite <- (firstn_skipn s l) at 3. rewrite Es.
        replace (skipn (s + 1) l) with tl.
        * apply Permutation_middle.
        * rewrite Nat.add_1_r. change (S s) with (1 + s)%nat.
          rewrite <- skipn_skipn, Es. reflexivity. }
  destruct C as [C|C]; [left|right]; exact (Permutation_trans P C).
Qed.

Lemma nth_error_remove {A} (l : list A) (from i : nat) :
  (from < List.length l)%nat ->
  nth_error (firstn from l ++ skipn (S from) l) i =
  nth_error l (if (i <? from)%nat then i else S i).
Proof.
  intros H.
  assert (Hlen : List.length (firstn from l) = from)
    by (rewrite length_firstn; lia).
  destruct (Nat.ltb_spec i from) as [Hi|Hi].
  - rewrite nth_error_app1 by lia. rewrite nth_error_firstn.
    destruct (Nat.ltb_spec i from); [reflexivity | lia].
  - rewrite nth_error_app2 by lia. rewrite Hlen, nth_error_skipn.
    f_equal. lia.
Qed.

(** The positions after a move: not a swap, the entries in between
    shift. *)
Lemma list_move_nth_error {A} (l : list A) (from to i : nat) :
  (from < List.length l)%nat -> (to < List.length l)%nat ->
  nth_error (list_move from to l) i = nth_error l (move_source from to i).
Proof.
  intros Hf Ht. unfold list_move, move_source.
  destruct (nth_error l from) as [x|] eqn:E;
    [| apply nth_error_None in E; lia].
  set (rest := firstn from l ++ skipn (S from) l).
  assert (Hrest : List.length rest = (List.length l - 1)%nat).
  { unfold rest. rewrite length_app, length_firstn, length_skipn. lia. }
  assert (Hlen : List.length (firstn to rest) = to)
    by (rewrite length_firstn; lia).
  destruct (Nat.eqb_spec i to) as [->|Hne].
  - rewrite nth_error_app2 by lia. rewrite Hlen, Nat.sub_diag. simpl.
    now rewrite E.
  - destruct (Nat.lt_ge_cases i to) as [Hlt|Hge].
    + rewrite nth_error_app1 by lia. rewrite nth_error_firstn.
      destruct (Nat.ltb_spec i to); [|lia].
      unfold rest. rewrite nth_error_remove by exact Hf.
      destruct (Nat.ltb_spec i from), (Nat.leb_spec from i),
        (Nat.ltb_spec to i), (Nat.leb_spec i from);
        cbn [andb]; try lia; reflexivity.
    + rewrite nth_error_app2 by lia. rewrite Hlen.
      destruct (i - to)%nat as [|k] eqn:Ek; [lia|].
      change (nth_error (skipn to rest) k =
              nth_error l
                (if (from <=? i)%nat && (i <? to)%nat then S i
                 else if (to <? i)%nat && (i <=? from)%nat then (i - 1)%nat
                      else i)).
      rewrite nth_error_skipn. unfold rest.
      rewrite nth_error_remove by exact Hf.
      destruct (Nat.ltb_spec (to + k) from), (Nat.leb_spec from i),
        (Nat.ltb_spec i to), (Nat.ltb_spec to i), (Nat.leb_spec i from);
        cbn [andb]; try lia; f_equal; lia.
Qed.

(** ** 17. reorder *)

Lemma reorder_cons (parentId : option string) (fromIndex toIndex : Z)
    (c : Component) (l : forest) :
  not_parentId parentId = false ->
  reorder parentId fromIndex toIndex (Some c :: l) =
  (c' <- reorder_cb parentId fromIndex toIndex c ;;
   l' <- reorder parentId fromIndex toIndex l ;;
   Ok (Some c' :: l')).
Proof.
  intros H. unfold reorder. rewrite H. simpl.
  destruct (reorder_cb parentId fromIndex toIndex c); reflexivity.
Qed.

Lemma id_is_false (c : Component) (p : string) :
  id c <> p -> id_is c (Some p) = false.
Proof. intros H. simpl. now apply String.eqb_neq. Qed.

(** A run of [reorder] with a truthy [parentId] that matches no node and
    does not throw returns the forest as it was. *)
Lemma reorder_absent (p : string) (fromIndex toIndex : Z) (l : forest) :
  p <> "" ->
  forall l', ~ In p (ids l) ->
    reorder (Some p) fromIndex toIndex l = Ok l' -> l' = l.
Proof.
  intros Hp.
  assert (Hnp : not_parentId (Some p) = false) by now apply String.eqb_neq.
  induction l as [| l IH | c l IHc IHl] using forest_ind; intros l' Hn H.
  - unfold reorder in H. rewrite Hnp in H. now injection H as <-.
  - unfold reorder in H. rewrite Hnp in H. discriminate.
  - rewrite ids_cons in Hn. simpl in Hn. rewrite in_app_iff in Hn.
    rewrite reorder_cons, reorder_cb_eq in H by exact Hnp.
    rewrite id_is_false in H by tauto.
    assert (Hc : (if (0 <? List.length (children c))%nat
                  then ch <- reorder (Some p) fromIndex toIndex (children c) ;;
                       Ok (with_children c ch)
                  else Ok c) = Ok c \/
                 (if (0 <? List.length (children c))%nat
                  then ch <- reorder (Some p) fromIndex toIndex (children c) ;;
                       Ok (with_children c ch)
                  else Ok c) = TypeError).
    { destruct (0 <? List.length (children c))%nat; [|now left].
      destruct (reorder (Some p) fromIndex toIndex (children c))
        as [ch|] eqn:Ech; [|now right].
      left. simpl. rewrite (IHc ch); [|tauto|reflexivity].
      now rewrite with_children_same. }
    destruct Hc as [Hc|Hc]; rewrite Hc in H; simpl in H; [|discriminate].
    destruct (reorder (Some p) fromIndex toIndex l) as [l1|] eqn:El;
      [|discriminate].
    simpl in H. injection H as <-. f_equal. apply IHl; tauto.
Qed.

(** On a well-typed forest [reorder] does not throw. *)
Lemma reorder_total (parentId : option string) (fromIndex toIndex : Z)
    (l : forest) :
  well_typed l = true ->
  exists l', reorder parentId fromIndex toIndex l = Ok l'.
Proof.
  destruct (not_parentId parentId) eqn:Hnp.
  { intros _. unfold reorder. rewrite Hnp. eauto. }
  induction l as [| l IH | c l IHc IHl] using forest_ind; intros WT.
  - unfold reorder. rewrite Hnp. now exists [].
  - discriminate.
  - rewrite well_typed_cons in WT. apply andb_true_iff in WT as [WTc WTl].
    destruct (IHc WTc) as [ch Hch], (IHl WTl) as [l1 Hl1].
    rewrite reorder_cons, reorder_cb_eq, Hch, Hl1 by exact Hnp.
    destruct (id_is c parentId); [simpl; eauto|].
    destruct (0 <? List.length (children c))%nat; simpl; eauto.
Qed.

Lemma reorder_absent_wt (p : string) (fromIndex toIndex : Z) (l : forest) :
  p <> "" -> well_typed l = true -> ~ In p (ids l) ->
  reorder (Some p) fromIndex toIndex l = Ok l.
Proof.
  intros Hp WT Hn.
  destruct (reorder_total (Some p) fromIndex toIndex l WT) as [l' H].
  rewrite H. f_equal. exact (reorder_absent p fromIndex toIndex l Hp l' Hn H).
Qed.

Lemma NoDup_app_disjoint {A} (l1 l2 : list A) (a : A) :
  NoDup (l1 ++ l2) -> In a l1 -> ~ In a l2.
Proof.
  induction l1 as [|x l1 IH]; simpl; intros N H; [tauto|].
  apply NoDup_cons_iff in N as [Hx N].
  destruct H as [->|H]; [|exact (IH N H)].
  intros H2. apply Hx, in_or_app. now right.
Qed.

Lemma node_at_In_ids (path : list nat) :
  forall (l : forest) (c : Component),
    node_at l path = Some c -> In (id c) (ids l).
Proof.
  induction path as [|i rest IH]; intros l c H; [discriminate|].
  rewrite node_at_cons in H.
  destruct (nth_error l i) as [[c0|]|] eqn:E; try discriminate.
  assert (Hin : In (id c) (id c0 :: ids (children c0))).
  { destruct rest; [injection H as ->; now left|].
    right. exact (IH _ _ H). }
  clear H IH. revert i E.
  induction l as [|x l IHl]; intros [|i] E; simpl in E; try discriminate.
  - injection E as ->. rewrite ids_cons.
    destruct Hin as [Hin|Hin]; [now left|].
    right. apply in_or_app. now left.
  - destruct x as [c1|].
    + rewrite ids_cons. right. apply in_or_app. right. exact (IHl i E).
    + exact (IHl i E).
Qed.

Lemma NoDup_ids_cons (c : Component) (l : forest) :
  NoDup (ids (Some c :: l)) ->
  ~ In (id c) (ids (children c)) /\ ~ In (id c) (ids l) /\
  NoDup (ids (children c)) /\ NoDup (ids l) /\
  (forall a, In a (ids (children c)) -> ~ In a (ids l)).
Proof.
  rewrite ids_cons. intros N. apply NoDup_cons_iff in N as [Hc N].
  rewrite in_app_iff in Hc.
  repeat split; try tauto.
  - exact (NoDup_app_remove_r _ _ N).
  - exact (NoDup_app_remove_l _ _ N).
  - intros a. exact (NoDup_app_disjoint _ _ a N).
Qed.

(** With unique ids in a well-typed forest, [reorder] with the id of the
    node at [path] replaces that node's children by their reordering and
    touches nothing else. *)
Lemma reorder_at_parent (p : string) (fromIndex toIndex : Z) (l : forest) :
  p <> "" ->
  forall (path : list nat) (parent : Component),
    well_typed l = true -> NoDup (ids l) ->
    node_at l path = Some parent -> id parent = p ->
    reorder (Some p) fromIndex toIndex l =
    Ok (replace_at path
          (with_children parent
             (reorderList fromIndex toIndex (children parent))) l).
Proof.
  intros Hp.
  assert (Hnp : not_parentId (Some p) = false) by now apply String.eqb_neq.
  induction l as [| l IH | c l IHc IHl] using forest_ind;
    intros path parent WT N Hat Hid.
  - destruct path as [|[|i] q]; discriminate.
  - discriminate.
  - rewrite well_typed_cons in WT. apply andb_true_iff in WT as [WTc WTl].
    destruct (NoDup_ids_cons c l N) as (Hc1 & Hc2 & Nc & Nl & Hdis).
    rewrite reorder_cons, reorder_cb_eq by exact Hnp.
    destruct path as [|[|i] q]; [discriminate| |].
    + rewrite node_at_cons in Hat. simpl nth_error in Hat.
      destruct q as [|j r].
      * (* the root entry is the parent *)
        injection Hat as ->. simpl id_is. rewrite Hid, String.eqb_refl.
        rewrite Hid in Hc2.
        rewrite reorder_absent_wt by auto.
        reflexivity.
      * (* the parent is below this root entry *)
        pose proof (node_at_In_ids _ _ _ Hat) as Hin. rewrite Hid in Hin.
        rewrite id_is_false by (intros E; rewrite E in Hc1; tauto).
        rewrite (ids_nonempty_length _ _ Hin).
        rewrite (IHc (j :: r) parent WTc Nc Hat Hid).
        rewrite reorder_absent_wt by (auto; now apply Hdis).
        reflexivity.
    + (* the parent is under a later root entry *)
      rewrite replace_at_cons_S.
      assert (Hat' : node_at l (i :: q) = Some parent) by exact Hat.
      pose proof (node_at_In_ids _ _ _ Hat') as Hin. rewrite Hid in Hin.
      rewrite id_is_false by (intros E; rewrite E in Hc2; tauto).
      rewrite (IHl (i :: q) parent WTl Nl Hat' Hid).
      rewrite reorder_absent_wt;
        [| exact Hp | exact WTc | intros Hch; exact (Hdis p Hch Hin)].
      simpl. rewrite with_children_same.
      now destruct (0 <? List.length (children c))%nat.
Qed.

Lemma ids_Permutation (l l' : forest) :
  Permutation l l' -> Permutation (ids l) (ids l').
Proof.
  intros P. unfold ids, preorder.
  apply Permutation_map. now apply Permutation_flat_map.
Qed.

Lemma ids_reorderList (fromIndex toIndex : Z) (l : forest) :
  Permutation (ids (reorderList fromIndex toIndex l)) (ids l).
Proof.
  destruct (reorderList_Permutation l fromIndex toIndex) as [P|P];
    exact (ids_Permutation _ _ P).
Qed.

(** Whatever the arguments, a run of [reorder] that does not throw
    permutes the ids of the forest. *)
Lemma reorder_ids_Permutation (parentId : option string)
    (fromIndex toIndex : Z) (l : forest) :
  forall l', reorder parentId fromIndex toIndex l = Ok l' ->
    Permutation (ids l') (ids l).
Proof.
  destruct (not_parentId parentId) eqn:Hnp.
  { intros l' H. unfold reorder in H. rewrite Hnp in H. injection H as <-.
    apply ids_reorderList. }
  induction l as [| l IH | c l IHc IHl] using forest_ind; intros l' H.
  - unfold reorder in H. rewrite Hnp in H. injection H as <-. reflexivity.
  - unfold reorder in H. rewrite Hnp in H. discriminate.
  - rewrite reorder_cons, reorder_cb_eq in H by exact Hnp.
    assert (Hc : forall c', (if id_is c parentId
               then Ok (with_children c
                          (reorderList fromIndex toIndex (children c)))
               else if (0 <? List.length (children c))%nat
                    then ch <- reorder parentId fromIndex toIndex (children c) ;;
                         Ok (with_children c ch)
                    else Ok c) = Ok c' ->
             id c' = id c /\ Permutation (ids (children c')) (ids (children c))).
    { intros c' Hc'. destruct (id_is c parentId).
      - injection Hc' as <-. split; [reflexivity | apply ids_reorderList].
      - destruct (0 <? List.length (children c))%nat.
        + destruct (reorder parentId fromIndex toIndex (children c))
            as [ch|] eqn:Ech; [|discriminate].
          injection Hc' as <-. split; [reflexivity | exact (IHc ch eq_refl)].
        + injection Hc' as <-. split; reflexivity. }
    destruct (if id_is c parentId then _ else _) as [c'|]; [|discriminate].
    destruct (Hc c' eq_refl) as [Hid Hperm].
    simpl in H.
    destruct (reorder parentId fromIndex toIndex l) as [l1|]; [|discriminate].
    simpl in H. injection H as <-.
    rewrite !ids_cons, Hid. apply perm_skip.
    apply Permutation_app; [exact Hperm | exact (IHl l1 eq_refl)].
Qed.

(** ** 18. Ids under updateComponent *)

Lemma findComponentById_None_not_in (i : string) (l : forest) :
  findComponentById l i = Ok None -> ~ In i (ids l).
Proof.
  induction l as [| l IH | c l IHc IHl] using forest_ind; intros H.
  - simpl. tauto.
  - discriminate.
  - rewrite findComponentById_cons, findComponentById_body_eq in H.
    rewrite ids_cons. simpl. rewrite in_app_iff.
    destruct (String.eqb_spec (id c) i) as [E|E]; [discriminate|].
    destruct (findComponentById (children c) i) as [[x|]|]; try discriminate.
    specialize (IHc eq_refl). specialize (IHl H). tauto.
Qed.

Lemma findComponentById_Some_in (i : string) (l : forest) (c : Component) :
  findComponentById l i = Ok (Some c) -> In i (ids l).
Proof.
  induction l as [| l IH | c0 l IHc IHl] using forest_ind; intros H.
  - discriminate.
  - discriminate.
  - rewrite findComponentById_cons, findComponentById_body_eq in H.
    rewrite ids_cons. simpl. rewrite in_app_iff.
    destruct (String.eqb_spec (id c0) i) as [E|E]; [now left|].
    destruct (findComponentById (children c0) i) as [[x|]|];
      try discriminate; auto.
Qed.

(** Replacing the node that [findComponentById] finds by a node with the
    same id and the same children keeps the ids of a forest with unique
    ids. *)
Lemma updateRecursive_same_children_ids (u : Component) (l : forest) :
  forall (l' : forest) (old : Component),
    NoDup (ids l) ->
    findComponentById l (id u) = Ok (Some old) ->
    children u = children old ->
    updateRecursive u l = Ok l' ->
    ids l' = ids l.
Proof.
  induction l as [| l IH | c l IHc IHl] using forest_ind;
    intros l' old N Hfind Hch Hup.
  - discriminate.
  - discriminate.
  - destruct (NoDup_ids_cons c l N) as (Hc1 & Hc2 & Nc & Nl & Hdis).
    rewrite findComponentById_cons, findComponentById_body_eq in Hfind.
    rewrite updateRecursive_cons, updateRecursive_cb_eq in Hup.
    destruct (String.eqb_spec (id c) (id u)) as [E|E].
    + injection Hfind as <-. simpl in Hup.
      destruct (updateRecursive u l) as [l1|] eqn:El; [|discriminate].
      simpl in Hup. injection Hup as <-.
      rewrite (updateRecursive_absent u l l1) by (try rewrite <- E; auto).
      now rewrite !ids_cons, Hch, E.
    + destruct (findComponentById (children c) (id u)) as [[x|]|] eqn:Ef;
        try discriminate.
      * injection Hfind as ->.
        pose proof (findComponentById_Some_in _ _ _ Ef) as Hin.
        rewrite (ids_nonempty_length _ _ Hin) in Hup.
        destruct (updateRecursive u (children c)) as [ch|] eqn:Ech;
          [|discriminate].
        simpl in Hup.
        destruct (updateRecursive u l) as [l1|] eqn:El; [|discriminate].
        simpl in Hup. injection Hup as <-.
        rewrite (updateRecursive_absent u l l1) by (auto; now apply Hdis).
        rewrite !ids_cons. simpl.
        now rewrite (IHc ch old Nc eq_refl Hch eq_refl).
      * pose proof (findComponentById_None_not_in _ _ Ef) as Hnin.
        assert (Hcb : forall r,
                  (if (0 <? List.length (children c))%nat
                   then ch <- updateRecursive u (children c) ;;
                        Ok (with_children c ch)
                   else Ok c) = Ok r -> r = c).
        { intros r Hr. destruct (0 <? List.length (children c))%nat.
          - destruct (updateRecursive u (children c)) as [ch|] eqn:Ech;
              [|discriminate].
            injection Hr as <-.
            rewrite (updateRecursive_absent u _ ch Hnin Ech).
            apply with_children_same.
          - now injection Hr as <-. }
        destruct (if (0 <? List.length (children c))%nat then _ else _)
          as [r|]; [|discriminate].
        rewrite (Hcb r eq_refl) in Hup. simpl in Hup.
        destruct (updateRecursive u l) as [l1|] eqn:El; [|discriminate].
        simpl in Hup. injection Hup as <-.
        rewrite !ids_cons.
        now rewrite (IHl l1 old Nl Hfind Hch eq_refl).
Qed.

(** ** 19. updateComponent, reorder and sessions *)

(** C1. In a well-typed forest with exactly one node whose id is
    [updatedComponent.id], [updateComponent] puts [updatedComponent], as it
    is and with its own children, at that node's position.  Every position
    that is neither that one, nor above it, nor below it holds the same
    node with the same subtree; every ancestor keeps its record and its
    other children; the root sequence keeps its length. *)
Theorem updateComponent_replaces (F : forest) (u : Component) :
  well_typed F = true ->
  count_occ string_dec (ids F) (id u) = 1%nat ->
  exists path old F',
    updateComponent u F = Ok F'
    /\ node_at F path = Some old /\ id old = id u
    /\ F' = replace_at path u F
    /\ node_at F' path = Some u
    /\ (forall q, is_prefix q path = false -> is_prefix path q = false ->
          node_at F' q = node_at F q)
    /\ (forall q suffix c, path = q ++ suffix -> suffix <> [] ->
          node_at F q = Some c ->
          node_at F' q =
          Some (with_children c (replace_at suffix u (children c))))
    /\ List.length F' = List.length F.
Proof.
  intros WT Hcount.
  destruct (updateRecursive_replace u F WT Hcount) as (path & old & Hat & Hid & Hup).
  exists path, old, (replace_at path u F).
  split; [exact Hup|]. split; [exact Hat|]. split; [exact Hid|].
  split; [reflexivity|]. split; [exact (node_at_replace_at_same u path F old Hat)|].
  split; [|split].
  - intros q Hq Hp. exact (node_at_replace_at_other u path F old q Hat Hq Hp).
  - intros q suffix c -> Hs Hc.
    exact (node_at_replace_at_ancestor u q F old c suffix Hs Hat Hc).
  - destruct path as [|i rest]; [reflexivity|].
    rewrite replace_at_cons. rewrite node_at_cons in Hat.
    destruct (nth_error F i) as [[c|]|] eqn:E; try discriminate.
    pose proof (nth_error_lt _ _ _ E) as Hi.
    assert (Hlen : forall x, List.length (set_nth i x F) = List.length F).
    { intros x. unfold set_nth.
      rewrite length_app, length_firstn. cbn [List.length].
      rewrite length_skipn. lia. }
    destruct rest; apply Hlen.
Qed.

Lemma updateComponent_replaces_witness :
  exists F',
    updateComponent
      (with_children (newComponent "b" cone) [Some (newComponent "x" d20)])
      [Some (with_children (newComponent "a" cube)
               [Some (newComponent "b" cone); Some (newComponent "c" sphere)]);
       Some (newComponent "d" cylinder)]
    = Ok F'.
Proof.
  destruct (updateComponent_replaces
              [Some (with_children (newComponent "a" cube)
                       [Some (newComponent "b" cone);
                        Some (newComponent "c" sphere)]);
               Some (newComponent "d" cylinder)]
              (with_children (newComponent "b" cone)
                 [Some (newComponent "x" d20)])
              eq_refl eq_refl) as (path & old & F' & H & _).
  exists F'. exact H.
Defined.

Lemma sibling_ids_Permutation (l l' : forest) :
  Permutation l l' -> Permutation (sibling_ids l) (sibling_ids l').
Proof. intros P. unfold sibling_ids. now apply Permutation_flat_map. Qed.

(** C2 (as amended). With both indices in range of the selected sibling
    sequence -- the root sequence when [parentId] is [null] or the empty
    string, else the children of the node with that id in a well-typed
    forest with unique ids -- [reorder] moves the entry at [fromIndex] to
    [toIndex]: it is taken out and put back, the entries in between
    shift by one, and the sibling ids are permuted.  In particular
    [reorder(null, 1, 0)] on the roots [cube, sphere] gives
    [sphere, cube]. *)
Theorem reorder_moves :
  (forall (F : forest) (parentId : option string) (from to : nat),
      not_parentId parentId = true ->
      (from < List.length F)%nat -> (to < List.length F)%nat ->
      reorder parentId (Z.of_nat from) (Z.of_nat to) F = Ok (list_move from to F)
      /\ Permutation (sibling_ids (list_move from to F)) (sibling_ids F)
      /\ forall i, nth_error (list_move from to F) i
                   = nth_error F (move_source from to i))
  /\ (forall (F : forest) (p : string) (path : list nat) (parent : Component)
             (from to : nat),
      p <> "" -> well_typed F = true -> NoDup (ids F) ->
      node_at F path = Some parent -> id parent = p ->
      (from < List.length (children parent))%nat ->
      (to < List.length (children parent))%nat ->
      let moved := list_move from to (children parent) in
      reorder (Some p) (Z.of_nat from) (Z.of_nat to) F
        = Ok (replace_at path (with_children parent moved) F)
      /\ Permutation (sibling_ids moved) (sibling_ids (children parent))
      /\ forall i, nth_error moved i
                   = nth_error (children parent) (move_source from to i))
  /\ (forall cubeId sphereId : string,
      reorder None 1 0 (addPrimitive sphereId sphere (addPrimitive cubeId cube []))
      = Ok [Some (newComponent sphereId sphere); Some (newComponent cubeId cube)]).
Proof.
  split; [|split].
  - intros F parentId from to Hnp Hf Ht. split; [|split].
    + unfold reorder. rewrite Hnp. f_equal. now apply reorderList_in_range.
    + apply sibling_ids_Permutation, Permutation_list_move.
    + intros i. now apply list_move_nth_error.
  - intros F p path parent from to Hp WT N Hat Hid Hf Ht moved.
    split; [|split].
    + rewrite (reorder_at_parent p _ _ F Hp path parent WT N Hat Hid).
      now rewrite reorderList_in_range.
    + apply sibling_ids_Permutation, Permutation_list_move.
    + intros i. now apply list_move_nth_error.
  - reflexivity.
Qed.

Lemma reorder_moves_witness :
  reorder (Some "a") 0 2
    [Some (with_children (newComponent "a" cube)
             [Some (newComponent "b" cone); Some (newComponent "c" sphere);
              Some (newComponent "d" d20)])]
  = Ok [Some (with_children (newComponent "a" cube)
                [Some (newComponent "c" sphere); Some (newComponent "d" d20);
                 Some (newComponent "b" cone)])]
  /\ reorder (Some "") 2 0
       [Some (newComponent "b" cone); Some (newComponent "c" sphere);
        Some (newComponent "d" d20)]
     = Ok [Some (newComponent "d" d20); Some (newComponent "b" cone);
           Some (newComponent "c" sphere)].
Proof.
  split.
  - refine (proj1 (proj1 (proj2 reorder_moves)
       [Some (with_children (newComponent "a" cube)
                [Some (newComponent "b" cone); Some (newComponent "c" sphere);
                 Some (newComponent "d" d20)])]
       "a" [0%nat]
       (with_children (newComponent "a" cube)
                [Some (newComponent "b" cone); Some (newComponent "c" sphere);
                 Some (newComponent "d" d20)])
       0%nat 2%nat _ eq_refl _ eq_refl eq_refl _ _)).
    + discriminate.
    + repeat constructor; simpl; intuition discriminate.
    + simpl; lia.
    + simpl; lia.
  - refine (proj1 (proj1 reorder_moves
       [Some (newComponent "b" cone); Some (newComponent "c" sphere);
        Some (newComponent "d" d20)] (Some "") 2%nat 0%nat eq_refl _ _));
      simpl; lia.
Defined.

(** C2 as stated fails where a node has the empty string as its id and
    [parentId] is that id: [!parentId] holds, so the root sequence is
    reordered and the children of the node stay in place. *)
Lemma reorder_moves_counterexample :
  let parent := with_children (newComponent "" cube)
                  [Some (newComponent "x" cone); Some (newComponent "y" sphere)] in
  let F := [Some parent] in
  well_typed F = true /\ NoDup (ids F) /\
  node_at F [0%nat] = Some parent /\ id parent = "" /\
  reorder (Some "") 0 1 F = Ok F /\
  reorder (Some "") 0 1 F <>
    Ok (replace_at [0%nat]
          (with_children parent (list_move 0 1 (children parent))) F).
Proof.
  cbv zeta. split; [reflexivity|]. split.
  { repeat constructor; simpl; intuition discriminate. }
  split; [reflexivity|]. split; [reflexivity|]. split; [reflexivity|].
  vm_compute. discriminate.
Qed.

(** C3 (as amended). For an id that occurs nowhere in a well-typed
    forest, [updateComponent] with a node of that id returns the forest
    unchanged, and so does [reorder] with that id as [parentId], whatever
    the indices, when the id is not the empty string; neither throws. *)
Theorem absent_id_no_op (F : forest) (i : string) :
  well_typed F = true -> ~ In i (ids F) ->
  (forall u, id u = i -> updateComponent u F = Ok F)
  /\ (i <> "" ->
      forall fromIndex toIndex, reorder (Some i) fromIndex toIndex F = Ok F).
Proof.
  intros WT Hn. split.
  - intros u <-. now apply updateRecursive_absent_wt.
  - intros Hi fromIndex toIndex. now apply reorder_absent_wt.
Qed.

Lemma absent_id_no_op_witness :
  updateComponent (newComponent "z" d20)
    [Some (newComponent "a" cube); Some (newComponent "b" cone)]
  = Ok [Some (newComponent "a" cube); Some (newComponent "b" cone)]
  /\ reorder (Some "z") 0 1
       [Some (newComponent "a" cube); Some (newComponent "b" cone)]
     = Ok [Some (newComponent "a" cube); Some (newComponent "b" cone)].
Proof.
  assert (Hn : ~ In "z" (ids [Some (newComponent "a" cube);
                              Some (newComponent "b" cone)])).
  { simpl. intuition discriminate. }
  destruct (absent_id_no_op
              [Some (newComponent "a" cube); Some (newComponent "b" cone)]
              "z" eq_refl Hn) as [Hu Hr].
  split.
  - apply Hu. reflexivity.
  - apply Hr. discriminate.
Defined.

(** C3 as stated fails for the empty string: it occurs nowhere in this
    forest, yet [reorder] with it as [parentId] reorders the roots. *)
Lemma absent_id_no_op_counterexample :
  ~ (forall (F : forest) (i : string) (fromIndex toIndex : Z),
        well_typed F = true -> ~ In i (ids F) ->
        reorder (Some i) fromIndex toIndex F = Ok F).
Proof.
  intros H.
  specialize (H [Some (newComponent "a" cube); Some (newComponent "b" cone)]
                "" 0%Z 1%Z eq_refl).
  assert (Hn : ~ In "" (ids [Some (newComponent "a" cube);
                             Some (newComponent "b" cone)])).
  { simpl. intuition discriminate. }
  specialize (H Hn). vm_compute in H. discriminate H.
Qed.



Lemma ids_app (l1 l2 : forest) : ids (l1 ++ l2) = ids l1 ++ ids l2.
Proof. unfold ids, preorder. now rewrite flat_map_app, map_app. Qed.

Lemma children_with_children (c : Component) (ch : forest) :
  children (with_children c ch) = ch.
Proof. reflexivity. Qed.

Lemma find_unique {A} (f : A -> string) (l : list A) (x : A) :
  NoDup (map f l) -> In x l ->
  find (fun y => String.eqb (f y) (f x)) l = Some x.
Proof.
  induction l as [|a l IH]; simpl; intros N H; [tauto|].
  apply NoDup_cons_iff in N as [Ha N].
  destruct H as [->|H]; [now rewrite String.eqb_refl|].
  destruct (String.eqb_spec (f a) (f x)) as [E|E]; [|now apply IH].
  exfalso. apply Ha. rewrite E. now apply in_map.
Qed.

Lemma NoDup_app_split {A} (l1 l2 : list A) :
  NoDup (l1 ++ l2) <->
  NoDup l1 /\ NoDup l2 /\ forall a, In a l1 -> ~ In a l2.
Proof.
  split.
  - intros N. split; [exact (NoDup_app_remove_r _ _ N)|].
    split; [exact (NoDup_app_remove_l _ _ N)|].
    intros a. exact (NoDup_app_disjoint _ _ a N).
  - intros (N1 & N2 & D). now apply NoDup_app.
Qed.

(** Exchanging the segment [X] of a duplicate-free list for [Y]. *)
Lemma NoDup_replace_segment {A} (pre post X Y : list A) (x : A) :
  NoDup (pre ++ x :: X ++ post) ->
  NoDup (pre ++ x :: Y ++ post) <->
  NoDup Y /\ forall j, In j Y ->
              j <> x /\ (In j (pre ++ x :: X ++ post) -> In j X).
Proof.
  intros N.
  apply NoDup_app_split in N as (Npre & N & Dpre).
  apply NoDup_cons_iff in N as [Hx N].
  apply NoDup_app_split in N as (NX & Npost & DX).
  split.
  - intros N'.
    apply NoDup_app_split in N' as (_ & N' & Dpre').
    apply NoDup_cons_iff in N' as [Hx' N'].
    apply NoDup_app_split in N' as (NY & _ & DY).
    split; [exact NY|]. intros j Hj. split.
    + intros ->. apply Hx', in_or_app. now left.
    + intros Hin. apply in_app_or in Hin as [Hin|Hin].
      * exfalso. apply (Dpre' j Hin). right. apply in_or_app. now left.
      * destruct Hin as [<-|Hin].
        -- exfalso. apply Hx', in_or_app. now left.
        -- apply in_app_or in Hin as [Hin|Hin]; [exact Hin|].
           exfalso. exact (DY j Hj Hin).
  - intros [NY HY].
    apply NoDup_app_split. split; [exact Npre|]. split.
    + apply NoDup_cons_iff. split.
      * intros Hin. apply in_app_or in Hin as [Hin|Hin].
        -- now apply (proj1 (HY x Hin)).
        -- apply Hx, in_or_app. now right.
      * apply NoDup_app_split. split; [exact NY|]. split; [exact Npost|].
        intros j Hj Hin.
        assert (HjX : In j X).
        { apply (proj2 (HY j Hj)). apply in_or_app. right. right.
          apply in_or_app. now right. }
        exact (DX j HjX Hin).
    + intros j Hj [E|Hin].
      * exact (Dpre j Hj (or_introl E)).
      * apply in_app_or in Hin as [Hin|Hin].
        -- assert (HjX : In j X).
           { apply (proj2 (HY j Hin)). apply in_or_app. now left. }
           apply (Dpre j Hj). right. apply in_or_app. now left.
        -- apply (Dpre j Hj). right. apply in_or_app. now right.
Qed.

(** When [updateRecursive] returns for an id that is not in the forest,
    it has visited every entry, and so does the lookup. *)
Lemma updateRecursive_Ok_find_None (u : Component) (l : forest) :
  forall l', ~ In (id u) (ids l) -> updateRecursive u l = Ok l' ->
             findComponentById l (id u) = Ok None.
Proof.
  induction l as [| l IH | c l IHc IHl] using forest_ind; intros l' Hn Hup.
  - reflexivity.
  - discriminate.
  - rewrite ids_cons in Hn. simpl in Hn. rewrite in_app_iff in Hn.
    rewrite updateRecursive_cons, updateRecursive_cb_eq in Hup.
    rewrite findComponentById_cons, findComponentById_body_eq.
    destruct (String.eqb_spec (id c) (id u)) as [E|E]; [tauto|].
    assert (Hch : findComponentById (children c) (id u) = Ok None).
    { destruct (0 <? List.length (children c))%nat eqn:Hlen.
      - destruct (updateRecursive u (children c)) as [ch|] eqn:Ech;
          [|discriminate].
        apply (IHc ch); [tauto | reflexivity].
      - destruct (children c); [reflexivity | discriminate]. }
    rewrite Hch.
    destruct (if (0 <? List.length (children c))%nat then _ else _)
      as [r|]; [|discriminate].
    simpl in Hup.
    destruct (updateRecursive u l) as [l1|] eqn:El; [|discriminate].
    apply (IHl l1); [tauto | reflexivity].
Qed.

(** When [updateRecursive] returns for an id of the forest, the lookup
    of that id returns a node. *)
Lemma updateRecursive_Ok_find (u : Component) (l : forest) :
  forall l', In (id u) (ids l) -> updateRecursive u l = Ok l' ->
             exists old, findComponentById l (id u) = Ok (Some old).
Proof.
  induction l as [| l IH | c l IHc IHl] using forest_ind; intros l' Hin Hup.
  - contradiction.
  - discriminate.
  - rewrite updateRecursive_cons, updateRecursive_cb_eq in Hup.
    rewrite findComponentById_cons, findComponentById_body_eq.
    destruct (String.eqb_spec (id c) (id u)) as [E|E]; [now exists c|].
    rewrite ids_cons in Hin. destruct Hin as [Hin|Hin]; [contradiction|].
    destruct (in_dec string_dec (id u) (ids (children c))) as [Hc|Hc].
    + rewrite (ids_nonempty_length _ _ Hc) in Hup.
      destruct (updateRecursive u (children c)) as [ch|] eqn:Ech;
        [|discriminate].
      destruct (IHc ch Hc eq_refl) as [old Hold].
      exists old. now rewrite Hold.
    + apply in_app_or in Hin as [Hin|Hin]; [contradiction|].
      assert (Hch : findComponentById (children c) (id u) = Ok None).
      { destruct (0 <? List.length (children c))%nat eqn:Hlen.
        - destruct (updateRecursive u (children c)) as [ch|] eqn:Ech;
            [|discriminate].
          exact (updateRecursive_Ok_find_None u _ ch Hc Ech).
        - destruct (children c); [reflexivity | discriminate]. }
      rewrite Hch.
      destruct (if (0 <? List.length (children c))%nat then _ else _)
        as [r|]; [|discriminate].
      simpl in Hup.
      destruct (updateRecursive u l) as [l1|] eqn:El; [|discriminate].
      exact (IHl l1 Hin eq_refl).
Qed.

(** What the lookup returns is a node of the forest with the id. *)
Lemma findComponentById_Some_preorder (i : string) (l : forest)
    (c : Component) :
  findComponentById l i = Ok (Some c) -> In c (preorder l) /\ id c = i.
Proof.
  induction l as [| l IH | c0 l IHc IHl] using forest_ind; intros H.
  - discriminate.
  - discriminate.
  - rewrite findComponentById_cons, findComponentById_body_eq in H.
    rewrite preorder_cons. simpl. rewrite in_app_iff.
    destruct (String.eqb_spec (id c0) i) as [E|E].
    + injection H as <-. auto.
    + destruct (findComponentById (children c0) i) as [[x|]|] eqn:Ef;
        try discriminate.
      * injection H as ->. destruct (IHc eq_refl). auto.
      * destruct (IHl H). auto.
Qed.

(** The ids before and after an update, around the replaced node. *)
Lemma updateRecursive_ids (u : Component) (l : forest) :
  forall (l' : forest) (old : Component),
    NoDup (ids l) ->
    findComponentById l (id u) = Ok (Some old) ->
    updateRecursive u l = Ok l' ->
    exists pre post,
      ids l = pre ++ id u :: ids (children old) ++ post
      /\ ids l' = pre ++ id u :: ids (children u) ++ post.
Proof.
  induction l as [| l IH | c l IHc IHl] using forest_ind;
    intros l' old N Hfind Hup.
  - discriminate.
  - discriminate.
  - destruct (NoDup_ids_cons c l N) as (Hc1 & Hc2 & Nc & Nl & Hdis).
    rewrite findComponentById_cons, findComponentById_body_eq in Hfind.
    rewrite updateRecursive_cons, updateRecursive_cb_eq in Hup.
    destruct (String.eqb_spec (id c) (id u)) as [E|E].
    + injection Hfind as <-. simpl in Hup.
      destruct (updateRecursive u l) as [l1|] eqn:El; [|discriminate].
      simpl in Hup. injection Hup as <-.
      rewrite (updateRecursive_absent u l l1) by (try rewrite <- E; auto).
      exists [], (ids l). now rewrite !ids_cons, E.
    + destruct (findComponentById (children c) (id u)) as [[x|]|] eqn:Ef;
        try discriminate.
      * injection Hfind as ->.
        pose proof (findComponentById_Some_in _ _ _ Ef) as Hin.
        rewrite (ids_nonempty_length _ _ Hin) in Hup.
        destruct (updateRecursive u (children c)) as [ch|] eqn:Ech;
          [|discriminate].
        simpl in Hup.
        destruct (updateRecursive u l) as [l1|] eqn:El; [|discriminate].
        simpl in Hup. injection Hup as <-.
        rewrite (updateRecursive_absent u l l1) by (auto; now apply Hdis).
        destruct (IHc ch old Nc eq_refl eq_refl) as (pre & post & H1 & H2).
        exists (id c :: pre), (post ++ ids l).
        rewrite !ids_cons, children_with_children, H1, H2. simpl.
        rewrite <- !app_assoc. simpl. now rewrite <- !app_assoc.
      * pose proof (findComponentById_None_not_in _ _ Ef) as Hnin.
        assert (Hcb : forall r,
                  (if (0 <? List.length (children c))%nat
                   then ch <- updateRecursive u (children c) ;;
                        Ok (with_children c ch)
                   else Ok c) = Ok r -> r = c).
        { intros r Hr. destruct (0 <? List.length (children c))%nat.
          - destruct (updateRecursive u (children c)) as [ch|] eqn:Ech;
              [|discriminate].
            injection Hr as <-.
            rewrite (updateRecursive_absent u _ ch Hnin Ech).
            apply with_children_same.
          - now injection Hr as <-. }
        destruct (if (0 <? List.length (children c))%nat then _ else _)
          as [r|]; [|discriminate].
        rewrite (Hcb r eq_refl) in Hup. simpl in Hup.
        destruct (updateRecursive u l) as [l1|] eqn:El; [|discriminate].
        simpl in Hup. injection Hup as <-.
        destruct (IHl l1 old Nl Hfind eq_refl) as (pre & post & H1 & H2).
        exists (id c :: ids (children c) ++ pre), post.
        rewrite !ids_cons, H1, H2. simpl. now rewrite <- !app_assoc.
Qed.

(** With distinct ids, an update that returns keeps them distinct
    exactly when the updated node brings no used id. *)
Lemma updateComponent_NoDup (F : forest) (u : Component) (F' : forest) :
  NoDup (ids F) -> In (id u) (ids F) -> updateComponent u F = Ok F' ->
  NoDup (ids F') <->
  forall old, In old (preorder F) -> id old = id u ->
              brings_no_used_id F old u.
Proof.
  intros N Hin Hup. unfold updateComponent in Hup.
  destruct (updateRecursive_Ok_find u F F' Hin Hup) as [old0 Hfind].
  destruct (findComponentById_Some_preorder _ _ _ Hfind) as [Hin0 Hid0].
  destruct (updateRecursive_ids u F F' old0 N Hfind Hup)
    as (pre & post & H1 & H2).
  assert (Hiff : NoDup (ids F') <-> brings_no_used_id F old0 u).
  { unfold brings_no_used_id. rewrite H2, H1.
    apply NoDup_replace_segment. now rewrite <- H1. }
  rewrite Hiff. split.
  - intros Hb old Hold Hid.
    assert (Some old = Some old0) as E.
    { rewrite <- (find_unique id (preorder F) old N Hold).
      rewrite <- (find_unique id (preorder F) old0 N Hin0).
      now rewrite Hid, Hid0. }
    now injection E as ->.
  - intros H. exact (H old0 Hin0 Hid0).
Qed.

(** C6 (as amended). Starting from the empty forest, every sequence of
    [addPrimitive] with a generated id that is not yet in the forest,
    [updateComponent] with a node whose id is in the forest and whose
    children bring no used id -- the ids below it are distinct from each
    other and from its own, and none is in the forest outside the
    descendants of the node that carries its id -- and [reorder] keeps
    the ids of the forest pairwise distinct.  The two conditions are
    what the code leaves to the caller and no more: on a forest with
    distinct ids, [addPrimitive] keeps them distinct exactly when the
    token is new, and an [updateComponent] that returns keeps them
    distinct exactly when the updated node brings no used id. *)
Theorem reachable_unique_ids :
  (forall F, reachable F -> NoDup (ids F))
  /\ (forall F newId t,
        NoDup (ids F) ->
        (NoDup (ids (addPrimitive newId t F)) <-> ~ In newId (ids F)))
  /\ (forall F u F',
        NoDup (ids F) -> In (id u) (ids F) -> updateComponent u F = Ok F' ->
        (NoDup (ids F') <->
         forall old, In old (preorder F) -> id old = id u ->
                     brings_no_used_id F old u)).
Proof.
  assert (Hadd : forall F newId t,
             NoDup (ids F) ->
             (NoDup (ids (addPrimitive newId t F)) <-> ~ In newId (ids F))).
  { intros F newId t N. unfold addPrimitive. rewrite ids_app.
    change (ids [Some (newComponent newId t)]) with [newId].
    rewrite NoDup_app_split. split.
    - intros (_ & _ & D) Hin. apply (D newId Hin). now left.
    - intros Hfresh. split; [exact N|].
      split; [repeat constructor; simpl; tauto|].
      intros a Ha [<-|[]]. exact (Hfresh Ha). }
  split; [|split; [exact Hadd | exact updateComponent_NoDup]].
  induction 1 as [| F newId t _ IH Hfresh
                  | F u F' _ IH Hin Hguard Hup
                  | F parentId fromIndex toIndex F' _ IH Hre].
  - constructor.
  - exact (proj2 (Hadd F newId t IH) Hfresh).
  - exact (proj2 (updateComponent_NoDup F u F' IH Hin Hup) Hguard).
  - apply (Permutation_NoDup
             (Permutation_sym (reorder_ids_Permutation _ _ _ F F' Hre))).
    exact IH.
Qed.

Lemma reachable_unique_ids_witness :
  NoDup (ids [Some (newComponent "b" sphere);
              Some (with_children (newComponent "a" cube)
                      [Some (newComponent "x" cone)])]).
Proof.
  apply (proj1 reachable_unique_ids).
  apply (reach_reorder
           [Some (with_children (newComponent "a" cube)
                    [Some (newComponent "x" cone)]);
            Some (newComponent "b" sphere)] None 1 0); [|reflexivity].
  apply (reach_updateComponent
           (addPrimitive "b" sphere (addPrimitive "a" cube []))
           (with_children (newComponent "a" cube)
              [Some (newComponent "x" cone)])); [| | |reflexivity].
  - apply reach_addPrimitive.
    + apply reach_addPrimitive; [apply reach_empty | simpl; tauto].
    + simpl. intros [H|[]]. discriminate H.
  - simpl. now left.
  - intros old Hold Hid. split.
    + repeat constructor. simpl. tauto.
    + intros j [<-|[]]. split; [discriminate|].
      simpl. intros [H|[H|[]]]; discriminate H.
Defined.

(** C6 as stated fails in two ways: the random token of
    [addPrimitive] may repeat, and [updateComponent] takes the children of
    the updated node as they come. *)
Lemma reachable_any_counterexample :
  (exists F, reachable_any F /\ ~ NoDup (ids F)
             /\ F = addPrimitive "a" sphere (addPrimitive "a" cube []))
  /\ (exists F, reachable_any F /\ ~ NoDup (ids F)
                /\ updateComponent
                     (with_children (newComponent "a" cube)
                        [Some (newComponent "b" cone)])
                     (addPrimitive "b" sphere (addPrimitive "a" cube []))
                   = Ok F).
Proof.
  split.
  - exists (addPrimitive "a" sphere (addPrimitive "a" cube [])).
    split; [do 2 apply any_addPrimitive; apply any_empty|].
    split; [|reflexivity].
    simpl. intros N. apply NoDup_cons_iff in N as [N _]. apply N. now left.
  - eexists. split; [|split; [|reflexivity]].
    + apply (any_updateComponent
               (addPrimitive "b" sphere (addPrimitive "a" cube []))
               (with_children (newComponent "a" cube)
                  [Some (newComponent "b" cone)])).
      * do 2 apply any_addPrimitive. apply any_empty.
      * simpl. now left.
      * reflexivity.
    + simpl. intros N. apply NoDup_cons_iff in N as [_ N].
      apply NoDup_cons_iff in N as [N _]. apply N. now left.
Qed.

(** ** 20. buildScene *)

Lemma buildScene_cons (c : Component) (l : forest) (parent : list Object3D) :
  buildScene (Some c :: l) parent =
  (parent' <- buildScene_cb c parent ;; buildScene l parent').
Proof. reflexivity. Qed.

Lemma buildScene_app (l1 l2 : forest) (parent : list Object3D) :
  buildScene (l1 ++ l2) parent =
  (parent' <- buildScene l1 parent ;; buildScene l2 parent').
Proof.
  revert parent. induction l1 as [|[c|] l1 IH]; intros parent;
    [reflexivity | | reflexivity].
  simpl app. rewrite !buildScene_cons.
  destruct (buildScene_cb c parent); simpl; [apply IH | reflexivity].
Qed.

(** The mesh of the [switch] with the three [set] calls applied. *)
Lemma mesh_of_type_set (comp : Component) :
  match mesh_of_type (type comp) {| color := "white" |} with
  | Some mesh =>
      [scale_set (scale comp)
         (rotation_set (rotation comp) (position_set (position comp) mesh))]
  | None => []
  end = own_mesh comp.
Proof.
  unfold own_mesh.
  destruct (type comp) as [[]|], (position comp) as [[? ?] ?],
    (rotation comp) as [[? ?] ?], (scale comp) as [[? ?] ?]; reflexivity.
Qed.

(** What one node adds to its parent. *)
Lemma buildScene_cb_adds (comp : Component) (parent : list Object3D) :
  buildScene_cb comp parent =
  if (0 <? List.length (children comp))%nat then
    inner <- buildScene (children comp) [] ;;
    Ok (parent ++ own_mesh comp ++ [Group inner])
  else Ok (parent ++ own_mesh comp).
Proof.
  rewrite buildScene_cb_eq. cbv zeta. rewrite <- mesh_of_type_set.
  destruct (mesh_of_type (type comp) {| color := "white" |}).
  - destruct (0 <? List.length (children comp))%nat; [|reflexivity].
    destruct (buildScene (children comp) []); simpl; [|reflexivity].
    now rewrite <- app_assoc.
  - simpl. rewrite app_nil_r. reflexivity.
Qed.

(** [buildScene] only appends to the objects of its parent. *)
Lemma buildScene_appends (l : forest) :
  forall parent,
    buildScene l parent = (objs <- buildScene l [] ;; Ok (parent ++ objs)).
Proof.
  induction l as [|[c|] l IH]; intros parent.
  - simpl. now rewrite app_nil_r.
  - rewrite !buildScene_cons, !buildScene_cb_adds.
    destruct (0 <? List.length (children c))%nat.
    + destruct (buildScene (children c) []) as [inner|]; simpl; [|reflexivity].
      rewrite IH, (IH (own_mesh c ++ [Group inner])).
      destruct (buildScene l []); simpl; [|reflexivity].
      now rewrite <- app_assoc.
    + simpl. rewrite IH, (IH (own_mesh c)).
      destruct (buildScene l []); simpl; [|reflexivity].
      now rewrite <- app_assoc.
  - reflexivity.
Qed.

(** On a well-typed forest [buildScene] does not throw. *)
Lemma buildScene_total (l : forest) :
  well_typed l = true -> exists objs, buildScene l [] = Ok objs.
Proof.
  induction l as [| l IH | c l IHc IHl] using forest_ind; intros WT.
  - now exists [].
  - discriminate.
  - rewrite well_typed_cons in WT. apply andb_true_iff in WT as [WTc WTl].
    destruct (IHc WTc) as [inner Hinner], (IHl WTl) as [objs Hobjs].
    rewrite buildScene_cons, buildScene_cb_adds, Hinner.
    destruct (0 <? List.length (children c))%nat; simpl;
      rewrite buildScene_appends, Hobjs; simpl; eauto.
Qed.

Lemma well_typed_app (l1 l2 : forest) :
  well_typed (l1 ++ l2) = well_typed l1 && well_typed l2.
Proof. unfold well_typed. apply forallb_app. Qed.

(** The objects a sibling sequence adds to its parent, around one of its
    nodes. *)
Lemma buildScene_entry (before after : forest) (comp : Component)
    (parent : list Object3D) :
  well_typed (before ++ Some comp :: after) = true ->
  exists objs_before inner objs_after,
    buildScene before [] = Ok objs_before
    /\ buildScene (children comp) [] = Ok inner
    /\ buildScene after [] = Ok objs_after
    /\ buildScene (before ++ Some comp :: after) parent =
       Ok (parent ++ objs_before ++ own_mesh comp
             ++ (if (0 <? List.length (children comp))%nat
                 then [Group inner] else [])
             ++ objs_after).
Proof.
  intros WT. rewrite well_typed_app, well_typed_cons in WT.
  apply andb_true_iff in WT as [WTb WT].
  apply andb_true_iff in WT as [WTc WTa].
  destruct (buildScene_total before WTb) as [ob Hb].
  destruct (buildScene_total (children comp) WTc) as [inner Hc].
  destruct (buildScene_total after WTa) as [oa Ha].
  exists ob, inner, oa. repeat split; try assumption.
  rewrite buildScene_app, buildScene_appends, Hb. simpl.
  rewrite buildScene_cons, buildScene_cb_adds, Hc.
  destruct (0 <? List.length (children comp))%nat; simpl;
    rewrite buildScene_appends, Ha; simpl; f_equal;
    repeat rewrite <- app_assoc; reflexivity.
Qed.

(** C7. A node with one or more children, of leaf kind or group alike,
    makes [buildScene] create a [Group], attach it under the current
    parent after the node's own mesh (if any), and build the children
    inside that group.  A leaf-kind node with children so yields its mesh
    and, next to it, the container of its descendants; a group node
    yields the container only. *)
Theorem buildScene_container (before after : forest) (comp : Component)
    (parent : list Object3D) :
  well_typed (before ++ Some comp :: after) = true ->
  children comp <> [] ->
  exists objs_before inner objs_after,
    buildScene before [] = Ok objs_before
    /\ buildScene (children comp) [] = Ok inner
    /\ buildScene after [] = Ok objs_after
    /\ buildScene_cb comp parent = Ok (parent ++ own_mesh comp ++ [Group inner])
    /\ buildScene (before ++ Some comp :: after) parent =
       Ok (parent ++ objs_before ++ own_mesh comp ++ Group inner :: objs_after)
    /\ (type comp = group -> own_mesh comp = [])
    /\ (forall t, type comp = primitive t ->
          own_mesh comp =
          [Mesh (canonical_geometry t) {| color := "white" |}
                (position comp) (rotation comp) (scale comp)]).
Proof.
  intros WT Hch.
  destruct (buildScene_entry before after comp parent WT)
    as (ob & inner & oa & Hb & Hc & Ha & H).
  assert (Hlen : (0 <? List.length (children comp))%nat = true).
  { destruct (children comp); [congruence | reflexivity]. }
  rewrite Hlen in H.
  exists ob, inner, oa. repeat split; try assumption.
  - now rewrite buildScene_cb_adds, Hlen, Hc.
  - unfold own_mesh. now intros ->.
  - unfold own_mesh. now intros t ->.
Qed.

Lemma buildScene_container_witness :
  buildScene
    [Some (with_children (newComponent "a" cube) [Some (newComponent "b" cone)])]
    []
  = Ok [Mesh (BoxGeometry 1 1 1)%float {| color := "white" |}
             (0, 0, 0)%float (0, 0, 0)%float (1, 1, 1)%float;
        Group [Mesh (ConeGeometry 1 2 32)%float {| color := "white" |}
                    (0, 0, 0)%float (0, 0, 0)%float (1, 1, 1)%float]].
Proof.
  destruct (buildScene_container []  []
              (with_children (newComponent "a" cube)
                 [Some (newComponent "b" cone)]) [] eq_refl)
    as (ob & inner & oa & Hb & Hc & Ha & _ & H & _).
  - discriminate.
  - simpl in Hb, Hc, Ha.
    injection Hb as <-. injection Hc as <-. injection Ha as <-. exact H.
Defined.

(** C8. For a node of leaf kind [buildScene] creates the canonical
    primitive of that kind -- cube: box 1 by 1 by 1; sphere: radius 1, 32
    by 32 segments; cylinder: radii 1, height 2, 32 radial segments; cone:
    radius 1, height 2, 32 radial segments; d20: icosahedron of radius 1
    and detail 0 -- sets the position, rotation and scale of the new mesh
    to the node's and attaches it under the current parent, after what the
    earlier siblings added. *)
Theorem buildScene_leaf_mesh (before after : forest) (comp : Component)
    (t : PrimitiveType) (parent : list Object3D) :
  well_typed (before ++ Some comp :: after) = true ->
  type comp = primitive t ->
  let mesh := Mesh (canonical_geometry t) {| color := "white" |}
                   (position comp) (rotation comp) (scale comp) in
  (exists objs_before container objs_after,
      buildScene before [] = Ok objs_before
      /\ buildScene after [] = Ok objs_after
      /\ buildScene_cb comp parent = Ok (parent ++ mesh :: container)
      /\ buildScene (before ++ Some comp :: after) parent =
         Ok (parent ++ objs_before ++ mesh :: container ++ objs_after))
  /\ mesh = scale_set (scale comp)
              (rotation_set (rotation comp)
                 (position_set (position comp)
                    (new_Mesh (canonical_geometry t) {| color := "white" |})))
  /\ canonical_geometry cube = (BoxGeometry 1 1 1)%float
  /\ canonical_geometry sphere = (SphereGeometry 1 32 32)%float
  /\ canonical_geometry cylinder = (CylinderGeometry 1 1 2 32)%float
  /\ canonical_geometry cone = (ConeGeometry 1 2 32)%float
  /\ canonical_geometry d20 = (IcosahedronGeometry 1 0)%float.
Proof.
  intros WT Ht mesh.
  destruct (buildScene_entry before after comp parent WT)
    as (ob & inner & oa & Hb & Hc & Ha & H).
  assert (Hown : own_mesh comp = [mesh]) by (unfold own_mesh; now rewrite Ht).
  split; [|split].
  - exists ob, (if (0 <? List.length (children comp))%nat
                then [Group inner] else []), oa.
    split; [exact Hb|]. split; [exact Ha|]. split.
    + rewrite buildScene_cb_adds, Hc, Hown.
      destruct (0 <? List.length (children comp))%nat; reflexivity.
    + rewrite H, Hown. reflexivity.
  - unfold mesh.
    destruct (position comp) as [[? ?] ?], (rotation comp) as [[? ?] ?],
      (scale comp) as [[? ?] ?]; reflexivity.
  - repeat split.
Qed.

Lemma buildScene_leaf_mesh_witness :
  buildScene [Some (newComponent "a" cube); Some (newComponent "s" sphere)] []
  = Ok [Mesh (BoxGeometry 1 1 1)%float {| color := "white" |}
             (0, 0, 0)%float (0, 0, 0)%float (1, 1, 1)%float;
        Mesh (SphereGeometry 1 32 32)%float {| color := "white" |}
             (0, 0, 0)%float (0, 0, 0)%float (1, 1, 1)%float].
Proof.
  destruct (proj1 (buildScene_leaf_mesh [Some (newComponent "a" cube)] []
                     (newComponent "s" sphere) sphere [] eq_refl eq_refl))
    as (ob & container & oa & Hb & Ha & Hcb & H).
  simpl in Hb, Ha, Hcb.
  injection Hb as <-. injection Ha as <-. injection Hcb as <-. exact H.
Defined.

(** ** 21. buildScene on the object store *)

Lemma read_app_old (h : Heap.heap) (x : list Heap.cell) (l : Heap.loc) :
  (l < List.length h)%nat -> Heap.read l (h ++ x) = Heap.read l h.
Proof. intros H. unfold Heap.read. now apply nth_error_app1. Qed.

Lemma read_app_new (h : Heap.heap) (c : Heap.cell) :
  Heap.read (List.length h) (h ++ [c]) = Some c.
Proof.
  unfold Heap.read. rewrite nth_error_app2 by lia.
  now rewrite Nat.sub_diag.
Qed.

Lemma read_lt (h : Heap.heap) (l : Heap.loc) (c : Heap.cell) :
  Heap.read l h = Some c -> (l < List.length h)%nat.
Proof. apply nth_error_lt. Qed.

Lemma length_set_nth {A} (i : nat) (x : A) (l : list A) :
  (i < List.length l)%nat -> List.length (set_nth i x l) = List.length l.
Proof.
  intros H. unfold set_nth.
  rewrite length_app, length_firstn. cbn [List.length].
  rewrite length_skipn. lia.
Qed.

Lemma set_nth_last {A} (l : list A) (x y : A) :
  set_nth (List.length l) y (l ++ [x]) = l ++ [y].
Proof.
  unfold set_nth. rewrite firstn_app, Nat.sub_diag, firstn_all.
  simpl firstn. rewrite app_nil_r. f_equal. f_equal.
  apply skipn_all2. rewrite length_app. simpl. lia.
Qed.

Lemma modify_run (l : Heap.loc) (f : Heap.Object3D -> Heap.Object3D)
    (h : Heap.heap) (o : Heap.Object3D) :
  Heap.read l h = Some (Heap.ThreeObject o) ->
  Heap.modify l f h = Heap.Returns tt (set_nth l (Heap.ThreeObject (f o)) h).
Proof. intros H. unfold Heap.modify. now rewrite H. Qed.

Lemma spread_run (l : Heap.loc) (h : Heap.heap) (v : Vec3) :
  Heap.read l h = Some (Heap.NumberArray v) ->
  Heap.spread l h = Heap.Returns v h.
Proof. intros H. unfold Heap.spread. now rewrite H. Qed.

Lemma push_nil (o : Heap.Object3D) : Heap.push [] o = o.
Proof. destruct o. unfold Heap.push. simpl. now rewrite app_nil_r. Qed.

Lemma push_push (o : Heap.Object3D) (new1 new2 : list Heap.loc) :
  Heap.push new2 (Heap.push new1 o) = Heap.push (new1 ++ new2) o.
Proof. unfold Heap.push. simpl. now rewrite app_assoc. Qed.

Lemma only_adds_to_refl (p : Heap.loc) (h : Heap.heap) (o : Heap.Object3D) :
  Heap.read p h = Some (Heap.ThreeObject o) -> only_adds_to p h h.
Proof.
  intros H. split; [lia|]. split; [reflexivity|]. split.
  - exists o, []. rewrite push_nil. auto.
  - intros l c Hl Hc. apply read_lt in Hc. lia.
Qed.

(** Allocating an object without children and adding it to [p]. *)
Lemma only_adds_to_new (p : Heap.loc) (h : Heap.heap)
    (o new : Heap.Object3D) :
  Heap.read p h = Some (Heap.ThreeObject o) ->
  Heap.obj_children new = [] ->
  only_adds_to p h
    (set_nth p (Heap.ThreeObject (Heap.push [List.length h] o))
       (h ++ [Heap.ThreeObject new])).
Proof.
  intros Hp Hnew. pose proof (read_lt _ _ _ Hp) as Hlt.
  assert (Hlt' : (p < List.length (h ++ [Heap.ThreeObject new]))%nat)
    by (rewrite length_app; simpl; lia).
  split; [|split; [|split]].
  - rewrite length_set_nth, length_app by exact Hlt'. lia.
  - intros l Hl Hne. unfold Heap.read.
    rewrite nth_error_set_nth_neq by assumption.
    now apply read_app_old.
  - exists o, [List.length h]. split; [exact Hp|]. split.
    + unfold Heap.read. now rewrite nth_error_set_nth_eq.
    + now constructor.
  - intros l c Hl Hc. unfold Heap.read in Hc.
    rewrite nth_error_set_nth_neq in Hc by (try assumption; lia).
    destruct (Nat.eq_dec l (List.length h)) as [->|Hne].
    + fold (Heap.read (List.length h) (h ++ [Heap.ThreeObject new])) in Hc.
      rewrite read_app_new in Hc. injection Hc as <-.
      exists new. rewrite Hnew. split; [reflexivity | constructor].
    + apply nth_error_lt in Hc. rewrite length_app in Hc. simpl in Hc. lia.
Qed.

(** Then adding to the same parent again. *)
Lemma only_adds_to_trans (p : Heap.loc) (h0 h1 h2 : Heap.heap) :
  only_adds_to p h0 h1 -> only_adds_to p h1 h2 -> only_adds_to p h0 h2.
Proof.
  intros (L1 & F1 & (o & new1 & P0 & P1 & N1) & C1)
         (L2 & F2 & (o1 & new2 & P1' & P2 & N2) & C2).
  pose proof (read_lt _ _ _ P0) as Hp.
  rewrite P1 in P1'. injection P1' as <-.
  split; [lia|]. split; [|split].
  - intros l Hl Hne. rewrite F2 by lia. now apply F1.
  - exists o, (new1 ++ new2). split; [exact P0|]. split.
    + now rewrite P2, push_push.
    + apply Forall_app. split; [exact N1|].
      eapply Forall_impl; [|exact N2]. simpl. intros; lia.
  - intros l c Hl Hc.
    destruct (Nat.lt_ge_cases l (List.length h1)) as [Hlt|Hge].
    + rewrite F2 in Hc by lia. exact (C1 l c Hl Hc).
    + destruct (C2 l c Hge Hc) as (oc & -> & Hoc).
      exists oc. split; [reflexivity|].
      eapply Forall_impl; [|exact Hoc]. simpl. intros; lia.
Qed.

(** Adding to an object that was itself allocated on the way. *)
Lemma only_adds_to_inside (p g : Heap.loc) (h0 h1 h2 : Heap.heap) :
  only_adds_to p h0 h1 -> (List.length h0 <= g)%nat ->
  only_adds_to g h1 h2 -> only_adds_to p h0 h2.
Proof.
  intros (L1 & F1 & (o & new1 & P0 & P1 & N1) & C1) Hg
         (L2 & F2 & (og & new2 & G1 & G2 & N2) & C2).
  pose proof (read_lt _ _ _ P0) as Hp.
  pose proof (read_lt _ _ _ G1) as Hg1.
  split; [lia|]. split; [|split].
  - intros l Hl Hne. rewrite F2 by lia. now apply F1.
  - exists o, new1. split; [exact P0|]. split; [|exact N1].
    rewrite F2 by lia. exact P1.
  - intros l c Hl Hc.
    destruct (Nat.lt_ge_cases l (List.length h1)) as [Hlt|Hge].
    + destruct (Nat.eq_dec l g) as [->|Hne].
      * rewrite G2 in Hc. injection Hc as <-.
        exists (Heap.push new2 og). split; [reflexivity|]. simpl.
        apply Forall_app. split.
        -- destruct (C1 g _ Hl G1) as (o' & E & Ho').
           injection E as <-. exact Ho'.
        -- eapply Forall_impl; [|exact N2]. simpl. intros; lia.
      * rewrite F2 in Hc by assumption. exact (C1 l c Hl Hc).
    + destruct (C2 l c Hge Hc) as (oc & -> & Hoc).
      exists oc. split; [reflexivity|].
      eapply Forall_impl; [|exact Hoc]. simpl. intros; lia.
Qed.

Lemma mesh_of_type_primitive (k : PrimitiveType)
    (material : MeshStandardMaterial) (h : Heap.heap) :
  Heap.mesh_of_type (primitive k) material h =
  Heap.Returns (Some (List.length h))
    (h ++ [Heap.ThreeObject
             {| Heap.obj_kind := Heap.MeshKind (canonical_geometry k) material;
                Heap.obj_position := (0, 0, 0)%float;
                Heap.obj_rotation := (0, 0, 0)%float;
                Heap.obj_scale := (1, 1, 1)%float;
                Heap.obj_children := [] |}]).
Proof. destruct k; reflexivity. Qed.

Lemma attach_mesh_run (t : ComponentType) (material : MeshStandardMaterial)
    (pl rl sl p : Heap.loc) (vp vr vs : Vec3) (o : Heap.Object3D)
    (h : Heap.heap) :
  Heap.read p h = Some (Heap.ThreeObject o) ->
  Heap.read pl h = Some (Heap.NumberArray vp) ->
  Heap.read rl h = Some (Heap.NumberArray vr) ->
  Heap.read sl h = Some (Heap.NumberArray vs) ->
  Heap.bindM (Heap.mesh_of_type t material)
    (fun mesh => Heap.attach_mesh mesh pl rl sl p) h
  = Heap.Returns tt (after_mesh t material vp vr vs p o h).
Proof.
  intros Hp Hpl Hrl Hsl.
  destruct t as [k|]; [|reflexivity].
  unfold Heap.bindM at 1. rewrite mesh_of_type_primitive.
  unfold Heap.attach_mesh.
  destruct vp as [[px py] pz], vr as [[rx ry] rz], vs as [[sx sy] sz].
  unfold Heap.bindM at 1.
  rewrite (spread_run pl _ (px, py, pz))
    by (rewrite read_app_old; [exact Hpl | exact (read_lt _ _ _ Hpl)]).
  unfold Heap.bindM at 1. unfold Heap.position_set.
  rewrite (modify_run _ _ _ _ (read_app_new _ _)), set_nth_last.
  unfold Heap.bindM at 1.
  rewrite (spread_run rl _ (rx, ry, rz))
    by (rewrite read_app_old; [exact Hrl | exact (read_lt _ _ _ Hrl)]).
  unfold Heap.bindM at 1. unfold Heap.rotation_set.
  rewrite (modify_run _ _ _ _ (read_app_new _ _)), set_nth_last.
  unfold Heap.bindM at 1.
  rewrite (spread_run sl _ (sx, sy, sz))
    by (rewrite read_app_old; [exact Hsl | exact (read_lt _ _ _ Hsl)]).
  unfold Heap.bindM at 1. unfold Heap.scale_set.
  rewrite (modify_run _ _ _ _ (read_app_new _ _)), set_nth_last.
  unfold Heap.add.
  rewrite (modify_run p _ _ o)
    by (rewrite read_app_old; [exact Hp | exact (read_lt _ _ _ Hp)]).
  reflexivity.
Qed.

Lemma attach_mesh_run_k (t : ComponentType) (material : MeshStandardMaterial)
    (pl rl sl p : Heap.loc) (vp vr vs : Vec3) (o : Heap.Object3D)
    (h : Heap.heap) {A} (K : unit -> Heap.M A) :
  Heap.read p h = Some (Heap.ThreeObject o) ->
  Heap.read pl h = Some (Heap.NumberArray vp) ->
  Heap.read rl h = Some (Heap.NumberArray vr) ->
  Heap.read sl h = Some (Heap.NumberArray vs) ->
  Heap.bindM (Heap.mesh_of_type t material)
    (fun mesh => Heap.bindM (Heap.attach_mesh mesh pl rl sl p) K) h
  = K tt (after_mesh t material vp vr vs p o h).
Proof.
  intros Hp Hpl Hrl Hsl.
  transitivity
    (Heap.bindM
       (Heap.bindM (Heap.mesh_of_type t material)
          (fun mesh => Heap.attach_mesh mesh pl rl sl p)) K h).
  - unfold Heap.bindM. now destruct (Heap.mesh_of_type t material h).
  - unfold Heap.bindM at 1.
    now rewrite (attach_mesh_run t material pl rl sl p vp vr vs o h).
Qed.

Lemma after_mesh_only_adds (t : ComponentType) (material : MeshStandardMaterial)
    (vp vr vs : Vec3) (p : Heap.loc) (o : Heap.Object3D) (h : Heap.heap) :
  Heap.read p h = Some (Heap.ThreeObject o) ->
  only_adds_to p h (after_mesh t material vp vr vs p o h).
Proof.
  intros Hp. destruct t as [k|]; simpl.
  - now apply only_adds_to_new.
  - exact (only_adds_to_refl p h o Hp).
Qed.

(** [buildScene] does not write to the cells of the forest. *)
Lemma only_adds_to_forest_cells (p : Heap.loc) (h h' : Heap.heap) :
  only_adds_to p h h' ->
  forall l c, Heap.read l h = Some c ->
    (forall o, c <> Heap.ThreeObject o) -> Heap.read l h' = Some c.
Proof.
  intros (_ & F & (o & new & P & _) & _) l c Hc Hn.
  rewrite F; [exact Hc | exact (read_lt _ _ _ Hc) |].
  intros ->. rewrite P in Hc. injection Hc as <-. exact (Hn o eq_refl).
Qed.

Lemma rep_preserved (h h' : Heap.heap) :
  (forall l c, Heap.read l h = Some c ->
     (forall o, c <> Heap.ThreeObject o) -> Heap.read l h' = Some c) ->
  forall (F : forest) entries,
    Forall2 (option_rel (rep_comp h)) F entries ->
    Forall2 (option_rel (rep_comp h')) F entries.
Proof.
  intros Hkeep F.
  induction F as [| l IH | c l IHc IHl] using forest_ind; intros entries H;
    inversion H as [| x y l0 es' Hxy Hrest]; subst.
  - constructor.
  - inversion Hxy; subst. constructor; [constructor | now apply IH].
  - inversion Hxy as [| c0 lc Hc]; subst.
    constructor; [|now apply IHl].
    constructor. inversion Hc as [c0 l0 pl rl sl cl es Hl Hp Hr Hs Ha Hch]; subst.
    apply (rep_comp_intro h' c lc pl rl sl cl es);
      try (apply Hkeep; [assumption | discriminate]).
    now apply IHc.
Qed.

Lemma height_cons (c : Component) (l : forest) :
  height (Some c :: l) = Nat.max (S (height (children c))) (height l).
Proof. destruct c; reflexivity. Qed.

Lemma only_adds_to_parent (p : Heap.loc) (h h' : Heap.heap) :
  only_adds_to p h h' -> exists o', Heap.read p h' = Some (Heap.ThreeObject o').
Proof. intros (_ & _ & (o & new & _ & P & _) & _). eauto. Qed.

(** The callback at a component that the store holds. *)
Lemma buildScene_cb_run (rec : Heap.loc -> Heap.loc -> Heap.M unit)
    (p lc : Heap.loc) (h : Heap.heap) (o : Heap.Object3D) (c : Component)
    (pl rl sl cl : Heap.loc) (entries : list (option Heap.loc)) :
  Heap.read p h = Some (Heap.ThreeObject o) ->
  Heap.read lc h =
    Some (Heap.ComponentObject (id c) (name c) (type c) pl rl sl cl) ->
  Heap.read pl h = Some (Heap.NumberArray (position c)) ->
  Heap.read rl h = Some (Heap.NumberArray (rotation c)) ->
  Heap.read sl h = Some (Heap.NumberArray (scale c)) ->
  Heap.read cl h = Some (Heap.ComponentArray entries) ->
  let h1 := after_mesh (type c) {| color := "white" |}
              (position c) (rotation c) (scale c) p o h in
  Heap.buildScene_cb rec p (Some lc) h =
  if (0 <? List.length entries)%nat then
    match Heap.read p h1 with
    | Some (Heap.ThreeObject o1) =>
        rec cl (List.length h1)
          (set_nth p (Heap.ThreeObject (Heap.push [List.length h1] o1))
             (h1 ++ [Heap.ThreeObject
                       {| Heap.obj_kind := Heap.GroupKind;
                          Heap.obj_position := (0, 0, 0)%float;
                          Heap.obj_rotation := (0, 0, 0)%float;
                          Heap.obj_scale := (1, 1, 1)%float;
                          Heap.obj_children := [] |}]))
    | _ => Heap.Throws
    end
  else Heap.Returns tt h1.
Proof.
  intros Hp Hlc Hpl Hrl Hsl Hcl h1.
  unfold Heap.buildScene_cb. rewrite Hlc. cbv zeta.
  rewrite (attach_mesh_run_k (type c) _ pl rl sl p
             (position c) (rotation c) (scale c) o h) by assumption.
  fold h1.
  pose proof (after_mesh_only_adds (type c) {| color := "white" |}
                (position c) (rotation c) (scale c) p o h Hp) as Hadds.
  fold h1 in Hadds.
  assert (Hcl1 : Heap.read cl h1 = Some (Heap.ComponentArray entries))
    by (apply (only_adds_to_forest_cells p h h1 Hadds);
        [assumption | discriminate]).
  unfold Heap.bindM at 1. unfold Heap.length_of. rewrite Hcl1.
  destruct (0 <? List.length entries)%nat; [|reflexivity].
  destruct (only_adds_to_parent p h h1 Hadds) as [o1 Ho1]. rewrite Ho1.
  unfold Heap.bindM at 1. unfold Heap.new_Object3D, Heap.alloc.
  unfold Heap.bindM at 1. unfold Heap.add.
  rewrite (modify_run p _ _ o1)
    by (rewrite read_app_old; [exact Ho1 | exact (read_lt _ _ _ Ho1)]).
  reflexivity.
Qed.

Lemma read_new_group (p : Heap.loc) (h : Heap.heap) (c x : Heap.cell) :
  (p < List.length h)%nat ->
  Heap.read (List.length h) (set_nth p x (h ++ [c])) = Some c.
Proof.
  intros Hp. unfold Heap.read.
  rewrite nth_error_set_nth_neq by (try rewrite length_app; simpl; lia).
  apply read_app_new.
Qed.


(** What reads back from new objects still does after a step that keeps
    the new cells. *)
Lemma reads_preserved (n : nat) (h h' : Heap.heap) :
  (forall l c, (n <= l)%nat -> Heap.read l h = Some c ->
     Heap.read l h' = Some c /\
     exists o, c = Heap.ThreeObject o
               /\ Forall (fun x => (n <= x)%nat) (Heap.obj_children o)) ->
  forall (objs : list Object3D) (locs : list Heap.loc),
    Forall (fun x => (n <= x)%nat) locs ->
    Forall2 (reads h) locs objs -> Forall2 (reads h') locs objs.
Proof.
  intros Hstep objs.
  induction objs as [| g m p r s l IH | ch l IHch IHl] using objects_ind;
    intros locs Hge H; inversion H as [| x y xs ys Hxy Hrest]; subst.
  - constructor.
  - inversion Hge; subst. constructor; [|now apply IH].
    inversion Hxy; subst. apply reads_Mesh.
    now apply Hstep.
  - inversion Hge as [| ? ? Hx Hxs]; subst. constructor; [|now apply IHl].
    inversion Hxy as [| l0 lch objs0 Hread Hch]; subst.
    destruct (Hstep x _ Hx Hread) as (Hread' & o & E & Hclosed).
    injection E as <-. simpl in Hclosed.
    apply (reads_Group h' x lch ch Hread').
    now apply IHch.
Qed.

Lemma reads_own_mesh_preserved (h h' : Heap.heap) (c : Component)
    (locs : list Heap.loc) :
  (forall l cell, In l locs -> Heap.read l h = Some cell ->
     Heap.read l h' = Some cell) ->
  Forall2 (reads h) locs (own_mesh c) -> Forall2 (reads h') locs (own_mesh c).
Proof.
  intros Hkeep. unfold own_mesh. destruct (type c) as [k|]; intros H;
    inversion H as [| x y xs ys Hxy Hrest]; subst; [|constructor].
  inversion Hrest; subst. constructor; [|constructor].
  inversion Hxy; subst. apply reads_Mesh. apply Hkeep; [now left | assumption].
Qed.

(** The parent and the new mesh after the [if (mesh)] block. *)
Lemma after_mesh_reads (c : Component) (p : Heap.loc) (o : Heap.Object3D)
    (h : Heap.heap) :
  Heap.read p h = Some (Heap.ThreeObject o) ->
  let h1 := after_mesh (type c) {| color := "white" |}
              (position c) (rotation c) (scale c) p o h in
  Heap.read p h1 = Some (Heap.ThreeObject (Heap.push (mesh_loc (type c) h) o))
  /\ Forall2 (reads h1) (mesh_loc (type c) h) (own_mesh c).
Proof.
  intros Hp. pose proof (read_lt _ _ _ Hp) as Hlt.
  unfold own_mesh, mesh_loc, after_mesh. destruct (type c) as [k|]; simpl.
  - split.
    + unfold Heap.read. apply nth_error_set_nth_eq.
      rewrite length_app. simpl. lia.
    + constructor; [|constructor]. apply reads_Mesh.
      now apply read_new_group.
  - rewrite push_nil. split; [exact Hp | constructor].
Qed.

Lemma only_adds_to_new_locs (p : Heap.loc) (h h' : Heap.heap)
    (o : Heap.Object3D) (new : list Heap.loc) :
  only_adds_to p h h' ->
  Heap.read p h = Some (Heap.ThreeObject o) ->
  Heap.read p h' = Some (Heap.ThreeObject (Heap.push new o)) ->
  Forall (fun x => (List.length h <= x)%nat) new.
Proof.
  intros (_ & _ & (o0 & new0 & P0 & P1 & N) & _) Hp Hp'.
  rewrite Hp in P0. injection P0 as <-.
  rewrite Hp' in P1. injection P1 as E.
  apply app_inv_head in E. now subst.
Qed.

(** The loop of the store-level [buildScene] over the entries of a
    well-typed forest that the store holds returns when its fuel covers
    the depth; it only adds to [p], and what it adds reads back as the
    objects of the value-level [buildScene]. *)
Lemma forEach_builds (F : forest) :
  forall (fuel : nat) (entries : list (option Heap.loc)) (p : Heap.loc)
         (h : Heap.heap) (o : Heap.Object3D),
    (height F <= fuel)%nat ->
    Forall2 (option_rel (rep_comp h)) F entries ->
    well_typed F = true ->
    Heap.read p h = Some (Heap.ThreeObject o) ->
    exists h' new objs,
      Heap.forEach (Heap.buildScene_cb (Heap.buildScene fuel) p) entries h
      = Heap.Returns tt h'
      /\ buildScene F [] = Ok objs
      /\ only_adds_to p h h'
      /\ Heap.read p h' = Some (Heap.ThreeObject (Heap.push new o))
      /\ Forall2 (reads h') new objs.
Proof.
  induction F as [| l IH | c l IHc IHl] using forest_ind;
    intros fuel entries p h o Hfuel Hrep WT Hp;
    inversion Hrep as [| x y l0 es' Hxy Hrest]; subst.
  - exists h, [], []. split; [reflexivity|]. split; [reflexivity|].
    split; [exact (only_adds_to_refl p h o Hp)|].
    split; [now rewrite push_nil | constructor].
  - discriminate.
  - rewrite well_typed_cons in WT. apply andb_true_iff in WT as [WTc WTl].
    rewrite height_cons in Hfuel.
    inversion Hxy as [| c0 lc Hc]; subst.
    inversion Hc as [c0 l0 pl rl sl cl es Hlc Hpl Hrl Hsl Hcl Hch]; subst.
    pose proof (read_lt _ _ _ Hp) as Hplt.
    cbn [Heap.forEach]. unfold Heap.bindM at 1.
    rewrite (buildScene_cb_run _ p lc h o c pl rl sl cl es) by assumption.
    cbv zeta.
    set (h1 := after_mesh (type c) {| color := "white" |}
                 (position c) (rotation c) (scale c) p o h).
    pose proof (after_mesh_only_adds (type c) {| color := "white" |}
                  (position c) (rotation c) (scale c) p o h Hp) as A1.
    destruct (after_mesh_reads c p o h Hp) as [R1 M1].
    fold h1 in A1, R1, M1.
    set (newm := mesh_loc (type c) h) in *.
    assert (Hlen : List.length (children c) = List.length es)
      by exact (Forall2_length Hch).
    (* the store and what was added once the callback is through *)
    assert (Hcb : exists h3 newg objsg,
               (if (0 <? List.length es)%nat
                then match Heap.read p h1 with
                     | Some (Heap.ThreeObject o1) =>
                         Heap.buildScene fuel cl (List.length h1)
                           (set_nth p
                              (Heap.ThreeObject (Heap.push [List.length h1] o1))
                              (h1 ++ [Heap.ThreeObject
                                        {| Heap.obj_kind := Heap.GroupKind;
                                           Heap.obj_position := (0, 0, 0)%float;
                                           Heap.obj_rotation := (0, 0, 0)%float;
                                           Heap.obj_scale := (1, 1, 1)%float;
                                           Heap.obj_children := [] |}]))
                     | _ => Heap.Throws
                     end
                else Heap.Returns tt h1) = Heap.Returns tt h3
               /\ buildScene_cb c [] = Ok (own_mesh c ++ objsg)
               /\ only_adds_to p h h3
               /\ Heap.read p h3 =
                  Some (Heap.ThreeObject (Heap.push (newm ++ newg) o))
               /\ Forall2 (reads h3) (newm ++ newg) (own_mesh c ++ objsg)).
    { rewrite buildScene_cb_adds, Hlen.
      destruct (0 <? List.length es)%nat.
      2:{ exists h1, [], []. rewrite !app_nil_r. auto. }
      rewrite R1.
      set (grp := {| Heap.obj_kind := Heap.GroupKind;
                     Heap.obj_position := (0, 0, 0)%float;
                     Heap.obj_rotation := (0, 0, 0)%float;
                     Heap.obj_scale := (1, 1, 1)%float;
                     Heap.obj_children := [] |}).
      set (g := List.length h1).
      set (h2 := set_nth p (Heap.ThreeObject (Heap.push [g] (Heap.push newm o)))
                   (h1 ++ [Heap.ThreeObject grp])).
      assert (A2 : only_adds_to p h1 h2)
        by (apply only_adds_to_new; [exact R1 | reflexivity]).
      pose proof (only_adds_to_trans p h h1 h2 A1 A2) as A12.
      pose proof (only_adds_to_forest_cells p h h2 A12) as Hkeep.
      assert (Hp1 : (p < List.length h1)%nat) by exact (read_lt _ _ _ R1).
      assert (R2 : Heap.read p h2 =
                   Some (Heap.ThreeObject (Heap.push (newm ++ [g]) o))).
      { unfold h2, Heap.read. rewrite nth_error_set_nth_eq, push_push;
          [reflexivity | rewrite length_app; simpl; lia]. }
      destruct fuel as [|fuel]; [lia|].
      cbn [Heap.buildScene].
      rewrite (Hkeep cl _ Hcl) by discriminate.
      destruct (IHc fuel es g h2 grp) as (h3 & newc & inner & Hrun & Hpure & A3 & R3 & M3).
      - lia.
      - exact (rep_preserved h h2 Hkeep _ _ Hch).
      - exact WTc.
      - apply read_new_group. exact Hp1.
      - exists h3, [g], [Group inner].
        destruct A1 as (L1 & A1').
        pose proof A3 as (L3 & F3 & _).
        assert (Hlen2 : List.length h2 = S (List.length h1)).
        { unfold h2. rewrite length_set_nth, length_app;
            [simpl; lia | rewrite length_app; simpl; lia]. }
        split; [exact Hrun|]. split; [now rewrite Hpure|].
        split; [exact (only_adds_to_inside p g h h2 h3 A12 L1 A3)|].
        split.
        + rewrite F3; [exact R2 | lia | unfold g; lia].
        + apply Forall2_app.
          * apply (reads_own_mesh_preserved h1 h3); [|exact M1].
            intros l0 cell Hin Hcell.
            pose proof (read_lt _ _ _ Hcell) as Hl0.
            assert (Hne : l0 <> p).
            { intros ->. unfold newm, mesh_loc in Hin.
              destruct (type c); simpl in Hin; [|tauto].
              destruct Hin as [Hin|[]]. lia. }
            rewrite F3 by (unfold g; lia).
            destruct A2 as (_ & F2 & _). rewrite F2 by assumption.
            exact Hcell.
          * constructor; [|constructor].
            exact (reads_Group h3 g newc inner R3 M3). }
    destruct Hcb as (h3 & newg & objsg & -> & Hpure & A3 & R3 & M3).
    destruct (IHl fuel es' p h3 (Heap.push (newm ++ newg) o))
      as (h' & newl & objsl & Hrun & Hpurel & A4 & R4 & M4).
    + lia.
    + exact (rep_preserved h h3 (only_adds_to_forest_cells p h h3 A3) _ _ Hrest).
    + exact WTl.
    + exact R3.
    + exists h', ((newm ++ newg) ++ newl), ((own_mesh c ++ objsg) ++ objsl).
      split; [exact Hrun|]. split; [|split; [|split]].
      * rewrite buildScene_cons, Hpure. simpl.
        rewrite buildScene_appends, Hpurel. reflexivity.
      * exact (only_adds_to_trans p h h3 h' A3 A4).
      * now rewrite R4, push_push.
      * apply Forall2_app; [|exact M4].
        apply (reads_preserved (List.length h) h3 h');
          [| exact (only_adds_to_new_locs p h h3 o _ A3 Hp R3) | exact M3].
        intros l0 cell Hl0 Hcell. split.
        -- destruct A4 as (_ & F4 & _).
           rewrite F4; [exact Hcell | exact (read_lt _ _ _ Hcell) | lia].
        -- destruct A3 as (_ & _ & _ & C3). exact (C3 l0 cell Hl0 Hcell).
Qed.

(** ** 22. Forests in the store *)

Lemma store_comp_eq (c : Component) (h : Heap.heap) :
  store_comp c h =
  let '(entries, h1) := store_entries (children c) h in
  let n := List.length h1 in
  (S (S (S (S n))),
   h1 ++ [Heap.ComponentArray entries;
          Heap.NumberArray (position c);
          Heap.NumberArray (rotation c);
          Heap.NumberArray (scale c);
          Heap.ComponentObject (id c) (name c) (type c)
            (S n) (S (S n)) (S (S (S n))) n]).
Proof. destruct c; reflexivity. Qed.

Lemma rep_extend (h : Heap.heap) (x : list Heap.cell) (F : forest)
    (entries : list (option Heap.loc)) :
  Forall2 (option_rel (rep_comp h)) F entries ->
  Forall2 (option_rel (rep_comp (h ++ x))) F entries.
Proof.
  apply rep_preserved. intros l c Hc _.
  rewrite read_app_old; [exact Hc | exact (read_lt _ _ _ Hc)].
Qed.

Lemma read_app_at (h : Heap.heap) (x : list Heap.cell) (k : nat) :
  Heap.read (k + List.length h) (h ++ x) = nth_error x k.
Proof.
  unfold Heap.read. rewrite nth_error_app2 by lia.
  f_equal. lia.
Qed.

Lemma store_entries_rep (F : forest) :
  forall h,
    (exists x, snd (store_entries F h) = h ++ x)
    /\ Forall2 (option_rel (rep_comp (snd (store_entries F h)))) F
         (fst (store_entries F h)).
Proof.
  induction F as [| l IH | c l IHc IHl] using forest_ind; intros h.
  - simpl. split; [exists []; now rewrite app_nil_r | constructor].
  - simpl. destruct (IH h) as [[x Hx] Hrep].
    destruct (store_entries l h) as [es h'] eqn:E. simpl in *.
    split; [eauto|]. constructor; [constructor | exact Hrep].
  - cbn [store_entries]. rewrite store_comp_eq.
    destruct (IHc h) as [[x1 Hx1] Hrep1].
    destruct (store_entries (children c) h) as [es1 h1] eqn:E1. simpl in Hx1, Hrep1.
    cbv zeta.
    set (cells := [Heap.ComponentArray es1;
                   Heap.NumberArray (position c);
                   Heap.NumberArray (rotation c);
                   Heap.NumberArray (scale c);
                   Heap.ComponentObject (id c) (name c) (type c)
                     (S (List.length h1)) (S (S (List.length h1)))
                     (S (S (S (List.length h1)))) (List.length h1)]).
    destruct (IHl (h1 ++ cells)) as [[x2 Hx2] Hrep2].
    destruct (store_entries l (h1 ++ cells)) as [es2 h2] eqn:E2.
    simpl in Hx2, Hrep2. simpl fst. simpl snd.
    split.
    + exists (x1 ++ cells ++ x2). rewrite Hx2, Hx1.
      now rewrite <- !app_assoc.
    + constructor; [|exact Hrep2]. constructor.
      rewrite Hx2.
      apply (rep_comp_intro _ c (S (S (S (S (List.length h1)))))
               (S (List.length h1)) (S (S (List.length h1)))
               (S (S (S (List.length h1)))) (List.length h1) es1).
      * rewrite <- app_assoc.
        exact (read_app_at h1 (cells ++ x2) 4).
      * rewrite <- app_assoc. exact (read_app_at h1 (cells ++ x2) 1).
      * rewrite <- app_assoc. exact (read_app_at h1 (cells ++ x2) 2).
      * rewrite <- app_assoc. exact (read_app_at h1 (cells ++ x2) 3).
      * rewrite <- app_assoc. exact (read_app_at h1 (cells ++ x2) 0).
      * rewrite <- app_assoc. apply rep_extend. exact Hrep1.
Qed.

(** Every forest can be held by a store, next to whatever is there. *)
Lemma store_forest_rep (F : forest) (h : Heap.heap) :
  (exists x, snd (store_forest F h) = h ++ x)
  /\ rep_forest (snd (store_forest F h)) F (fst (store_forest F h)).
Proof.
  unfold store_forest.
  destruct (store_entries_rep F h) as [[x Hx] Hrep].
  destruct (store_entries F h) as [es h1]. simpl in *.
  split.
  - exists (x ++ [Heap.ComponentArray es]). now rewrite Hx, <- app_assoc.
  - exists es. split; [apply read_app_new | now apply rep_extend].
Qed.

(** C10. Materialization leaves the forest as it is.  With the forest in
    the store, [buildScene] run on it with a scene object as parent
    returns (given fuel beyond the depth of the forest) and afterwards
    the store still holds the same forest at the same places: every cell
    that was there, save the scene object, is unchanged -- every
    component object, every position, rotation and scale array, every
    children array.  What it does is allocate new [THREE] objects that
    refer to new objects only, and append references to them to the
    scene; read back, they are the objects of the value-level
    [buildScene]. *)
Theorem buildScene_leaves_forest (F : forest) (h : Heap.heap)
    (components scene : Heap.loc) (o : Heap.Object3D) (fuel : nat) :
  rep_forest h F components ->
  well_typed F = true ->
  Heap.read scene h = Some (Heap.ThreeObject o) ->
  (height F < fuel)%nat ->
  exists h' new objs,
    Heap.buildScene fuel components scene h = Heap.Returns tt h'
    /\ rep_forest h' F components
    /\ (forall l c, Heap.read l h = Some c -> l <> scene ->
          Heap.read l h' = Some c)
    /\ only_adds_to scene h h'
    /\ Heap.read scene h' = Some (Heap.ThreeObject (Heap.push new o))
    /\ buildScene F [] = Ok objs
    /\ Forall2 (reads h') new objs.
Proof.
  intros (entries & Ha & Hrep) WT Hs Hfuel.
  destruct fuel as [|fuel]; [lia|].
  destruct (forEach_builds F fuel entries scene h o)
    as (h' & new & objs & Hrun & Hpure & A & R & M);
    [lia | assumption..|].
  pose proof (only_adds_to_forest_cells scene h h' A) as Hkeep.
  exists h', new, objs. split; [|split; [|split]].
  - cbn [Heap.buildScene]. now rewrite Ha.
  - exists entries. split.
    + apply Hkeep; [exact Ha | discriminate].
    + exact (rep_preserved h h' Hkeep F entries Hrep).
  - intros l c Hc Hne. destruct A as (_ & Fr & _).
    rewrite Fr; [exact Hc | exact (read_lt _ _ _ Hc) | exact Hne].
  - auto.
Qed.

Lemma buildScene_leaves_forest_witness :
  let F := [Some (with_children (newComponent "a" cube)
                    [Some (newComponent "b" cone)])] in
  let scene := {| Heap.obj_kind := Heap.SceneKind;
                  Heap.obj_position := (0, 0, 0)%float;
                  Heap.obj_rotation := (0, 0, 0)%float;
                  Heap.obj_scale := (1, 1, 1)%float;
                  Heap.obj_children := [] |} in
  let st := store_forest F [Heap.ThreeObject scene] in
  exists h' new,
    Heap.buildScene 3 (fst st) 0 (snd st) = Heap.Returns tt h'
    /\ rep_forest h' F (fst st)
    /\ Heap.read 0 h' = Some (Heap.ThreeObject (Heap.push new scene))
    /\ Forall2 (reads h') new
         [Mesh (BoxGeometry 1 1 1)%float {| color := "white" |}
               (0, 0, 0)%float (0, 0, 0)%float (1, 1, 1)%float;
          Group [Mesh (ConeGeometry 1 2 32)%float {| color := "white" |}
                      (0, 0, 0)%float (0, 0, 0)%float (1, 1, 1)%float]].
Proof.
  intros F scene st.
  destruct (buildScene_leaves_forest F (snd st) (fst st) 0%nat scene 3%nat)
    as (h' & new & objs & Hrun & Hrep & _ & _ & Hscene & Hobjs & Hreads).
  - exact (proj2 (store_forest_rep F [Heap.ThreeObject scene])).
  - reflexivity.
  - reflexivity.
  - cbv. lia.
  - exists h', new. simpl in Hobjs. injection Hobjs as <-. auto.
Defined.

(** ** 23. Lookup and update together *)

Lemma findComponentById_absent_wt (i : string) (l : forest) :
  well_typed l = true -> ~ In i (ids l) -> findComponentById l i = Ok None.
Proof.
  intros WT Hn. rewrite (findComponentById_find i l WT).
  f_equal. now apply find_id_none.
Qed.

Lemma updateRecursive_find (u : Component) (l : forest) :
  well_typed l = true ->
  count_occ string_dec (ids l) (id u) = 1%nat ->
  forall l', updateRecursive u l = Ok l' ->
    findComponentById l' (id u) = Ok (Some u).
Proof.
  induction l as [| l IH | c l IHc IHl] using forest_ind; intros WT Hcount l' H.
  - discriminate.
  - discriminate.
  - rewrite well_typed_cons in WT. apply andb_true_iff in WT as [WTc WTl].
    rewrite count_ids_cons in Hcount.
    rewrite updateRecursive_cons, updateRecursive_cb_eq in H.
    destruct (string_dec (id c) (id u)) as [E|E].
    + rewrite E, String.eqb_refl in H. simpl in H.
      destruct (updateRecursive u l) as [l1|]; [|discriminate].
      simpl in H. injection H as <-.
      rewrite findComponentById_cons, findComponentById_body_eq.
      now rewrite String.eqb_refl.
    + pose proof E as E'. apply String.eqb_neq in E'. rewrite E' in H.
      destruct (count_occ string_dec (ids (children c)) (id u)) as [|n] eqn:Ec.
      * rewrite (updateRecursive_absent_wt u (children c)) in H
          by (auto; now apply count_occ_zero_not_in).
        simpl in H. rewrite with_children_same in H.
        assert (Hc : (if (0 <? List.length (children c))%nat then Ok c else Ok c)
                     = Ok c) by now destruct (0 <? _)%nat.
        rewrite Hc in H. simpl in H.
        destruct (updateRecursive u l) as [l1|] eqn:El; [|discriminate].
        simpl in H. injection H as <-.
        rewrite findComponentById_cons, findComponentById_body_eq, E'.
        rewrite (findComponentById_absent_wt (id u) (children c))
          by (auto; now apply count_occ_zero_not_in).
        apply IHl; [exact WTl | lia | reflexivity].
      * rewrite (ids_nonempty_length (children c) (id u)) in H
          by (apply count_occ_pos_in; lia).
        destruct (updateRecursive u (children c)) as [ch|] eqn:Ech;
          [|discriminate].
        simpl in H.
        destruct (updateRecursive u l) as [l1|] eqn:El; [|discriminate].
        simpl in H. injection H as <-.
        rewrite findComponentById_cons, findComponentById_body_eq.
        simpl id. rewrite E'. simpl children.
        rewrite (IHc WTc ltac:(lia) ch eq_refl). reflexivity.
Qed.

(** X1. Update then look up: on a well-typed forest with exactly one node
    of the id, [updateComponent] returns a forest in which
    [findComponentById] with that id returns the updated node. *)
Theorem find_after_update (F : forest) (u : Component) :
  well_typed F = true ->
  count_occ string_dec (ids F) (id u) = 1%nat ->
  exists F',
    updateComponent u F = Ok F'
    /\ findComponentById F' (id u) = Ok (Some u).
Proof.
  intros WT Hcount.
  destruct (updateRecursive_total u F WT) as [F' H].
  exists F'. split; [exact H|].
  exact (updateRecursive_find u F WT Hcount F' H).
Qed.

Lemma find_after_update_witness :
  exists F',
    updateComponent
      (with_children (newComponent "b" cone) [undefined])
      [Some (with_children (newComponent "a" cube) [Some (newComponent "b" cone)])]
    = Ok F'
    /\ findComponentById F' "b"
       = Ok (Some (with_children (newComponent "b" cone) [undefined])).
Proof.
  exact (find_after_update
           [Some (with_children (newComponent "a" cube)
                    [Some (newComponent "b" cone)])]
           (with_children (newComponent "b" cone) [undefined])
           eq_refl eq_refl).
Defined.

Lemma updateRecursive_found (c : Component) (l : forest) :
  well_typed l = true ->
  count_occ string_dec (ids l) (id c) = 1%nat ->
  findComponentById l (id c) = Ok (Some c) ->
  updateRecursive c l = Ok l.
Proof.
  induction l as [| l IH | c0 l IHc IHl] using forest_ind; intros WT Hcount Hf.
  - discriminate.
  - discriminate.
  - rewrite well_typed_cons in WT. apply andb_true_iff in WT as [WTc WTl].
    rewrite count_ids_cons in Hcount.
    rewrite findComponentById_cons, findComponentById_body_eq in Hf.
    rewrite updateRecursive_cons, updateRecursive_cb_eq.
    destruct (string_dec (id c0) (id c)) as [E|E].
    + rewrite E, String.eqb_refl in *. injection Hf as ->. simpl.
      rewrite updateRecursive_absent_wt;
        [reflexivity | exact WTl | apply count_occ_zero_not_in; lia].
    + pose proof E as E'. apply String.eqb_neq in E'. rewrite E' in *.
      destruct (count_occ string_dec (ids (children c0)) (id c)) as [|n] eqn:Ec.
      * rewrite (findComponentById_absent_wt (id c) (children c0)) in Hf
          by (auto; now apply count_occ_zero_not_in).
        rewrite (updateRecursive_absent_wt c (children c0))
          by (auto; now apply count_occ_zero_not_in).
        simpl. rewrite with_children_same.
        rewrite IHl; [| exact WTl | lia | exact Hf].
        now destruct (0 <? List.length (children c0))%nat.
      * rewrite (ids_nonempty_length (children c0) (id c))
          by (apply count_occ_pos_in; lia).
        assert (Hin : In (id c) (ids (children c0)))
          by (apply count_occ_pos_in; lia).
        rewrite (findComponentById_find _ _ WTc) in Hf.
        destruct (find (fun x => String.eqb (id x) (id c))
                    (preorder (children c0))) as [x|] eqn:Efind.
        -- injection Hf as ->.
           rewrite IHc;
             [| exact WTc | lia | now rewrite (findComponentById_find _ _ WTc), Efind].
           simpl. rewrite with_children_same.
           rewrite updateRecursive_absent_wt;
             [reflexivity | exact WTl | apply count_occ_zero_not_in; lia].
        -- exfalso. unfold ids in Hin. apply in_map_iff in Hin as (x & Hx & Hin).
           apply (find_none _ _ Efind) in Hin. rewrite Hx, String.eqb_refl in Hin.
           discriminate.
Qed.

(** X2. Look up then update: writing back the node that
    [findComponentById] returns leaves a well-typed forest with one node
    of that id unchanged. *)
Theorem update_with_found (F : forest) (c : Component) :
  well_typed F = true ->
  count_occ string_dec (ids F) (id c) = 1%nat ->
  findComponentById F (id c) = Ok (Some c) ->
  updateComponent c F = Ok F.
Proof.
  intros WT Hcount Hf. unfold updateComponent.
  now apply updateRecursive_found.
Qed.

Lemma update_with_found_witness :
  updateComponent (newComponent "b" cone)
    [Some (with_children (newComponent "a" cube) [Some (newComponent "b" cone)])]
  = Ok [Some (with_children (newComponent "a" cube) [Some (newComponent "b" cone)])].
Proof.
  exact (update_with_found
           [Some (with_children (newComponent "a" cube)
                    [Some (newComponent "b" cone)])]
           (newComponent "b" cone) eq_refl eq_refl eq_refl).
Defined.

Lemma updateRecursive_length (u : Component) (l : forest) :
  forall l', updateRecursive u l = Ok l' -> List.length l' = List.length l.
Proof.
  unfold updateRecursive.
  induction l as [|e l IH]; intros l' H; simpl in H.
  - now injection H as <-.
  - destruct (on_entry _ e) as [e'|]; [|discriminate]. simpl in H.
    destruct (array_map _ l) as [l1|]; [|discriminate]. simpl in H.
    injection H as <-. simpl. f_equal. now apply IH.
Qed.

Lemma with_children_twice (c : Component) (ch1 ch2 : forest) :
  with_children (with_children c ch1) ch2 = with_children c ch2.
Proof. reflexivity. Qed.

Lemma updateRecursive_overwrite (u1 u2 : Component) (l : forest) :
  id u1 = id u2 ->
  well_typed l = true ->
  count_occ string_dec (ids l) (id u1) = 1%nat ->
  forall l1, updateRecursive u1 l = Ok l1 ->
    updateRecursive u2 l1 = updateRecursive u2 l.
Proof.
  intros Hid.
  induction l as [| l IH | c l IHc IHl] using forest_ind; intros WT Hcount l1 H.
  - discriminate.
  - discriminate.
  - rewrite well_typed_cons in WT. apply andb_true_iff in WT as [WTc WTl].
    rewrite count_ids_cons in Hcount.
    rewrite updateRecursive_cons, updateRecursive_cb_eq in H.
    rewrite (updateRecursive_cons u2 c), (updateRecursive_cb_eq u2 c).
    destruct (string_dec (id c) (id u1)) as [E|E].
    + rewrite E, String.eqb_refl in H. simpl in H.
      rewrite (updateRecursive_absent_wt u1 l) in H
        by (auto; apply count_occ_zero_not_in; lia).
      simpl in H. injection H as <-.
      rewrite updateRecursive_cons, updateRecursive_cb_eq.
      now rewrite E, Hid, !String.eqb_refl.
    + pose proof E as E'. apply String.eqb_neq in E'. rewrite E' in H.
      pose proof E' as E2. rewrite Hid in E2. rewrite E2.
      destruct (count_occ string_dec (ids (children c)) (id u1)) as [|n] eqn:Ec.
      * rewrite (updateRecursive_absent_wt u1 (children c)) in H
          by (auto; now apply count_occ_zero_not_in).
        simpl in H. rewrite with_children_same in H.
        assert (Hc : (if (0 <? List.length (children c))%nat then Ok c else Ok c)
                     = Ok c) by now destruct (0 <? _)%nat.
        rewrite Hc in H. simpl in H.
        destruct (updateRecursive u1 l) as [l'|] eqn:El; [|discriminate].
        simpl in H. injection H as <-.
        rewrite updateRecursive_cons, updateRecursive_cb_eq, E2.
        now rewrite (IHl WTl ltac:(lia) l' eq_refl).
      * rewrite (ids_nonempty_length (children c) (id u1)) in *
          by (apply count_occ_pos_in; lia).
        destruct (updateRecursive u1 (children c)) as [ch|] eqn:Ech;
          [|discriminate].
        simpl in H.
        rewrite (updateRecursive_absent_wt u1 l) in H
          by (auto; apply count_occ_zero_not_in; lia).
        simpl in H. injection H as <-.
        rewrite updateRecursive_cons, updateRecursive_cb_eq.
        simpl id. rewrite E2. simpl children.
        rewrite (updateRecursive_length u1 _ ch Ech).
        rewrite (ids_nonempty_length (children c) (id u1))
          by (apply count_occ_pos_in; lia).
        now rewrite (IHc WTc ltac:(lia) ch eq_refl).
Qed.

(** X3. The last update wins: after [updateComponent] with a node of an id
    that occurs once in a well-typed forest, a second [updateComponent]
    with a node of the same id gives what it gives on the forest itself. *)
Theorem update_overwrites (F : forest) (u1 u2 : Component) :
  id u1 = id u2 ->
  well_typed F = true ->
  count_occ string_dec (ids F) (id u1) = 1%nat ->
  exists F1 F2,
    updateComponent u1 F = Ok F1
    /\ updateComponent u2 F1 = Ok F2
    /\ updateComponent u2 F = Ok F2.
Proof.
  intros Hid WT Hcount.
  destruct (updateRecursive_total u1 F WT) as [F1 H1].
  destruct (updateRecursive_total u2 F WT) as [F2 H2].
  exists F1, F2. split; [exact H1|]. split; [|exact H2].
  unfold updateComponent.
  now rewrite (updateRecursive_overwrite u1 u2 F Hid WT Hcount F1 H1).
Qed.

Lemma update_overwrites_witness :
  exists F1,
    updateComponent (with_children (newComponent "a" cube) [undefined])
      [Some (newComponent "a" cube); Some (newComponent "b" cone)] = Ok F1
    /\ updateComponent (newComponent "a" sphere) F1
       = Ok [Some (newComponent "a" sphere); Some (newComponent "b" cone)].
Proof.
  destruct (update_overwrites
              [Some (newComponent "a" cube); Some (newComponent "b" cone)]
              (with_children (newComponent "a" cube) [undefined])
              (newComponent "a" sphere) eq_refl eq_refl eq_refl)
    as (F1 & F2 & H1 & H2 & H3).
  exists F1. split; [exact H1|]. rewrite H2, <- H3. reflexivity.
Defined.


(** X4. Every node can be looked up: in a well-typed forest with unique
    ids, [findComponentById] with the id of any node, at any depth, returns
    that node. *)
Theorem find_every_node (F : forest) (c : Component) :
  well_typed F = true -> NoDup (ids F) -> In c (preorder F) ->
  findComponentById F (id c) = Ok (Some c).
Proof.
  intros WT N Hin. rewrite (findComponentById_find (id c) F WT).
  f_equal. now apply find_unique.
Qed.

Lemma find_every_node_witness :
  findComponentById
    [Some (with_children (newComponent "a" cube) [Some (newComponent "b" cone)])]
    "b"
  = Ok (Some (newComponent "b" cone)).
Proof.
  apply (find_every_node
           [Some (with_children (newComponent "a" cube)
                    [Some (newComponent "b" cone)])]
           (newComponent "b" cone)).
  - reflexivity.
  - repeat constructor; simpl; intuition discriminate.
  - simpl. right. now left.
Defined.

(** X5. [addPrimitive] never changes a lookup that succeeds: an id that
    [findComponentById] resolves in a well-typed forest resolves to the
    same node afterwards, also when the new token repeats that id; an id
    that did not resolve resolves to the new node exactly when it is the
    new token. *)
Theorem find_after_add (F : forest) (newId i : string) (t : PrimitiveType) :
  well_typed F = true ->
  findComponentById (addPrimitive newId t F) i =
  match findComponentById F i with
  | Ok (Some c) => Ok (Some c)
  | Ok None =>
      if String.eqb newId i then Ok (Some (newComponent newId t)) else Ok None
  | TypeError => TypeError
  end.
Proof.
  intros WT.
  assert (WT' : well_typed (addPrimitive newId t F) = true).
  { unfold addPrimitive. rewrite well_typed_app, WT. reflexivity. }
  rewrite (findComponentById_find i _ WT'), (findComponentById_find i F WT).
  unfold addPrimitive, preorder. rewrite flat_map_app, find_first_app.
  destruct (find _ (flat_map _ F)); [reflexivity|].
  simpl. now destruct (String.eqb newId i).
Qed.

Lemma find_after_add_witness :
  findComponentById (addPrimitive "a" sphere [Some (newComponent "a" cube)]) "a"
  = Ok (Some (newComponent "a" cube)).
Proof.
  exact (find_after_add [Some (newComponent "a" cube)] "a" "a" sphere eq_refl).
Defined.

(** ** 24. More on reorder *)

Lemma move_source_inverse (from to i : nat) :
  move_source from to (move_source to from i) = i.
Proof.
  unfold move_source.
  destruct (Nat.eqb_spec i from), (Nat.leb_spec to i), (Nat.ltb_spec i from),
    (Nat.ltb_spec from i), (Nat.leb_spec i to); cbn [andb];
    repeat match goal with
           | |- context [Nat.eqb ?a ?b] => destruct (Nat.eqb_spec a b)
           | |- context [Nat.leb ?a ?b] => destruct (Nat.leb_spec a b)
           | |- context [Nat.ltb ?a ?b] => destruct (Nat.ltb_spec a b)
           end; cbn [andb]; lia.
Qed.

Lemma length_list_move {A} (from to : nat) (l : list A) :
  List.length (list_move from to l) = List.length l.
Proof. apply Permutation_length, Permutation_list_move. Qed.

Lemma list_move_inverse {A} (from to : nat) (l : list A) :
  (from < List.length l)%nat -> (to < List.length l)%nat ->
  list_move to from (list_move from to l) = l.
Proof.
  intros Hf Ht. apply nth_error_ext. intros i.
  rewrite list_move_nth_error by (rewrite length_list_move; assumption).
  rewrite list_move_nth_error by assumption.
  now rewrite move_source_inverse.
Qed.

Lemma set_nth_set_nth {A} (i : nat) (x y : A) (l : list A) :
  (i < List.length l)%nat -> set_nth i y (set_nth i x l) = set_nth i y l.
Proof.
  intros H. apply nth_error_ext. intros n.
  pose proof (length_set_nth i x l H) as Hlen.
  destruct (Nat.eq_dec n i) as [->|Hne].
  - rewrite !nth_error_set_nth_eq; [reflexivity | lia | lia].
  - rewrite !nth_error_set_nth_neq; [reflexivity | lia.. ].
Qed.

Lemma set_nth_same {A} (i : nat) (x : A) (l : list A) :
  nth_error l i = Some x -> set_nth i x l = l.
Proof.
  intros H. pose proof (nth_error_lt _ _ _ H) as Hlt.
  apply nth_error_ext. intros n.
  destruct (Nat.eq_dec n i) as [->|Hne].
  - now rewrite nth_error_set_nth_eq.
  - now rewrite nth_error_set_nth_neq.
Qed.


Lemma replace_at_twice (n1 n2 : Component) (path : list nat) :
  forall (F : forest) (old : Component),
    node_at F path = Some old ->
    replace_at path n2 (replace_at path n1 F) = replace_at path n2 F.
Proof.
  induction path as [|i rest IH]; intros F old H; [reflexivity|].
  rewrite node_at_cons in H.
  rewrite (replace_at_cons F i rest n1), (replace_at_cons F i rest n2).
  destruct (nth_error F i) as [[c|]|] eqn:E; try discriminate.
  pose proof (nth_error_lt _ _ _ E) as Hi.
  destruct rest as [|j r].
  - rewrite replace_at_cons, nth_error_set_nth_eq by exact Hi.
    now apply set_nth_set_nth.
  - rewrite replace_at_cons, nth_error_set_nth_eq by exact Hi.
    rewrite set_nth_set_nth by exact Hi.
    rewrite children_with_children, with_children_twice.
    now rewrite (IH (children c) old H).
Qed.

Lemma replace_at_same (path : list nat) :
  forall (F : forest) (old : Component),
    node_at F path = Some old -> replace_at path old F = F.
Proof.
  induction path as [|i rest IH]; intros F old H; [reflexivity|].
  rewrite node_at_cons in H. rewrite replace_at_cons.
  destruct (nth_error F i) as [[c|]|] eqn:E; try discriminate.
  destruct rest as [|j r].
  - injection H as <-. now apply set_nth_same.
  - rewrite (IH (children c) old H), with_children_same.
    now apply set_nth_same.
Qed.

Lemma well_typed_comp_eq (c : Component) :
  well_typed_comp c = well_typed (children c).
Proof. destruct c; reflexivity. Qed.

Lemma well_typed_nth_error (F : forest) (i : nat) (e : option Component) :
  well_typed F = true -> nth_error F i = Some e ->
  exists c, e = Some c /\ well_typed (children c) = true.
Proof.
  intros WT H. apply nth_error_In in H.
  unfold well_typed in WT. rewrite forallb_forall in WT.
  specialize (WT e H). destruct e as [c|]; [|discriminate].
  exists c. split; [reflexivity|]. now rewrite <- well_typed_comp_eq.
Qed.

Lemma well_typed_set_nth (F : forest) (i : nat) (c : Component) :
  well_typed F = true -> well_typed (children c) = true ->
  (i < List.length F)%nat ->
  well_typed (set_nth i (Some c) F) = true.
Proof.
  intros WT WTc Hi. unfold well_typed in *. rewrite forallb_forall in *.
  intros e He. unfold set_nth in He.
  apply in_app_or in He as [He|[<-|He]].
  - apply WT. rewrite <- (firstn_skipn i F). apply in_or_app. now left.
  - rewrite well_typed_comp_eq. unfold well_typed.
    rewrite forallb_forall. exact WTc.
  - apply WT. rewrite <- (firstn_skipn (S i) F). apply in_or_app. now right.
Qed.

Lemma well_typed_replace_at (new : Component) (path : list nat) :
  forall F, well_typed F = true -> well_typed (children new) = true ->
    well_typed (replace_at path new F) = true.
Proof.
  induction path as [|i rest IH]; intros F WT WTn; [exact WT|].
  rewrite replace_at_cons.
  destruct (nth_error F i) as [[c|]|] eqn:E; try exact WT.
  pose proof (nth_error_lt _ _ _ E) as Hi.
  destruct (well_typed_nth_error F i _ WT E) as (c' & Ec & WTc).
  injection Ec as <-.
  destruct rest as [|j r].
  - now apply well_typed_set_nth.
  - apply well_typed_set_nth; [exact WT | | exact Hi].
    simpl children. now apply IH.
Qed.

Lemma well_typed_node_at (path : list nat) :
  forall (F : forest) (c : Component),
    well_typed F = true -> node_at F path = Some c ->
    well_typed (children c) = true.
Proof.
  induction path as [|i rest IH]; intros F c WT H; [discriminate|].
  rewrite node_at_cons in H.
  destruct (nth_error F i) as [[c0|]|] eqn:E; try discriminate.
  destruct (well_typed_nth_error F i _ WT E) as (c' & Ec & WTc).
  injection Ec as <-.
  destruct rest; [now injection H as <- | exact (IH _ _ WTc H)].
Qed.

Lemma well_typed_Permutation (l l' : forest) :
  Permutation l l' -> well_typed l = true -> well_typed l' = true.
Proof.
  intros P WT. unfold well_typed in *. rewrite forallb_forall in *.
  intros e He. apply WT. now apply (Permutation_in _ (Permutation_sym P)).
Qed.

(** X6. Moving back: with both indices in range of the selected sibling
    sequence, [reorder(p, a, b)] followed by [reorder(p, b, a)] gives the
    forest back -- on the root sequence for a falsy [parentId], and on the
    children of the node with that id in a well-typed forest with unique
    ids. *)
Theorem reorder_back (F : forest) :
  (forall (parentId : option string) (from to : nat),
      not_parentId parentId = true ->
      (from < List.length F)%nat -> (to < List.length F)%nat ->
      exists F',
        reorder parentId (Z.of_nat from) (Z.of_nat to) F = Ok F'
        /\ reorder parentId (Z.of_nat to) (Z.of_nat from) F' = Ok F)
  /\ (forall (p : string) (path : list nat) (parent : Component)
             (from to : nat),
      p <> "" -> well_typed F = true -> NoDup (ids F) ->
      node_at F path = Some parent -> id parent = p ->
      (from < List.length (children parent))%nat ->
      (to < List.length (children parent))%nat ->
      exists F',
        reorder (Some p) (Z.of_nat from) (Z.of_nat to) F = Ok F'
        /\ reorder (Some p) (Z.of_nat to) (Z.of_nat from) F' = Ok F).
Proof.
  split.
  - intros parentId from to Hnp Hf Ht.
    exists (list_move from to F). unfold reorder. rewrite Hnp.
    rewrite reorderList_in_range by assumption. split; [reflexivity|].
    rewrite reorderList_in_range by (rewrite length_list_move; assumption).
    now rewrite list_move_inverse.
  - intros p path parent from to Hp WT N Hat Hid Hf Ht.
    set (P' := with_children parent (list_move from to (children parent))).
    assert (H1 : reorder (Some p) (Z.of_nat from) (Z.of_nat to) F
                 = Ok (replace_at path P' F)).
    { rewrite (reorder_at_parent p _ _ F Hp path parent WT N Hat Hid).
      now rewrite reorderList_in_range. }
    exists (replace_at path P' F). split; [exact H1|].
    pose proof (well_typed_node_at path F parent WT Hat) as WTp.
    assert (WT' : well_typed (replace_at path P' F) = true).
    { apply well_typed_replace_at; [exact WT|]. simpl.
      exact (well_typed_Permutation _ _
               (Permutation_sym (Permutation_list_move from to _)) WTp). }
    assert (N' : NoDup (ids (replace_at path P' F))).
    { apply (Permutation_NoDup
               (Permutation_sym (reorder_ids_Permutation _ _ _ F _ H1))).
      exact N. }
    rewrite (reorder_at_parent p _ _ _ Hp path P' WT' N'
               (node_at_replace_at_same P' path F parent Hat) Hid).
    simpl children.
    rewrite reorderList_in_range by (rewrite length_list_move; assumption).
    rewrite list_move_inverse by assumption.
    unfold P'. rewrite with_children_twice, with_children_same.
    rewrite (replace_at_twice _ parent path F parent Hat).
    now rewrite (replace_at_same path F parent Hat).
Qed.

Lemma reorder_back_witness :
  exists F',
    reorder (Some "a") 0 2
      [Some (with_children (newComponent "a" cube)
               [Some (newComponent "b" cone); Some (newComponent "c" sphere);
                Some (newComponent "d" d20)])] = Ok F'
    /\ reorder (Some "a") 2 0 F'
       = Ok [Some (with_children (newComponent "a" cube)
                     [Some (newComponent "b" cone); Some (newComponent "c" sphere);
                      Some (newComponent "d" d20)])].
Proof.
  refine (proj2 (reorder_back
                   [Some (with_children (newComponent "a" cube)
                            [Some (newComponent "b" cone);
                             Some (newComponent "c" sphere);
                             Some (newComponent "d" d20)])]) "a" [0%nat]
            (with_children (newComponent "a" cube)
               [Some (newComponent "b" cone); Some (newComponent "c" sphere);
                Some (newComponent "d" d20)])
            0%nat 2%nat _ eq_refl _ eq_refl eq_refl _ _).
  - discriminate.
  - repeat constructor; simpl; intuition discriminate.
  - simpl; lia.
  - simpl; lia.
Defined.

(** What the first [splice] of [reorderList] takes out: one entry when
    the list is not empty and [fromIndex] is below its length (a negative
    index counts from the end), nothing otherwise. *)
Lemma splice_remove_cases (l : forest) (fromIndex : Z) :
  let '(removed, rest) := splice fromIndex 1 [] l in
  (l <> [] -> (fromIndex < Z.of_nat (List.length l))%Z ->
     exists x, removed = [x] /\ Permutation (x :: rest) l)
  /\ (l = [] \/ (Z.of_nat (List.length l) <= fromIndex)%Z ->
      removed = [] /\ rest = l).
Proof.
  unfold splice. cbv zeta.
  set (len := Z.of_nat (List.length l)).
  set (start := if (fromIndex <? 0)%Z then Z.max (len + fromIndex) 0
                else Z.min fromIndex len).
  split.
  - intros Hne Hlt.
    assert (Hlen : (0 < len)%Z) by (unfold len; destruct l; simpl; [congruence | lia]).
    assert (Hs : (0 <= start < len)%Z)
      by (unfold start; destruct (Z.ltb_spec fromIndex 0); lia).
    replace (Z.to_nat (Z.min (Z.max 1 0) (len - start))) with 1%nat by lia.
    destruct (nth_error l (Z.to_nat start)) as [x|] eqn:E;
      [| apply nth_error_None in E; unfold len in Hs; lia].
    exists x. rewrite (skipn_nth_error _ _ _ E). split; [reflexivity|].
    simpl app. rewrite Nat.add_1_r.
    rewrite <- (firstn_skipn (Z.to_nat start) l) at 3.
    rewrite (skipn_nth_error _ _ _ E). apply Permutation_middle.
  - intros H.
    assert (Hs : start = len).
    { unfold start. destruct H as [->|H]; simpl in *;
        destruct (Z.ltb_spec fromIndex 0); unfold len in *; simpl; lia. }
    rewrite Hs. replace (Z.to_nat (Z.min (Z.max 1 0) (len - len))) with 0%nat by lia.
    unfold len. rewrite Nat2Z.id, Nat.add_0_r, skipn_all, firstn_all.
    simpl. now rewrite app_nil_r.
Qed.

Lemma reorderList_cases (l : forest) (fromIndex toIndex : Z) :
  (l <> [] -> (fromIndex < Z.of_nat (List.length l))%Z ->
     Permutation (reorderList fromIndex toIndex l) l)
  /\ (l = [] \/ (Z.of_nat (List.length l) <= fromIndex)%Z ->
      Permutation (reorderList fromIndex toIndex l) (undefined :: l)).
Proof.
  pose proof (splice_remove_cases l fromIndex) as H.
  unfold reorderList.
  destruct (splice fromIndex 1 [] l) as [removed rest].
  destruct H as [Hin Hout].
  destruct (splice_insert rest toIndex (hd undefined removed))
    as (k & _ & -> & _).
  split.
  - intros Hne Hlt. destruct (Hin Hne Hlt) as (x & -> & P).
    simpl hd. rewrite Permutation_insert. exact P.
  - intros H. destruct (Hout H) as [-> ->].
    simpl hd. apply Permutation_insert.
Qed.

(** X7. Only [fromIndex] can break a list: on a non-empty sibling
    sequence and with [fromIndex] below its length -- negative values
    count from the end -- [reorderList] permutes the entries whatever
    [toIndex] is; on the empty sequence, or with [fromIndex] at or beyond
    the length, it adds one [undefined] entry. *)
Theorem reorderList_permutes_or_adds (l : forest) (fromIndex toIndex : Z) :
  (l <> [] -> (fromIndex < Z.of_nat (List.length l))%Z ->
     Permutation (reorderList fromIndex toIndex l) l
     /\ (well_typed l = true ->
         well_typed (reorderList fromIndex toIndex l) = true))
  /\ (l = [] \/ (Z.of_nat (List.length l) <= fromIndex)%Z ->
      Permutation (reorderList fromIndex toIndex l) (undefined :: l)
      /\ well_typed (reorderList fromIndex toIndex l) = false).
Proof.
  destruct (reorderList_cases l fromIndex toIndex) as [Hin Hout].
  split.
  - intros Hne Hlt. split; [now apply Hin|].
    apply well_typed_Permutation. apply Permutation_sym. now apply Hin.
  - intros H. split; [now apply Hout|].
    destruct (well_typed (reorderList fromIndex toIndex l)) eqn:WT;
      [|reflexivity].
    pose proof (well_typed_Permutation _ _ (Hout H) WT) as WT'.
    discriminate WT'.
Qed.

Lemma reorderList_permutes_or_adds_witness :
  Permutation
    (reorderList (-1) 99 [Some (newComponent "a" cube); Some (newComponent "b" cone)])
    [Some (newComponent "a" cube); Some (newComponent "b" cone)]
  /\ Permutation (reorderList (-3) 0 []) [undefined].
Proof.
  split.
  - apply (proj1 (reorderList_permutes_or_adds
                    [Some (newComponent "a" cube); Some (newComponent "b" cone)]
                    (-1) 99)).
    + discriminate.
    + simpl. lia.
  - apply (proj2 (reorderList_permutes_or_adds [] (-3) 0)). now left.
Defined.

Lemma find_Permutation (i : string) (l l' : list Component) :
  NoDup (map id l) -> Permutation l l' ->
  find (fun c => String.eqb (id c) i) l' = find (fun c => String.eqb (id c) i) l.
Proof.
  intros N P.
  assert (N' : NoDup (map id l'))
    by exact (Permutation_NoDup (Permutation_map id P) N).
  destruct (find (fun c => String.eqb (id c) i) l) as [x|] eqn:E.
  - apply find_some in E as [Hin Hx]. apply String.eqb_eq in Hx. subst i.
    apply find_unique; [exact N'|]. exact (Permutation_in _ P Hin).
  - apply find_id_none. intros Hin.
    apply (Permutation_in _ (Permutation_sym (Permutation_map id P))) in Hin.
    apply in_map_iff in Hin as (x & Hx & Hin).
    apply (find_none _ _ E) in Hin. rewrite Hx, String.eqb_refl in Hin.
    discriminate.
Qed.

Lemma preorder_Permutation (l l' : forest) :
  Permutation l l' -> Permutation (preorder l) (preorder l').
Proof. intros P. unfold preorder. now apply Permutation_flat_map. Qed.

(** X8. Reordering the roots changes no lookup: on a non-empty well-typed
    forest with unique ids, after [reorder] with a falsy [parentId], a
    [fromIndex] below the number of roots and any [toIndex],
    [findComponentById] returns for every id what it returned before. *)
Theorem reorder_keeps_lookups (F : forest) (parentId : option string)
    (fromIndex toIndex : Z) :
  well_typed F = true -> NoDup (ids F) ->
  not_parentId parentId = true ->
  F <> [] -> (fromIndex < Z.of_nat (List.length F))%Z ->
  exists F',
    reorder parentId fromIndex toIndex F = Ok F'
    /\ forall i, findComponentById F' i = findComponentById F i.
Proof.
  intros WT N Hnp Hne Hlt.
  exists (reorderList fromIndex toIndex F). unfold reorder. rewrite Hnp.
  split; [reflexivity|]. intros i.
  pose proof (proj1 (reorderList_cases F fromIndex toIndex) Hne Hlt) as P.
  pose proof (well_typed_Permutation _ _ (Permutation_sym P) WT) as WT'.
  rewrite (findComponentById_find i _ WT'), (findComponentById_find i F WT).
  f_equal. apply find_Permutation; [exact N|].
  apply preorder_Permutation, Permutation_sym, P.
Qed.

Lemma reorder_keeps_lookups_witness :
  findComponentById
    (reorderList 1 0 [Some (newComponent "a" cube); Some (newComponent "b" cone)])
    "a"
  = Ok (Some (newComponent "a" cube)).
Proof.
  destruct (reorder_keeps_lookups
              [Some (newComponent "a" cube); Some (newComponent "b" cone)]
              None 1 0 eq_refl) as (F' & H & Hfind).
  - repeat constructor; simpl; intuition discriminate.
  - reflexivity.
  - discriminate.
  - simpl. lia.
  - injection H as <-. rewrite Hfind. reflexivity.
Defined.

(** ** 25. More on buildScene *)

Lemma buildScene_undefined (l : forest) (parent : list Object3D) :
  buildScene (None :: l) parent = TypeError.
Proof. reflexivity. Qed.

Lemma buildScene_ill_typed (l : forest) :
  forall parent, well_typed l = false -> buildScene l parent = TypeError.
Proof.
  induction l as [| l IH | c l IHc IHl] using forest_ind; intros parent WT.
  - discriminate.
  - reflexivity.
  - rewrite well_typed_cons in WT.
    rewrite buildScene_cons, buildScene_cb_adds.
    destruct (well_typed (children c)) eqn:WTc.
    + destruct (buildScene_total _ WTc) as [inner Hinner]. rewrite Hinner.
      simpl in WT.
      destruct (0 <? List.length (children c))%nat; simpl; now apply IHl.
    + assert (Hlen : (0 <? List.length (children c))%nat = true)
        by (destruct (children c); [discriminate | reflexivity]).
      rewrite Hlen, (IHc [] eq_refl). reflexivity.
Qed.

(** X9. [buildScene] throws exactly on the forests that hold an
    [undefined] entry at some depth: it returns on every well-typed forest
    and raises a [TypeError] on every other one, whatever the parent. *)
Theorem buildScene_throws_iff (F : forest) (parent : list Object3D) :
  buildScene F parent = TypeError <-> well_typed F = false.
Proof.
  split.
  - intros H. destruct (well_typed F) eqn:WT; [|reflexivity].
    destruct (buildScene_total F WT) as [objs Hobjs].
    rewrite buildScene_appends, Hobjs in H. discriminate.
  - apply buildScene_ill_typed.
Qed.

Lemma scene_meshes_app (l1 l2 : list Object3D) :
  scene_meshes (l1 ++ l2) = scene_meshes l1 ++ scene_meshes l2.
Proof. unfold scene_meshes. apply flat_map_app. Qed.

Lemma scene_meshes_own_mesh (c : Component) :
  scene_meshes (own_mesh c) = own_mesh c.
Proof. unfold own_mesh. now destruct (type c). Qed.

Lemma scene_meshes_group (inner : list Object3D) :
  scene_meshes [Group inner] = scene_meshes inner.
Proof. unfold scene_meshes. simpl. apply app_nil_r. Qed.

Lemma buildScene_meshes (l : forest) :
  well_typed l = true ->
  exists objs,
    buildScene l [] = Ok objs
    /\ scene_meshes objs = flat_map own_mesh (preorder l).
Proof.
  induction l as [| l IH | c l IHc IHl] using forest_ind; intros WT.
  - now exists [].
  - discriminate.
  - rewrite well_typed_cons in WT. apply andb_true_iff in WT as [WTc WTl].
    destruct (IHc WTc) as (inner & Hinner & Minner).
    destruct (IHl WTl) as (objs & Hobjs & Mobjs).
    rewrite buildScene_cons, buildScene_cb_adds, Hinner, preorder_cons.
    cbn [flat_map]. rewrite flat_map_app, <- Minner, <- Mobjs.
    destruct (0 <? List.length (children c))%nat eqn:Hlen.
    + cbn [bind app]. rewrite buildScene_appends, Hobjs. cbn [bind].
      eexists. split; [reflexivity|].
      rewrite !scene_meshes_app, scene_meshes_own_mesh, scene_meshes_group.
      now rewrite <- app_assoc.
    + assert (Hch : children c = [])
        by (destruct (children c); [reflexivity | discriminate]).
      rewrite Hch in Hinner. injection Hinner as <-.
      cbn [bind app]. rewrite buildScene_appends, Hobjs. cbn [bind].
      eexists. split; [reflexivity|].
      now rewrite scene_meshes_app, scene_meshes_own_mesh.
Qed.

(** X10. Every mesh at every depth, in order: the meshes of the scene
    that [buildScene] builds from a well-typed forest, listed depth
    first, are the meshes of the leaf-kind nodes of the forest in
    pre-order, each with the canonical geometry of its kind and the
    transform of its node; groups contribute none. *)
Theorem buildScene_lists_all_meshes (F : forest) :
  well_typed F = true ->
  exists objs,
    buildScene F [] = Ok objs
    /\ scene_meshes objs = flat_map own_mesh (preorder F)
    /\ List.length (scene_meshes objs)
       = List.length (filter (fun c => match type c with
                                       | primitive _ => true
                                       | group => false
                                       end) (preorder F)).
Proof.
  intros WT. destruct (buildScene_meshes F WT) as (objs & H & M).
  exists objs. split; [exact H|]. split; [exact M|].
  rewrite M. clear. induction (preorder F) as [|c l IH]; [reflexivity|].
  simpl. rewrite length_app, IH. unfold own_mesh.
  now destruct (type c).
Qed.

Lemma buildScene_lists_all_meshes_witness :
  exists objs,
    buildScene
      [Some {| id := "g"; name := "G"; type := group;
               position := (0, 0, 0)%float; rotation := (0, 0, 0)%float;
               scale := (1, 1, 1)%float;
               children := [Some (newComponent "b" cone)] |};
       Some (newComponent "a" cube)] [] = Ok objs
    /\ List.length (scene_meshes objs) = 2%nat.
Proof.
  destruct (buildScene_lists_all_meshes
              [Some {| id := "g"; name := "G"; type := group;
                       position := (0, 0, 0)%float; rotation := (0, 0, 0)%float;
                       scale := (1, 1, 1)%float;
                       children := [Some (newComponent "b" cone)] |};
               Some (newComponent "a" cube)] eq_refl) as (objs & H & _ & L).
  exists objs. split; [exact H | exact L].
Defined.

(** X11. Adding a shape adds one mesh: [buildScene] on the forest after
    [addPrimitive] gives the objects it gives on the forest before,
    followed by one mesh of the canonical geometry of the kind at
    position and rotation (0,0,0) and scale (1,1,1); it throws when it
    threw before. *)
Theorem buildScene_after_add (F : forest) (newId : string) (t : PrimitiveType)
    (parent : list Object3D) :
  buildScene (addPrimitive newId t F) parent =
  (objs <- buildScene F parent ;;
   Ok (objs ++ [Mesh (canonical_geometry t) {| color := "white" |}
                     (0, 0, 0)%float (0, 0, 0)%float (1, 1, 1)%float])).
Proof.
  unfold addPrimitive. rewrite buildScene_app.
  destruct (buildScene F parent) as [objs|]; [|reflexivity].
  simpl bind. rewrite buildScene_cons, buildScene_cb_adds.
  now destruct t.
Qed.

(** ** 26. The rendered scene *)

Lemma Scene_fragment_eq (sel : option string) (comp : Component) :
  Scene_fragment sel comp =
  let prim :=
    match type comp with
    | group => []
    | primitive _ => [Primitive comp (id_is comp sel)]
    end in
  if (0 <? List.length (children comp))%nat then
    inner <- array_fragments (on_entry (Scene_fragment sel)) (children comp) ;;
    Ok (prim ++ [group_el inner])
  else Ok prim.
Proof. destruct comp; reflexivity. Qed.

Lemma object_of_Primitive (c : Component) (s : bool) :
  match type c with
  | group => []
  | primitive _ => [object_of (Primitive c s)]
  end = own_mesh c.
Proof. unfold own_mesh, Primitive. now destruct (type c) as [[]|]. Qed.

(** The fragments of a well-typed sibling sequence, next to the objects
    of [buildScene]. *)
Lemma Scene_fragments_objects (sel : option string) (l : forest) :
  well_typed l = true ->
  exists els objs,
    array_fragments (on_entry (Scene_fragment sel)) l = Ok els
    /\ buildScene l [] = Ok objs
    /\ map object_of els = objs
    /\ flat_map meshes_of els =
       flat_map (fun c => match type c with
                          | group => []
                          | primitive _ => [Primitive c (id_is c sel)]
                          end) (preorder l).
Proof.
  induction l as [| l IH | c l IHc IHl] using forest_ind; intros WT.
  - exists [], []. repeat split.
  - discriminate.
  - rewrite well_typed_cons in WT. apply andb_true_iff in WT as [WTc WTl].
    destruct (IHc WTc) as (inner & objsc & Hinner & Hobjsc & Minner & Pinner).
    destruct (IHl WTl) as (els & objs & Hels & Hobjs & Mels & Pels).
    cbn [array_fragments on_entry].
    rewrite Scene_fragment_eq, Hinner, Hels. cbv zeta.
    rewrite buildScene_cons, buildScene_cb_adds, Hobjsc, preorder_cons.
    cbn [flat_map]. rewrite flat_map_app, <- Pinner, <- Pels.
    pose proof (object_of_Primitive c (id_is c sel)) as Hprim.
    set (prim := match type c with
                 | group => []
                 | primitive _ => [Primitive c (id_is c sel)]
                 end) in *.
    assert (Hmap : map object_of prim = own_mesh c)
      by (rewrite <- Hprim; unfold prim; now destruct (type c)).
    assert (Hmesh : flat_map meshes_of prim = prim)
      by (unfold prim; now destruct (type c)).
    destruct (0 <? List.length (children c))%nat eqn:Hlen.
    + cbn [bind app]. rewrite buildScene_appends, Hobjs. cbn [bind].
      eexists. eexists. split; [reflexivity|]. split; [reflexivity|]. split.
      * rewrite !map_app, Hmap. cbn [map object_of].
        rewrite Minner, Mels. now rewrite <- app_assoc.
      * rewrite !flat_map_app, Hmesh. cbn [flat_map meshes_of].
        now rewrite app_nil_r, <- app_assoc.
    + assert (Hch : children c = [])
        by (destruct (children c); [reflexivity | discriminate]).
      rewrite Hch in Hinner. injection Hinner as <-.
      cbn [bind app]. rewrite buildScene_appends, Hobjs. cbn [bind].
      eexists. eexists. split; [reflexivity|]. split; [reflexivity|]. split.
      * now rewrite map_app, Hmap, Mels.
      * now rewrite flat_map_app, Hmesh.
Qed.

(** X12. What is rendered is what is exported: for a well-typed forest
    the element that [Scene] renders, with the colour, the shadow flags
    and the click handler of each mesh left out, is a group of exactly the
    objects that [buildScene] attaches to the export scene -- the same
    geometries and transforms in the same nesting. *)
Theorem Scene_matches_buildScene (F : forest) (sel : option string) :
  well_typed F = true ->
  exists e objs,
    Scene F sel = Ok e
    /\ buildScene F [] = Ok objs
    /\ object_of e = Group objs.
Proof.
  intros WT.
  destruct (Scene_fragments_objects sel F WT) as (els & objs & H & Hobjs & M & _).
  exists (group_el els), objs. unfold Scene. rewrite H.
  split; [reflexivity|]. split; [exact Hobjs|].
  simpl. now rewrite M.
Qed.

Lemma Scene_matches_buildScene_witness :
  exists e,
    Scene [Some (with_children (newComponent "a" cube)
                   [Some (newComponent "b" cone)])] (Some "b") = Ok e
    /\ object_of e =
       Group [Mesh (BoxGeometry 1 1 1)%float {| color := "white" |}
                   (0, 0, 0)%float (0, 0, 0)%float (1, 1, 1)%float;
              Group [Mesh (ConeGeometry 1 2 32)%float {| color := "white" |}
                          (0, 0, 0)%float (0, 0, 0)%float (1, 1, 1)%float]].
Proof.
  destruct (Scene_matches_buildScene
              [Some (with_children (newComponent "a" cube)
                       [Some (newComponent "b" cone)])] (Some "b") eq_refl)
    as (e & objs & He & Hobjs & Hm).
  exists e. split; [exact He|]. simpl in Hobjs. injection Hobjs as <-.
  exact Hm.
Defined.

Lemma is_gold_Primitive (c : Component) (s : bool) :
  is_gold (Primitive c s) = s.
Proof. now destruct s. Qed.

Lemma gold_none (sel : option string) (l : list Component) :
  (forall c, In c l -> id_is c sel = false) ->
  filter is_gold
    (flat_map (fun c => match type c with
                        | group => []
                        | primitive _ => [Primitive c (id_is c sel)]
                        end) l) = [].
Proof.
  induction l as [|c l IH]; intros H; [reflexivity|].
  cbn [flat_map]. rewrite filter_app, IH by (intros; apply H; now right).
  rewrite app_nil_r. destruct (type c); [|reflexivity].
  cbn [filter]. rewrite is_gold_Primitive, H; [reflexivity | now left].
Qed.

Lemma gold_at_most_one (sel : option string) (l : list Component) :
  NoDup (map id l) ->
  (List.length
     (filter is_gold
        (flat_map (fun c => match type c with
                            | group => []
                            | primitive _ => [Primitive c (id_is c sel)]
                            end) l)) <= 1)%nat.
Proof.
  induction l as [|c l IH]; intros N; [simpl; lia|].
  simpl map in N. apply NoDup_cons_iff in N as [Hc N].
  cbn [flat_map]. rewrite filter_app, length_app.
  destruct (id_is c sel) eqn:Ec.
  - rewrite gold_none.
    + destruct (type c); simpl; try rewrite Ec; simpl; lia.
    + intros c' Hin. destruct sel as [s|]; [|reflexivity].
      simpl in *. apply String.eqb_eq in Ec. apply String.eqb_neq.
      intros E. apply Hc. rewrite Ec, <- E. now apply in_map.
  - specialize (IH N).
    destruct (type c); simpl; try rewrite Ec; simpl; lia.
Qed.

(** X13. The highlight: for a well-typed forest [Scene] returns, and the
    meshes of what it renders are, depth first, exactly the [Primitive]
    elements of the leaf-kind nodes in pre-order, one for each and none
    for a group, each rendered as selected when its node has the
    selected id.  So a click on a mesh reports the id of its node; a
    mesh is gold exactly when that id is the selection; no mesh is gold
    when nothing is selected, and at most one is when the ids are
    unique. *)
Theorem Scene_highlight (F : forest) (sel : option string) :
  well_typed F = true ->
  exists e,
    Scene F sel = Ok e
    /\ meshes_of e =
       flat_map (fun c => match type c with
                          | group => []
                          | primitive _ => [Primitive c (id_is c sel)]
                          end) (preorder F)
    /\ (forall m, In m (meshes_of e) ->
          exists c, In c (preorder F) /\ clicked m = Some (id c)
                    /\ is_gold m = id_is c sel)
    /\ (forall c t, In c (preorder F) -> type c = primitive t ->
          exists m, In m (meshes_of e) /\ clicked m = Some (id c)
                    /\ is_gold m = id_is c sel)
    /\ (sel = None -> filter is_gold (meshes_of e) = [])
    /\ (NoDup (ids F) ->
        (List.length (filter is_gold (meshes_of e)) <= 1)%nat).
Proof.
  intros WT.
  destruct (Scene_fragments_objects sel F WT) as (els & objs & H & _ & _ & M).
  exists (group_el els). unfold Scene. rewrite H.
  split; [reflexivity|]. cbn [meshes_of]. rewrite M.
  split; [reflexivity|]. split; [|split; [|split]].
  - intros m Hin. apply in_flat_map in Hin as (c & Hc & Hm).
    exists c. split; [exact Hc|].
    destruct (type c); [|contradiction].
    destruct Hm as [<-|[]]. split; [reflexivity | apply is_gold_Primitive].
  - intros c t Hc Ht. exists (Primitive c (id_is c sel)).
    split; [|split; [reflexivity | apply is_gold_Primitive]].
    apply in_flat_map. exists c. split; [exact Hc|].
    rewrite Ht. now left.
  - intros ->. now apply gold_none.
  - intros N. now apply gold_at_most_one.
Qed.

Lemma Scene_highlight_witness :
  exists e,
    Scene [Some (newComponent "a" cube); Some (newComponent "b" cone)] (Some "b")
    = Ok e
    /\ meshes_of e = [Primitive (newComponent "a" cube) false;
                      Primitive (newComponent "b" cone) true]
    /\ (List.length (filter is_gold (meshes_of e)) <= 1)%nat.
Proof.
  destruct (Scene_highlight
              [Some (newComponent "a" cube); Some (newComponent "b" cone)]
              (Some "b") eq_refl) as (e & He & Hm & _ & _ & _ & Hgold).
  exists e. split; [exact He|]. split; [exact Hm|]. apply Hgold.
  repeat constructor; simpl; intuition discriminate.
Defined.

Lemma PropertyEditor_component_truthy (i : string) (model : forest) :
  i <> "" -> PropertyEditor_component (Some i) model = findComponentById model i.
Proof.
  intros Hi. unfold PropertyEditor_component, truthy.
  apply String.eqb_neq in Hi. now rewrite Hi.
Qed.

(** X14. A click resolves: for a well-typed forest with unique ids, the
    id that a click on a rendered mesh reports, taken as the selection,
    makes the property editor show the node of that mesh -- unless the id
    is the empty string, which [if (selectedComponentId)] takes for no
    selection. *)
Theorem click_resolves (F : forest) (sel : option string) :
  well_typed F = true -> NoDup (ids F) ->
  exists e,
    Scene F sel = Ok e
    /\ forall m i, In m (meshes_of e) -> clicked m = Some i ->
         exists c, In c (preorder F) /\ id c = i
                   /\ m = Primitive c (id_is c sel)
                   /\ (i <> "" ->
                       PropertyEditor_component (Some i) F = Ok (Some c))
                   /\ (i = "" ->
                       PropertyEditor_component (Some i) F = Ok None).
Proof.
  intros WT N.
  destruct (Scene_fragments_objects sel F WT) as (els & objs & H & _ & _ & M).
  exists (group_el els). unfold Scene. rewrite H.
  split; [reflexivity|]. cbn [meshes_of]. rewrite M.
  intros m i Hin Hclick. apply in_flat_map in Hin as (c & Hc & Hm).
  exists c. destruct (type c); [|contradiction].
  destruct Hm as [<-|[]]. simpl in Hclick. injection Hclick as <-.
  split; [exact Hc|]. split; [reflexivity|]. split; [reflexivity|]. split.
  - intros Hi. rewrite PropertyEditor_component_truthy by exact Hi.
    rewrite (findComponentById_find (id c) F WT). f_equal.
    now apply find_unique.
  - intros ->. reflexivity.
Qed.

Lemma click_resolves_witness :
  exists e c,
    Scene [Some (newComponent "a" cube); Some (newComponent "b" cone)] None = Ok e
    /\ id c = "b"
    /\ PropertyEditor_component (Some "b")
         [Some (newComponent "a" cube); Some (newComponent "b" cone)]
       = Ok (Some c).
Proof.
  destruct (click_resolves
              [Some (newComponent "a" cube); Some (newComponent "b" cone)]
              None eq_refl) as (e & He & Hclick).
  - repeat constructor; simpl; intuition discriminate.
  - pose proof He as He'. injection He' as <-.
    destruct (Hclick (Primitive (newComponent "b" cone) false) "b")
      as (c & _ & Hid & _ & Hres & _).
    + simpl. right. now left.
    + reflexivity.
    + eexists. exists c. split; [exact He|]. split; [exact Hid|].
      apply Hres. discriminate.
Defined.

(** ** 27. The model tree *)

Lemma ModelTree_li_eq (sel : option string)
    (w : option string -> Z -> Z -> ReorderCall) (len : nat)
    (comp : Component) (index : nat) :
  ModelTree_li sel w len comp index =
  (nested_list <-
     (if (0 <? List.length (children comp))%nat then
        items <- array_mapi_from
                   (fun entry i =>
                      on_entry
                        (fun c =>
                           ModelTree_li sel
                             (fun (parentId : option string) from to =>
                                w (Some (id comp)) from to)
                             (List.length (children comp)) c i)
                        entry)
                   (children comp) 0 ;;
        Ok (Some items)
      else Ok None) ;;
   Ok {| key := id comp;
         text := name comp ++ " (" ++ component_type_string (type comp) ++ ")";
         bold := id_is comp sel;
         up_disabled := (index =? 0)%nat;
         up_click := w None (Z.of_nat index) (Z.of_nat index - 1)%Z;
         down_disabled := (Z.of_nat index =? Z.of_nat len - 1)%Z;
         down_click := w None (Z.of_nat index) (Z.of_nat index + 1)%Z;
         nested := nested_list |}).
Proof. destruct comp; reflexivity. Qed.

(** The buttons of one item. *)
Lemma ModelTree_li_buttons (sel : option string)
    (w : option string -> Z -> Z -> ReorderCall) (len : nat)
    (comp : Component) (index : nat) (it : TreeItem) :
  ModelTree_li sel w len comp index = Ok it ->
  key it = id comp
  /\ up_disabled it = (index =? 0)%nat
  /\ up_click it = w None (Z.of_nat index) (Z.of_nat index - 1)%Z
  /\ down_disabled it = (Z.of_nat index =? Z.of_nat len - 1)%Z
  /\ down_click it = w None (Z.of_nat index) (Z.of_nat index + 1)%Z
  /\ (forall sub, nested it = Some sub ->
        array_mapi_from
          (fun entry i =>
             on_entry
               (fun c =>
                  ModelTree_li sel
                    (fun (parentId : option string) from to =>
                       w (Some (id comp)) from to)
                    (List.length (children comp)) c i)
               entry)
          (children comp) 0 = Ok sub)
  /\ (children comp = [] -> nested it = None).
Proof.
  rewrite ModelTree_li_eq. intros H.
  destruct (0 <? List.length (children comp))%nat eqn:Hlen.
  - destruct (array_mapi_from _ (children comp) 0) as [sub|]; [|discriminate].
    simpl in H. injection H as <-. simpl.
    repeat split; try reflexivity.
    + intros sub' E. now injection E as <-.
    + intros E. rewrite E in Hlen. discriminate.
  - simpl in H. injection H as <-. simpl.
    repeat split; try reflexivity. discriminate.
Qed.

(** The items of one level, rendered from index [k] on. *)
Lemma ModelTree_level (sel : option string)
    (w : option string -> Z -> Z -> ReorderCall) (len : nat) (l : forest) :
  forall k items,
    array_mapi_from
      (fun entry i => on_entry (fun c => ModelTree_li sel w len c i) entry)
      l k = Ok items ->
    List.length items = List.length l
    /\ forall j it, nth_error items j = Some it ->
         exists c, nth_error l j = Some (Some c)
                   /\ ModelTree_li sel w len c (k + j) = Ok it.
Proof.
  induction l as [|e l IH]; intros k items H; simpl in H.
  - injection H as <-. split; [reflexivity|]. intros [|j] it E; discriminate.
  - destruct e as [c|]; [|discriminate]. simpl in H.
    destruct (ModelTree_li sel w len c k) as [it0|] eqn:E0; [|discriminate].
    simpl in H.
    destruct (array_mapi_from _ l (S k)) as [items'|] eqn:E'; [|discriminate].
    simpl in H. injection H as <-.
    destruct (IH (S k) items' E') as [Hlen Hitems].
    split; [simpl; now rewrite Hlen|].
    intros [|j] it E; simpl in E.
    + injection E as <-. exists c. rewrite Nat.add_0_r. auto.
    + destruct (Hitems j it E) as (c' & Hc' & Hit).
      exists c'. split; [exact Hc'|].
      now replace (k + S j)%nat with (S k + j)%nat by lia.
Qed.

Lemma adjacent_up_swap {A} (l : list A) (i j : nat) :
  (0 < i)%nat -> (i < List.length l)%nat ->
  nth_error (list_move i (i - 1) l) j =
  nth_error l (if (j =? i - 1)%nat then i
               else if (j =? i)%nat then (i - 1)%nat else j).
Proof.
  intros H0 Hi. rewrite list_move_nth_error by lia. f_equal.
  unfold move_source.
  destruct (Nat.eqb_spec j (i - 1)), (Nat.eqb_spec j i), (Nat.leb_spec i j),
    (Nat.ltb_spec j (i - 1)), (Nat.ltb_spec (i - 1) j), (Nat.leb_spec j i);
    cbn [andb]; lia.
Qed.

Lemma adjacent_down_swap {A} (l : list A) (i j : nat) :
  (i + 1 < List.length l)%nat ->
  nth_error (list_move i (i + 1) l) j =
  nth_error l (if (j =? i + 1)%nat then i
               else if (j =? i)%nat then (i + 1)%nat else j).
Proof.
  intros Hi. rewrite list_move_nth_error by lia. f_equal.
  unfold move_source.
  destruct (Nat.eqb_spec j (i + 1)), (Nat.eqb_spec j i), (Nat.leb_spec i j),
    (Nat.ltb_spec j (i + 1)), (Nat.ltb_spec (i + 1) j), (Nat.leb_spec j i);
    cbn [andb]; lia.
Qed.

(** The buttons of the root items and what a click on an enabled one
    does. *)
Lemma ModelTree_root_item (F : forest) (sel : option string)
    (items : list TreeItem) (i : nat) (it : TreeItem) :
  App_ModelTree F sel = Ok items ->
  nth_error items i = Some it ->
  (i < List.length F)%nat
  /\ (exists c, nth_error F i = Some (Some c) /\ key it = id c
                /\ (children c = [] -> nested it = None))
  /\ up_click it = (None, Z.of_nat i, (Z.of_nat i - 1)%Z)
  /\ down_click it = (None, Z.of_nat i, (Z.of_nat i + 1)%Z)
  /\ (up_disabled it = false ->
      (0 < i)%nat
      /\ reorder None (Z.of_nat i) (Z.of_nat i - 1) F
         = Ok (list_move i (i - 1) F))
  /\ (down_disabled it = false ->
      (i + 1 < List.length F)%nat
      /\ reorder None (Z.of_nat i) (Z.of_nat i + 1) F
         = Ok (list_move i (i + 1) F)).
Proof.
  unfold App_ModelTree, ModelTree, array_mapi. intros H E.
  destruct (ModelTree_level _ _ _ F 0 items H) as [Hlen Hitems].
  destruct (Hitems i it E) as (c & Hc & Hit). simpl in Hit.
  destruct (ModelTree_li_buttons _ _ _ _ _ _ Hit)
    as (Hkey & Hud & Hup & Hdd & Hdown & _ & Hnone).
  pose proof (nth_error_lt _ _ _ Hc) as Hi.
  split; [exact Hi|]. split; [exists c; auto|].
  split; [exact Hup|]. split; [exact Hdown|]. split.
  - rewrite Hud. intros H0. apply Nat.eqb_neq in H0.
    split; [lia|]. unfold reorder. simpl not_parentId. cbv iota.
    replace (Z.of_nat i - 1)%Z with (Z.of_nat (i - 1)) by lia.
    rewrite reorderList_in_range by lia. reflexivity.
  - rewrite Hdd. intros H0. apply Z.eqb_neq in H0.
    split; [lia|]. unfold reorder. simpl not_parentId. cbv iota.
    replace (Z.of_nat i + 1)%Z with (Z.of_nat (i + 1)) by lia.
    rewrite reorderList_in_range by lia. reflexivity.
Qed.

(** X15. The buttons of the root items are safe: a click on an enabled
    up or down button of a root item of the model tree calls [reorder]
    with arguments on which it returns the forest with that root and its
    neighbour above or below exchanged -- a permutation of the roots,
    every other root in place. *)
Theorem root_buttons_swap (F : forest) (sel : option string)
    (items : list TreeItem) (i : nat) (it : TreeItem) :
  App_ModelTree F sel = Ok items ->
  nth_error items i = Some it ->
  (up_disabled it = false ->
   exists F',
     (let '(parentId, from, to) := up_click it in reorder parentId from to F)
     = Ok F'
     /\ Permutation F' F
     /\ forall j, nth_error F' j =
                  nth_error F (if (j =? i - 1)%nat then i
                               else if (j =? i)%nat then (i - 1)%nat else j))
  /\ (down_disabled it = false ->
      exists F',
        (let '(parentId, from, to) := down_click it in reorder parentId from to F)
        = Ok F'
        /\ Permutation F' F
        /\ forall j, nth_error F' j =
                     nth_error F (if (j =? i + 1)%nat then i
                                  else if (j =? i)%nat then (i + 1)%nat else j)).
Proof.
  intros H E.
  destruct (ModelTree_root_item F sel items i it H E)
    as (Hi & _ & Hup & Hdown & Hu & Hd).
  split.
  - intros Hen. destruct (Hu Hen) as [H0 Hre].
    exists (list_move i (i - 1) F). rewrite Hup. split; [exact Hre|].
    split; [apply Permutation_list_move|].
    intros j. now apply adjacent_up_swap.
  - intros Hen. destruct (Hd Hen) as [H1 Hre].
    exists (list_move i (i + 1) F). rewrite Hdown. split; [exact Hre|].
    split; [apply Permutation_list_move|].
    intros j. now apply adjacent_down_swap.
Qed.

Lemma root_buttons_swap_witness :
  exists F',
    reorder None 1 0 [Some (newComponent "a" cube); Some (newComponent "b" cone)]
    = Ok F'
    /\ Permutation F' [Some (newComponent "a" cube); Some (newComponent "b" cone)].
Proof.
  destruct (App_ModelTree
              [Some (newComponent "a" cube); Some (newComponent "b" cone)] None)
    as [items|] eqn:E; [|discriminate E].
  pose proof E as E'. vm_compute in E'. injection E' as <-.
  destruct (proj1 (root_buttons_swap
                     [Some (newComponent "a" cube); Some (newComponent "b" cone)]
                     None _ 1 _ E eq_refl) eq_refl) as (F' & H & P & _).
  exists F'. split; [exact H | exact P].
Defined.

Lemma item_at_nested (items : list TreeItem) (i j : nat) (rest : list nat) :
  item_at items (i :: j :: rest) =
  match nth_error items i with
  | Some it =>
      match nested it with
      | Some sub => item_at sub (j :: rest)
      | None => None
      end
  | None => None
  end.
Proof. reflexivity. Qed.

(** Below a wrapper that ignores the parent id it is given, every item
    calls with its own index in its own list, whatever the depth. *)
Lemma ModelTree_below (l : forest) :
  forall sel (w : option string -> Z -> Z -> ReorderCall)
         (g : Z -> Z -> ReorderCall) len k items,
    (forall p from to, w p from to = g from to) ->
    array_mapi_from
      (fun entry i => on_entry (fun c => ModelTree_li sel w len c i) entry)
      l k = Ok items ->
    forall path it,
      item_at items path = Some it ->
      exists index : nat,
        up_click it = g (Z.of_nat index) (Z.of_nat index - 1)%Z
        /\ down_click it = g (Z.of_nat index) (Z.of_nat index + 1)%Z
        /\ (forall j, path = [j] -> index = (k + j)%nat)
        /\ (forall j rest, path = j :: rest -> rest <> [] ->
              index = last rest 0%nat).
Proof.
  induction l as [| l IHl | c l IHc IHl] using forest_ind;
    intros sel w g len k items Hw H path it Hit; simpl in H.
  - injection H as H. subst items. destruct path as [|[|j] rest]; discriminate.
  - discriminate.
  - destruct (ModelTree_li sel w len c k) as [it0|] eqn:E0; [|discriminate].
    simpl in H.
    destruct (array_mapi_from _ l (S k)) as [items'|] eqn:E'; [|discriminate].
    simpl in H. injection H as H. subst items.
    destruct (ModelTree_li_buttons _ _ _ _ _ _ E0)
      as (_ & _ & Hup & _ & Hdown & Hsub & _).
    destruct path as [|j rest]; [discriminate|].
    destruct j as [|j].
    + destruct rest as [|j' rest'].
      * simpl in Hit. injection Hit as <-. exists k.
        rewrite Hup, Hdown, !Hw. repeat split.
        -- intros j E. injection E as E. subst j. lia.
        -- intros j rest E Hne. injection E as _ E. subst rest. now elim Hne.
      * simpl in Hit. destruct (nested it0) as [sub|] eqn:En; [|discriminate].
        destruct (IHc sel (fun _ from to => w (Some (id c)) from to) g
                      (List.length (children c)) 0%nat sub
                      (fun _ from to => Hw _ from to) (Hsub sub eq_refl)
                      (j' :: rest') it Hit)
          as (index & Hu & Hd & H1 & H2).
        exists index. split; [exact Hu|]. split; [exact Hd|]. split.
        -- intros j E. discriminate.
        -- intros j rest E Hne. injection E as _ E. subst rest.
           destruct rest' as [|j'' rest''].
           ++ rewrite (H1 j' eq_refl). reflexivity.
           ++ rewrite (H2 j' (j'' :: rest'') eq_refl) by discriminate.
              reflexivity.
    + assert (Hit' : item_at items' (j :: rest) = Some it) by exact Hit.
      destruct (IHl sel w g len (S k) items' Hw E' (j :: rest) it Hit')
        as (index & Hu & Hd & H1 & H2).
      exists index. split; [exact Hu|]. split; [exact Hd|]. split.
      * intros j0 E. injection E as E1 E2. subst j0 rest.
        rewrite (H1 j eq_refl). lia.
      * intros j0 rest0 E Hne. injection E as E1 E2. subst j0 rest0.
        exact (H2 j rest eq_refl Hne).
Qed.

(** X16. The buttons of a nested item of the model tree, at whatever
    depth below a root, call [reorder] with the id of that root as
    [parentId] and with the item's index in its own list and the index
    before or after it. *)
Theorem nested_buttons_root_ancestor (F : forest) (sel : option string)
    (items : list TreeItem) (i : nat) (rest : list nat) (it : TreeItem) :
  App_ModelTree F sel = Ok items ->
  item_at items (i :: rest) = Some it ->
  rest <> [] ->
  exists root,
    nth_error F i = Some (Some root)
    /\ up_click it
       = (Some (id root), Z.of_nat (last rest 0%nat),
          (Z.of_nat (last rest 0%nat) - 1)%Z)
    /\ down_click it
       = (Some (id root), Z.of_nat (last rest 0%nat),
          (Z.of_nat (last rest 0%nat) + 1)%Z).
Proof.
  unfold App_ModelTree, ModelTree, array_mapi. intros H Hit Hne.
  destruct (ModelTree_level _ _ _ F 0%nat items H) as [_ Hitems].
  destruct rest as [|j rest]; [now elim Hne|].
  rewrite item_at_nested in Hit.
  destruct (nth_error items i) as [it0|] eqn:E0; [|discriminate].
  destruct (Hitems i it0 E0) as (root & Hroot & Hli).
  destruct (ModelTree_li_buttons _ _ _ _ _ _ Hli)
    as (_ & _ & _ & _ & _ & Hsub & _).
  destruct (nested it0) as [sub|] eqn:En; [|discriminate].
  destruct (ModelTree_below (children root) sel _
              (fun from to => (Some (id root), from, to))
              _ 0%nat sub (fun _ _ _ => eq_refl) (Hsub sub eq_refl)
              (j :: rest) it Hit)
    as (index & Hu & Hd & H1 & H2).
  assert (Hidx : index = last (j :: rest) 0%nat).
  { destruct rest as [|j' rest'].
    - rewrite (H1 j eq_refl). reflexivity.
    - rewrite (H2 j (j' :: rest') eq_refl) by discriminate. reflexivity. }
  subst index. exists root. auto.
Qed.

Lemma nested_buttons_root_ancestor_witness :
  exists items it,
    App_ModelTree
      [Some (with_children (newComponent "A" cube)
               [Some (with_children (newComponent "B" cube)
                        [Some (newComponent "C" cube);
                         Some (newComponent "D" cube)])])] None = Ok items
    /\ item_at items [0; 0; 1]%nat = Some it
    /\ up_click it = (Some "A", 1%Z, 0%Z).
Proof.
  destruct (App_ModelTree
              [Some (with_children (newComponent "A" cube)
                       [Some (with_children (newComponent "B" cube)
                                [Some (newComponent "C" cube);
                                 Some (newComponent "D" cube)])])] None)
    as [items|] eqn:E; [|discriminate E].
  pose proof E as E'. vm_compute in E'. injection E' as <-.
  destruct (nested_buttons_root_ancestor _ None _ 0%nat [0; 1]%nat _ E eq_refl)
    as (root & Hroot & Hup & _); [discriminate|].
  injection Hroot as <-.
  eexists. eexists. split; [reflexivity|]. split; [reflexivity|]. exact Hup.
Defined.

(** ** 28. The form of the property editor *)

(** What the form shows is a node of the model carrying the selected
    id, and the selection is a non-empty string. *)
Lemma PropertyEditor_component_shown (sel : option string) (F : forest)
    (c : Component) :
  well_typed F = true ->
  PropertyEditor_component sel F = Ok (Some c) ->
  exists i, sel = Some i /\ i <> "" /\ id c = i
            /\ findComponentById F i = Ok (Some c)
            /\ In c (preorder F).
Proof.
  intros WT H. destruct sel as [i|]; [|discriminate].
  unfold PropertyEditor_component, truthy in H.
  destruct (String.eqb_spec i ""); [discriminate|]. simpl in H.
  exists i. split; [reflexivity|]. split; [assumption|].
  pose proof H as H'. rewrite (findComponentById_find i F WT) in H'.
  injection H' as H'. apply find_some in H' as [Hin Heq].
  apply String.eqb_eq in Heq. auto.
Qed.

(** Every input of the form leaves the id, the kind and the children of
    the component as they are. *)
Lemma handleInputChange_form (parseFloat : string -> number)
    (c : Component) (name0 value : string) :
  In name0 input_names ->
  exists updated,
    handleInputChange parseFloat c name0 value = Some updated
    /\ id updated = id c /\ type updated = type c
    /\ children updated = children c.
Proof.
  intros H. simpl in H.
  repeat (destruct H as [<-|H]); [..|contradiction];
    (eexists; split; [reflexivity|]; auto).
Qed.

(** The nine number inputs: one axis of one triple. *)
Lemma handleInputChange_axis (parseFloat : string -> number)
    (c : Component) (value : string) (a : nat) :
  (a < 3)%nat ->
  handleInputChange parseFloat c ("position." ++ nth a ["x"; "y"; "z"] "")%string value
  = Some {| id := id c; name := name c; type := type c;
            position := set_axis a (parseFloat value) (position c);
            rotation := rotation c; scale := scale c;
            children := children c |}
  /\ handleInputChange parseFloat c ("rotation." ++ nth a ["x"; "y"; "z"] "")%string value
     = Some {| id := id c; name := name c; type := type c;
               position := position c;
               rotation := set_axis a (parseFloat value) (rotation c);
               scale := scale c; children := children c |}
  /\ handleInputChange parseFloat c ("scale." ++ nth a ["x"; "y"; "z"] "")%string value
     = Some {| id := id c; name := name c; type := type c;
               position := position c; rotation := rotation c;
               scale := set_axis a (parseFloat value) (scale c);
               children := children c |}.
Proof.
  intros Ha. destruct a as [|[|[|a]]]; [..|lia]; repeat split; reflexivity.
Qed.

Lemma well_typed_In_preorder (l : forest) :
  well_typed l = true ->
  forall c, In c (preorder l) -> well_typed (children c) = true.
Proof.
  induction l as [| l IH | c0 l IHc IHl] using forest_ind; intros WT c Hin.
  - contradiction.
  - discriminate.
  - rewrite well_typed_cons in WT. apply andb_true_iff in WT as [WTc WTl].
    rewrite preorder_cons in Hin. destruct Hin as [<-|Hin]; [exact WTc|].
    apply in_app_or in Hin as [Hin|Hin]; auto.
Qed.

Lemma updateRecursive_well_typed (u : Component) (l : forest) :
  well_typed l = true -> well_typed (children u) = true ->
  forall l', updateRecursive u l = Ok l' -> well_typed l' = true.
Proof.
  intros WT WTu. revert WT.
  induction l as [| l IH | c l IHc IHl] using forest_ind; intros WT l' H.
  - injection H as H. now subst l'.
  - discriminate.
  - rewrite well_typed_cons in WT. apply andb_true_iff in WT as [WTc WTl].
    rewrite updateRecursive_cons, updateRecursive_cb_eq in H.
    destruct (String.eqb (id c) (id u)).
    + simpl in H. destruct (updateRecursive u l) as [l2|] eqn:E2; [|discriminate].
      simpl in H. injection H as H. subst l'.
      rewrite well_typed_cons, WTu. simpl. now apply IHl.
    + destruct (0 <? List.length (children c))%nat.
      * destruct (updateRecursive u (children c)) as [ch|] eqn:E1;
          [|discriminate]. simpl in H.
        destruct (updateRecursive u l) as [l2|] eqn:E2; [|discriminate].
        simpl in H. injection H as H. subst l'.
        rewrite well_typed_cons, children_with_children.
        rewrite (IHc WTc ch eq_refl). simpl. now apply IHl.
      * simpl in H.
        destruct (updateRecursive u l) as [l2|] eqn:E2; [|discriminate].
        simpl in H. injection H as H. subst l'.
        rewrite well_typed_cons, WTc. simpl. now apply IHl.
Qed.

(** An edit through the form, on a forest with unique ids. *)
Lemma form_edit (parseFloat : string -> number) (F : forest)
    (sel : option string) (c : Component) (name0 value : string) :
  well_typed F = true -> NoDup (ids F) ->
  PropertyEditor_component sel F = Ok (Some c) ->
  In name0 input_names ->
  exists updated F',
    handleInputChange parseFloat c name0 value = Some updated
    /\ updateComponent updated F = Ok F'
    /\ PropertyEditor_component sel F' = Ok (Some updated)
    /\ ids F' = ids F
    /\ well_typed F' = true
    /\ type updated = type c.
Proof.
  intros WT N Hshown Hname.
  destruct (PropertyEditor_component_shown sel F c WT Hshown)
    as (i & -> & Hi & Hid & Hfind & Hin).
  destruct (handleInputChange_form parseFloat c name0 value Hname)
    as (u & Hu & Huid & Hutype & Huch).
  destruct (updateRecursive_total u F WT) as [F' HF'].
  assert (Hcount : count_occ string_dec (ids F) (id u) = 1%nat).
  { rewrite Huid, Hid. apply NoDup_count_occ'; [exact N|].
    exact (findComponentById_Some_in i F c Hfind). }
  exists u, F'. split; [exact Hu|]. split; [exact HF'|]. split.
  - rewrite PropertyEditor_component_truthy by exact Hi.
    rewrite <- Hid, <- Huid. exact (updateRecursive_find u F WT Hcount F' HF').
  - split; [|split; [|exact Hutype]].
    + apply (updateRecursive_same_children_ids u F F' c N); auto.
      now rewrite Huid, Hid.
    + apply (updateRecursive_well_typed u F WT); [|exact HF'].
      rewrite Huch. exact (well_typed_In_preorder F WT c Hin).
Qed.

(** X17. The form follows an edit: on a well-typed forest with unique
    ids, a change of any of the ten inputs of the form is stored by
    [updateComponent], the editor then shows the changed component under
    the same selection, and the ids of the forest -- so their
    uniqueness too -- and its well-typedness are kept, so the next
    edit finds the same. *)
Theorem form_edit_follows (parseFloat : string -> number) (F : forest)
    (sel : option string) (c : Component) (name0 value : string) :
  well_typed F = true -> NoDup (ids F) ->
  PropertyEditor_component sel F = Ok (Some c) ->
  In name0 input_names ->
  exists updated F',
    handleInputChange parseFloat c name0 value = Some updated
    /\ updateComponent updated F = Ok F'
    /\ PropertyEditor_component sel F' = Ok (Some updated)
    /\ ids F' = ids F
    /\ well_typed F' = true.
Proof.
  intros WT N Hshown Hname.
  destruct (form_edit parseFloat F sel c name0 value WT N Hshown Hname)
    as (u & F' & H1 & H2 & H3 & H4 & H5 & _).
  exists u, F'. auto.
Qed.

Lemma form_edit_follows_witness :
  exists updated F',
    handleInputChange (fun _ => 2%float) (newComponent "a" cube) "scale.y" "2"
    = Some updated
    /\ updateComponent updated
         [Some (newComponent "b" cone); Some (newComponent "a" cube)] = Ok F'
    /\ PropertyEditor_component (Some "a") F' = Ok (Some updated)
    /\ ids F' = ["b"; "a"]
    /\ well_typed F' = true.
Proof.
  apply (form_edit_follows (fun _ => 2%float)
           [Some (newComponent "b" cone); Some (newComponent "a" cube)]
           (Some "a") (newComponent "a" cube) "scale.y" "2").
  - reflexivity.
  - repeat constructor; simpl; intuition discriminate.
  - reflexivity.
  - simpl. auto 10.
Defined.

(** X18. An edit reaches the export: after a change of a number input
    of the form of a leaf-kind node, [buildScene] on the stored forest
    yields a scene that has the mesh of that node with the parsed value
    on the edited axis and the other eight numbers as before. *)
Theorem edit_reaches_export (parseFloat : string -> number) (F : forest)
    (sel : option string) (c : Component) (k : PrimitiveType)
    (value : string) (a : nat) :
  well_typed F = true -> NoDup (ids F) ->
  PropertyEditor_component sel F = Ok (Some c) ->
  type c = primitive k ->
  (a < 3)%nat ->
  exists updated F' objs,
    handleInputChange parseFloat c ("position." ++ nth a ["x"; "y"; "z"] "")%string
      value = Some updated
    /\ updateComponent updated F = Ok F'
    /\ buildScene F' [] = Ok objs
    /\ In (Mesh (canonical_geometry k) {| color := "white" |}
                (set_axis a (parseFloat value) (position c))
                (rotation c) (scale c))
          (scene_meshes objs).
Proof.
  intros WT N Hshown Htype Ha.
  assert (Hname : In ("position." ++ nth a ["x"; "y"; "z"] "")%string input_names).
  { destruct a as [|[|[|a]]]; [..|lia]; simpl; auto 10. }
  destruct (form_edit parseFloat F sel c _ value WT N Hshown Hname)
    as (u & F' & H1 & H2 & H3 & H4 & H5 & H6).
  destruct (buildScene_meshes F' H5) as (objs & Hobjs & Hmeshes).
  exists u, F', objs. split; [exact H1|]. split; [exact H2|].
  split; [exact Hobjs|].
  destruct (PropertyEditor_component_shown sel F' u H5 H3)
    as (_ & _ & _ & _ & _ & Hin).
  rewrite Hmeshes. apply in_flat_map. exists u. split; [exact Hin|].
  destruct (handleInputChange_axis parseFloat c value a Ha) as [Hpos _].
  rewrite Hpos in H1. injection H1 as <-.
  unfold own_mesh. simpl type. rewrite Htype. simpl. auto.
Qed.

Lemma edit_reaches_export_witness :
  exists updated F' objs,
    handleInputChange (fun _ => 2%float) (newComponent "a" cube) "position.z"
      "2" = Some updated
    /\ updateComponent updated
         [Some (newComponent "b" cone); Some (newComponent "a" cube)] = Ok F'
    /\ buildScene F' [] = Ok objs
    /\ In (Mesh (BoxGeometry 1 1 1)%float {| color := "white" |}
                (0, 0, 2)%float (0, 0, 0)%float (1, 1, 1)%float)
          (scene_meshes objs).
Proof.
  apply (edit_reaches_export (fun _ => 2%float)
           [Some (newComponent "b" cone); Some (newComponent "a" cube)]
           (Some "a") (newComponent "a" cube) cube "2" 2).
  - reflexivity.
  - repeat constructor; simpl; intuition discriminate.
  - reflexivity.
  - reflexivity.
  - lia.
Defined.

(** ** 29. When rendering throws *)

Lemma Scene_ill_typed (sel : option string) (l : forest) :
  well_typed l = false ->
  array_fragments (on_entry (Scene_fragment sel)) l = TypeError.
Proof.
  induction l as [| l IH | c l IHc IHl] using forest_ind; intros WT.
  - discriminate.
  - reflexivity.
  - rewrite well_typed_cons in WT.
    cbn [array_fragments on_entry]. rewrite Scene_fragment_eq. cbv zeta.
    destruct (well_typed (children c)) eqn:WTc.
    + destruct (Scene_fragments_objects sel _ WTc) as (inner & _ & Hinner & _).
      rewrite Hinner. simpl in WT. rewrite (IHl WT).
      destruct (0 <? List.length (children c))%nat; reflexivity.
    + assert (Hlen : (0 <? List.length (children c))%nat = true)
        by (destruct (children c); [discriminate | reflexivity]).
      rewrite Hlen, (IHc eq_refl). reflexivity.
Qed.

Lemma ModelTree_total (l : forest) :
  well_typed l = true ->
  forall sel (w : option string -> Z -> Z -> ReorderCall) len k,
  exists items,
    array_mapi_from
      (fun entry i => on_entry (fun c => ModelTree_li sel w len c i) entry)
      l k = Ok items.
Proof.
  induction l as [| l IH | c l IHc IHl] using forest_ind;
    intros WT sel w len k.
  - exists []. reflexivity.
  - discriminate.
  - rewrite well_typed_cons in WT. apply andb_true_iff in WT as [WTc WTl].
    cbn [array_mapi_from on_entry]. rewrite ModelTree_li_eq.
    destruct (IHc WTc sel (fun _ from to => w (Some (id c)) from to)
                  (List.length (children c)) 0%nat) as [sub Hsub].
    destruct (IHl WTl sel w len (S k)) as [items Hitems].
    rewrite Hsub, Hitems.
    destruct (0 <? List.length (children c))%nat; eexists; reflexivity.
Qed.

Lemma ModelTree_ill_typed (l : forest) :
  well_typed l = false ->
  forall sel (w : option string -> Z -> Z -> ReorderCall) len k,
    array_mapi_from
      (fun entry i => on_entry (fun c => ModelTree_li sel w len c i) entry)
      l k = TypeError.
Proof.
  induction l as [| l IH | c l IHc IHl] using forest_ind;
    intros WT sel w len k.
  - discriminate.
  - reflexivity.
  - rewrite well_typed_cons in WT.
    cbn [array_mapi_from on_entry]. rewrite ModelTree_li_eq.
    destruct (well_typed (children c)) eqn:WTc.
    + destruct (ModelTree_total _ WTc sel
                  (fun _ from to => w (Some (id c)) from to)
                  (List.length (children c)) 0%nat) as [sub Hsub].
      rewrite Hsub. simpl in WT. rewrite (IHl WT sel w len (S k)).
      destruct (0 <? List.length (children c))%nat; reflexivity.
    + assert (Hlen : (0 <? List.length (children c))%nat = true)
        by (destruct (children c); [discriminate | reflexivity]).
      rewrite Hlen, (IHc eq_refl). reflexivity.
Qed.

(** X19. Rendering throws exactly on the forests on which [buildScene]
    throws: [Scene] and the model tree of [App] end in a [TypeError]
    when the forest has an [undefined] entry at some depth, and return
    otherwise, whatever the selection. *)
Theorem render_throws_iff (F : forest) (sel : option string) :
  (Scene F sel = TypeError <-> well_typed F = false)
  /\ (App_ModelTree F sel = TypeError <-> well_typed F = false).
Proof.
  split; split.
  - intros H. destruct (well_typed F) eqn:WT; [|reflexivity].
    destruct (Scene_fragments_objects sel F WT) as (els & _ & Hels & _).
    unfold Scene in H. rewrite Hels in H. discriminate.
  - intros WT. unfold Scene. now rewrite (Scene_ill_typed sel F WT).
  - intros H. destruct (well_typed F) eqn:WT; [|reflexivity].
    destruct (ModelTree_total F WT sel
                (fun parentId from to => (parentId, from, to))
                (List.length F) 0%nat) as [items Hitems].
    unfold App_ModelTree, ModelTree, array_mapi in H.
    rewrite Hitems in H. discriminate.
  - intros WT. unfold App_ModelTree, ModelTree, array_mapi.
    now apply ModelTree_ill_typed.
Qed.

(** X20. One click too far leaves a model that cannot be shown: a call
    of [reorder] on the root sequence with [fromIndex] at or beyond its
    length returns a forest on which [Scene], the model tree and
    [buildScene] all throw. *)
Theorem reorder_beyond_breaks_render (F : forest) (parentId : option string)
    (fromIndex toIndex : Z) (sel : option string)
    (parent : list Object3D) :
  not_parentId parentId = true ->
  (Z.of_nat (List.length F) <= fromIndex)%Z ->
  exists F',
    reorder parentId fromIndex toIndex F = Ok F'
    /\ Scene F' sel = TypeError
    /\ App_ModelTree F' sel = TypeError
    /\ buildScene F' parent = TypeError.
Proof.
  intros Hp Hfrom. unfold reorder. rewrite Hp.
  eexists. split; [reflexivity|].
  assert (WT : well_typed (reorderList fromIndex toIndex F) = false).
  { destruct (reorderList_cases F fromIndex toIndex) as [_ Hadd].
    destruct (well_typed (reorderList fromIndex toIndex F)) eqn:WT;
      [|reflexivity].
    pose proof (well_typed_Permutation _ _ (Hadd (or_intror Hfrom)) WT).
    discriminate. }
  split; [|split].
  - unfold Scene. now rewrite (Scene_ill_typed sel _ WT).
  - unfold App_ModelTree, ModelTree, array_mapi.
    now apply ModelTree_ill_typed.
  - now apply buildScene_ill_typed.
Qed.

Lemma reorder_beyond_breaks_render_witness :
  exists F',
    reorder None 1 0 [Some (newComponent "a" cube)] = Ok F'
    /\ Scene F' None = TypeError
    /\ App_ModelTree F' None = TypeError
    /\ buildScene F' [] = TypeError.
Proof.
  apply (reorder_beyond_breaks_render [Some (newComponent "a" cube)] None
           1 0 None []).
  - reflexivity.
  - simpl. lia.
Defined.

(** ** 30. Sessions of the user interface *)

Lemma flat_cons (e : option Component) (l : forest) :
  flat (e :: l) =
  match e with
  | None => false
  | Some c =>
      match type c, children c with
      | primitive _, [] => true
      | _, _ => false
      end
  end && flat l.
Proof. reflexivity. Qed.

Lemma flat_In (F : forest) (e : option Component) :
  flat F = true -> In e F ->
  exists c k, e = Some c /\ type c = primitive k /\ children c = [].
Proof.
  unfold flat. intros H Hin.
  pose proof (proj1 (forallb_forall _ F) H e Hin) as He.
  destruct e as [c|]; [|discriminate].
  destruct (type c) as [k|] eqn:Ht; [|discriminate].
  destruct (children c) eqn:Hc; [|discriminate].
  exists c, k. auto.
Qed.

Lemma flat_Permutation (l l' : forest) :
  Permutation l l' -> flat l = true -> flat l' = true.
Proof.
  unfold flat. intros P H. apply forallb_forall. intros e Hin.
  apply (proj1 (forallb_forall _ l) H).
  exact (Permutation_in e (Permutation_sym P) Hin).
Qed.

Lemma flat_well_typed (F : forest) : flat F = true -> well_typed F = true.
Proof.
  induction F as [|[c|] F IH]; intros H; [reflexivity| |discriminate].
  rewrite flat_cons in H. apply andb_true_iff in H as [Hc HF].
  destruct (type c); [|discriminate].
  destruct (children c) eqn:Hch; [|discriminate].
  rewrite well_typed_cons, Hch. simpl. now apply IH.
Qed.

Lemma flat_preorder (F : forest) (c : Component) :
  flat F = true -> In c (preorder F) -> In (Some c) F.
Proof.
  induction F as [|[c0|] F IH]; intros H Hin; [contradiction| |discriminate].
  rewrite flat_cons in H. apply andb_true_iff in H as [Hc HF].
  destruct (type c0); [|discriminate].
  destruct (children c0) eqn:Hch; [|discriminate].
  rewrite preorder_cons, Hch in Hin. simpl in Hin.
  destruct Hin as [<-|Hin]; [now left | right; now apply IH].
Qed.

(** On a flat forest [updateComponent] with a childless leaf returns a
    flat forest with the same ids, repeated ids included. *)
Lemma flat_updateRecursive (u : Component) (k : PrimitiveType) (F : forest) :
  type u = primitive k -> children u = [] -> flat F = true ->
  exists F', updateRecursive u F = Ok F' /\ flat F' = true /\ ids F' = ids F.
Proof.
  intros Ht Hch.
  induction F as [|[c|] F IH]; intros H; [now exists []| |discriminate].
  rewrite flat_cons in H. apply andb_true_iff in H as [Hc HF].
  destruct (IH HF) as (F' & HF' & Hflat & Hids).
  rewrite updateRecursive_cons, updateRecursive_cb_eq, HF'.
  destruct (type c) as [kc|] eqn:Htc; [|discriminate].
  destruct (children c) eqn:Hcc; [|discriminate].
  destruct (String.eqb_spec (id c) (id u)) as [E|E].
  - exists (Some u :: F'). split; [reflexivity|]. split.
    + now rewrite flat_cons, Ht, Hch, Hflat.
    + now rewrite !ids_cons, Hch, Hcc, Hids, E.
  - exists (Some c :: F'). split; [reflexivity|]. split.
    + now rewrite flat_cons, Htc, Hcc, Hflat.
    + now rewrite !ids_cons, Hids.
Qed.

(** The tree of a flat forest has root items only. *)
Lemma flat_items (F : forest) (sel : option string) (items : list TreeItem)
    (path : list nat) (it : TreeItem) :
  flat F = true ->
  App_ModelTree F sel = Ok items ->
  item_at items path = Some it ->
  exists i, path = [i] /\ nth_error items i = Some it.
Proof.
  intros Hflat H Hit.
  destruct path as [|i [|j rest]]; [discriminate| |].
  - exists i. split; [reflexivity|]. simpl in Hit.
    now destruct (nth_error items i).
  - exfalso. rewrite item_at_nested in Hit.
    destruct (nth_error items i) as [it0|] eqn:E0; [|discriminate].
    destruct (ModelTree_root_item F sel items i it0 H E0)
      as (_ & (c & Hc & _ & Hnone) & _).
    destruct (flat_In F (Some c) Hflat (nth_error_In _ _ Hc))
      as (c' & k & Heq & _ & Hch).
    injection Heq as <-. rewrite (Hnone Hch) in Hit. discriminate.
Qed.

(** One event keeps the model flat and the selection among its ids. *)
Lemma ui_step_invariant (parseFloat : string -> number) (st st' : AppState) :
  ui_step parseFloat st st' ->
  flat (fst st) = true /\ (forall i, snd st = Some i -> In i (ids (fst st))) ->
  flat (fst st') = true
  /\ (forall i, snd st' = Some i -> In i (ids (fst st'))).
Proof.
  intros Hstep [Hflat Hsel].
  destruct Hstep as
    [ model sel newId t
    | model sel i Hi
    | model sel
    | model sel component name0 value updated model' Hshown Hname Hchange Hupd
    | model sel items path item parentId from to model' Htree Hitem Hen Hclick Hre
    | model sel items path item parentId from to model' Htree Hitem Hen Hclick Hre ];
    cbn [fst snd] in *.
  - split.
    + unfold addPrimitive, flat. rewrite forallb_app. fold (flat model).
      now rewrite Hflat.
    + intros i Hi. unfold addPrimitive. rewrite ids_app.
      apply in_or_app. left. auto.
  - split; [assumption|]. intros i' E. now injection E as <-.
  - split; [assumption|]. discriminate.
  - destruct (PropertyEditor_component_shown sel model component
                (flat_well_typed _ Hflat) Hshown)
      as (i & _ & _ & _ & _ & Hin).
    destruct (flat_In model (Some component) Hflat
                (flat_preorder _ _ Hflat Hin)) as (c & k & Heq & Ht & Hch).
    injection Heq as <-.
    destruct (handleInputChange_form parseFloat component name0 value Hname)
      as (u & Hu & _ & Hut & Huch).
    rewrite Hchange in Hu. injection Hu as <-.
    rewrite Ht in Hut. rewrite Hch in Huch.
    destruct (flat_updateRecursive updated k model Hut Huch Hflat)
      as (F' & HF' & Hflat' & Hids).
    unfold updateComponent in Hupd. rewrite HF' in Hupd.
    injection Hupd as <-. split; [assumption|]. now rewrite Hids.
  - destruct (flat_items model sel items path item Hflat Htree Hitem)
      as (i & _ & Hnth).
    destruct (ModelTree_root_item model sel items i item Htree Hnth)
      as (_ & _ & Hup & _ & Hu & _).
    destruct (Hu Hen) as [_ Hmove].
    rewrite Hup in Hclick. injection Hclick as <- <- <-.
    rewrite Hmove in Hre. injection Hre as <-.
    pose proof (Permutation_list_move i (i - 1) model) as P.
    split; [exact (flat_Permutation _ _ (Permutation_sym P) Hflat)|].
    intros i' E.
    exact (Permutation_in i' (ids_Permutation _ _ (Permutation_sym P))
             (Hsel i' E)).
  - destruct (flat_items model sel items path item Hflat Htree Hitem)
      as (i & _ & Hnth).
    destruct (ModelTree_root_item model sel items i item Htree Hnth)
      as (_ & _ & _ & Hdown & _ & Hd).
    destruct (Hd Hen) as [_ Hmove].
    rewrite Hdown in Hclick. injection Hclick as <- <- <-.
    rewrite Hmove in Hre. injection Hre as <-.
    pose proof (Permutation_list_move i (i + 1) model) as P.
    split; [exact (flat_Permutation _ _ (Permutation_sym P) Hflat)|].
    intros i' E.
    exact (Permutation_in i' (ids_Permutation _ _ (Permutation_sym P))
             (Hsel i' E)).
Qed.

Lemma ui_reachable_invariant (parseFloat : string -> number) (st : AppState) :
  ui_reachable parseFloat st ->
  flat (fst st) = true /\ (forall i, snd st = Some i -> In i (ids (fst st))).
Proof.
  induction 1 as [|st st' _ IH Hstep].
  - split; [reflexivity | discriminate].
  - exact (ui_step_invariant parseFloat st st' Hstep IH).
Qed.

Lemma flat_buildScene (F : forest) :
  flat F = true ->
  exists objs,
    buildScene F [] = Ok objs
    /\ List.length objs = List.length F
    /\ scene_meshes objs = objs.
Proof.
  induction F as [|[c|] F IH]; intros H; [now exists []| |discriminate].
  rewrite flat_cons in H. apply andb_true_iff in H as [Hc HF].
  destruct (IH HF) as (objs & Hobjs & Hlen & Hmesh).
  destruct (type c) as [k|] eqn:Ht; [|discriminate].
  destruct (children c) eqn:Hch; [|discriminate].
  rewrite buildScene_cons, buildScene_cb_adds, Hch. cbn [List.length Nat.ltb Nat.leb bind].
  rewrite buildScene_appends, Hobjs. cbn [bind app].
  unfold own_mesh. rewrite Ht. cbn [app].
  eexists. split; [reflexivity|]. split.
  - simpl. now rewrite Hlen.
  - unfold scene_meshes in *. cbn [flat_map scene_meshes_of app].
    now rewrite Hmesh.
Qed.

(** X21. What a session can reach: from the empty model, whatever the
    add buttons, clicks on meshes and tree items, changes of the form
    and enabled tree buttons, the model is a sequence of leaf shapes
    without children -- no group, no nested node, no [undefined]
    entry -- and the selection, when there is one, is the id of a node
    of the model. *)
Theorem ui_session_flat (parseFloat : string -> number) (model : forest)
    (sel : option string) :
  ui_reachable parseFloat (model, sel) ->
  flat model = true
  /\ well_typed model = true
  /\ (forall i, sel = Some i -> In i (ids model)).
Proof.
  intros H.
  destruct (ui_reachable_invariant parseFloat _ H) as [Hflat Hsel].
  split; [exact Hflat|]. split; [exact (flat_well_typed _ Hflat)|].
  exact Hsel.
Qed.

Lemma ui_session_flat_witness :
  flat [Some (newComponent "a" cube)] = true
  /\ well_typed [Some (newComponent "a" cube)] = true
  /\ (forall i, Some "a" = Some i -> In i (ids [Some (newComponent "a" cube)])).
Proof.
  apply (ui_session_flat (fun _ => 0%float)).
  apply (ui_next _ ([Some (newComponent "a" cube)], None)).
  - apply (ui_next _ ([], None)); [apply ui_start|].
    exact (ui_add _ [] None "a" cube).
  - apply ui_select. simpl. auto.
Defined.

Lemma flat_preorder_eq (F : forest) :
  flat F = true -> map Some (preorder F) = F.
Proof.
  induction F as [|[c|] F IH]; intros H; [reflexivity| |discriminate].
  rewrite flat_cons in H. apply andb_true_iff in H as [Hc HF].
  destruct (type c); [|discriminate].
  destruct (children c) eqn:Hch; [|discriminate].
  rewrite preorder_cons, Hch. simpl. now rewrite IH.
Qed.

(** [Scene] on a flat forest: one [Primitive] for each entry. *)
Lemma flat_Scene (sel : option string) (F : forest) :
  flat F = true ->
  array_fragments (on_entry (Scene_fragment sel)) F
  = Ok (map (fun c => Primitive c (id_is c sel)) (preorder F)).
Proof.
  induction F as [|[c|] F IH]; intros H; [reflexivity| |discriminate].
  rewrite flat_cons in H. apply andb_true_iff in H as [Hc HF].
  destruct (type c) as [k|] eqn:Ht; [|discriminate].
  destruct (children c) eqn:Hch; [|discriminate].
  cbn [array_fragments on_entry].
  rewrite Scene_fragment_eq, Hch, Ht, (IH HF), preorder_cons, Hch.
  reflexivity.
Qed.

(** The model tree of a flat forest: one item for each entry, with its
    id as key and nothing nested. *)
Lemma flat_ModelTree (sel : option string)
    (w : option string -> Z -> Z -> ReorderCall) (len : nat) (l : forest) :
  flat l = true ->
  forall k items,
    array_mapi_from
      (fun entry i => on_entry (fun c => ModelTree_li sel w len c i) entry)
      l k = Ok items ->
    map key items = ids l /\ forall it, In it items -> nested it = None.
Proof.
  induction l as [|[c|] l IH]; intros H k items Hitems; [| |discriminate].
  - injection Hitems as E. subst items. split; [reflexivity | contradiction].
  - rewrite flat_cons in H. apply andb_true_iff in H as [Hc HF].
    destruct (type c) as [kc|]; [|discriminate].
    destruct (children c) eqn:Hch; [|discriminate].
    cbn [array_mapi_from on_entry] in Hitems.
    destruct (ModelTree_li sel w len c k) as [it0|] eqn:E0; [|discriminate].
    cbn [bind] in Hitems.
    destruct (array_mapi_from _ l (S k)) as [items'|] eqn:E'; [|discriminate].
    cbn [bind] in Hitems. injection Hitems as E. subst items.
    destruct (IH HF (S k) items' E') as [Hkeys Hnested].
    destruct (ModelTree_li_buttons _ _ _ _ _ _ E0)
      as (Hkey & _ & _ & _ & _ & _ & Hnone).
    split.
    + rewrite ids_cons, Hch. simpl. now rewrite Hkey, Hkeys.
    + intros it [<-|Hin]; [exact (Hnone Hch) | exact (Hnested it Hin)].
Qed.

(** [updateComponent] on a flat forest: every entry with the id of the
    updated node becomes that node, and the lookup of the id then
    returns it. *)
Lemma flat_updateRecursive_eq (u : Component) (F : forest) :
  flat F = true ->
  updateRecursive u F =
  Ok (map (fun entry =>
             match entry with
             | Some comp =>
                 Some (if String.eqb (id comp) (id u) then u else comp)
             | None => None
             end) F).
Proof.
  induction F as [|[c|] F IH]; intros H; [reflexivity| |discriminate].
  rewrite flat_cons in H. apply andb_true_iff in H as [Hc HF].
  destruct (type c); [|discriminate].
  destruct (children c) eqn:Hch; [|discriminate].
  rewrite updateRecursive_cons, updateRecursive_cb_eq, (IH HF), Hch.
  cbn [map]. now destruct (String.eqb (id c) (id u)).
Qed.

Lemma flat_update_find (u : Component) (F : forest) :
  flat F = true -> In (id u) (ids F) ->
  findComponentById
    (map (fun entry =>
            match entry with
            | Some comp =>
                Some (if String.eqb (id comp) (id u) then u else comp)
            | None => None
            end) F) (id u) = Ok (Some u).
Proof.
  induction F as [|[c|] F IH]; intros H Hin; [contradiction| |discriminate].
  rewrite flat_cons in H. apply andb_true_iff in H as [Hc HF].
  destruct (type c); [|discriminate].
  destruct (children c) eqn:Hch; [|discriminate].
  rewrite ids_cons, Hch in Hin. cbn [map].
  rewrite findComponentById_cons, findComponentById_body_eq.
  destruct (String.eqb_spec (id c) (id u)) as [E|E].
  - now rewrite String.eqb_refl.
  - apply String.eqb_neq in E. rewrite E, Hch.
    apply String.eqb_neq in E.
    destruct Hin as [Hin|Hin]; [contradiction|].
    exact (IH HF Hin).
Qed.

(** X22. Nothing throws in a session: in every state a session can
    reach, the model tree has one item for each entry of the model,
    keyed by its id and with nothing nested; [Scene] renders one
    [Primitive] for each entry, in order; [buildScene] returns one mesh
    for each entry, in order, with the geometry of its kind and its
    transform; a non-empty selection resolves to a node with that id;
    every change of an input of the form is stored -- [updateComponent]
    returns the model with the changed component in place of every entry
    with its id, and the editor then shows the changed component; and a
    click on any enabled button of the tree returns a permutation of
    the model. *)
Theorem ui_session_never_throws (parseFloat : string -> number)
    (model : forest) (sel : option string) :
  ui_reachable parseFloat (model, sel) ->
  (exists items e objs,
      App_ModelTree model sel = Ok items
      /\ map key items = ids model
      /\ (forall it, In it items -> nested it = None)
      /\ Scene model sel = Ok e
      /\ e = group_el (map (fun c => Primitive c (id_is c sel))
                           (preorder model))
      /\ buildScene model [] = Ok objs
      /\ objs = flat_map own_mesh (preorder model)
      /\ List.length objs = List.length model
      /\ map Some (preorder model) = model)
  /\ (exists shown,
        PropertyEditor_component sel model = Ok shown
        /\ forall i, sel = Some i -> i <> "" ->
             exists c, shown = Some c /\ id c = i)
  /\ (forall c name0 value,
        PropertyEditor_component sel model = Ok (Some c) ->
        In name0 input_names ->
        exists updated model',
          handleInputChange parseFloat c name0 value = Some updated
          /\ updateComponent updated model = Ok model'
          /\ model' =
             map (fun entry =>
                    match entry with
                    | Some comp =>
                        Some (if String.eqb (id comp) (id updated)
                              then updated else comp)
                    | None => None
                    end) model
          /\ PropertyEditor_component sel model' = Ok (Some updated))
  /\ (forall items path it,
        App_ModelTree model sel = Ok items ->
        item_at items path = Some it ->
        (up_disabled it = false ->
         exists model',
           (let '(parentId, from, to) := up_click it in
            reorder parentId from to model) = Ok model'
           /\ Permutation model' model)
        /\ (down_disabled it = false ->
            exists model',
              (let '(parentId, from, to) := down_click it in
               reorder parentId from to model) = Ok model'
              /\ Permutation model' model)).
Proof.
  intros H.
  destruct (ui_reachable_invariant parseFloat _ H) as [Hflat Hsel].
  cbn [fst snd] in *.
  pose proof (flat_well_typed _ Hflat) as WT.
  split; [|split; [|split]].
  - destruct (ModelTree_total model WT sel
                (fun parentId from to => (parentId, from, to))
                (List.length model) 0%nat) as [items Hitems].
    destruct (flat_ModelTree sel _ _ model Hflat 0%nat items Hitems)
      as [Hkeys Hnested].
    destruct (flat_buildScene model Hflat) as (objs & Hobjs & Hlen & Hself).
    destruct (buildScene_meshes model WT) as (objs' & Hobjs' & Hmeshes).
    rewrite Hobjs in Hobjs'. injection Hobjs' as <-.
    rewrite Hself in Hmeshes.
    exists items, (group_el (map (fun c => Primitive c (id_is c sel))
                               (preorder model))), objs.
    split; [exact Hitems|]. split; [exact Hkeys|]. split; [exact Hnested|].
    split; [unfold Scene; now rewrite (flat_Scene sel model Hflat)|].
    split; [reflexivity|]. split; [exact Hobjs|]. split; [exact Hmeshes|].
    split; [exact Hlen | exact (flat_preorder_eq model Hflat)].
  - destruct sel as [i|]; [|exists None; split; [reflexivity | discriminate]].
    destruct (String.eqb_spec i "") as [->|Hi].
    + exists None. split; [reflexivity|].
      intros i E Hne. injection E as <-. now elim Hne.
    + rewrite PropertyEditor_component_truthy by exact Hi.
      rewrite (findComponentById_find i model WT).
      destruct (find (fun c => String.eqb (id c) i) (preorder model))
        as [c|] eqn:Hfind.
      * exists (Some c). split; [reflexivity|].
        intros i' E _. injection E as <-. exists c. split; [reflexivity|].
        apply find_some in Hfind as [_ Heq]. now apply String.eqb_eq.
      * exfalso.
        apply (findComponentById_None_not_in i model).
        -- now rewrite (findComponentById_find i model WT), Hfind.
        -- now apply Hsel.
  - intros c name0 value Hshown Hname.
    destruct (PropertyEditor_component_shown sel model c WT Hshown)
      as (i & -> & Hi & Hid & Hfind & _).
    destruct (handleInputChange_form parseFloat c name0 value Hname)
      as (u & Hu & Huid & _).
    exists u. eexists. split; [exact Hu|].
    split; [exact (flat_updateRecursive_eq u model Hflat)|].
    split; [reflexivity|].
    rewrite PropertyEditor_component_truthy by exact Hi.
    rewrite <- Hid, <- Huid. apply (flat_update_find u model Hflat).
    rewrite Huid, Hid. exact (findComponentById_Some_in i model c Hfind).
  - intros items path it Htree Hit.
    destruct (flat_items model sel items path it Hflat Htree Hit)
      as (i & _ & Hnth).
    destruct (ModelTree_root_item model sel items i it Htree Hnth)
      as (_ & _ & Hup & Hdown & Hu & Hd).
    split.
    + intros Hen. destruct (Hu Hen) as [_ Hmove].
      exists (list_move i (i - 1) model). rewrite Hup.
      split; [exact Hmove | apply Permutation_list_move].
    + intros Hen. destruct (Hd Hen) as [_ Hmove].
      exists (list_move i (i + 1) model). rewrite Hdown.
      split; [exact Hmove | apply Permutation_list_move].
Qed.

Lemma ui_session_never_throws_witness :
  exists updated model',
    handleInputChange (fun _ => 2%float) (newComponent "a" cube) "scale.x" "2"
    = Some updated
    /\ updateComponent updated [Some (newComponent "a" cube)] = Ok model'
    /\ model' =
       map (fun entry =>
              match entry with
              | Some comp =>
                  Some (if String.eqb (id comp) (id updated)
                        then updated else comp)
              | None => None
              end) [Some (newComponent "a" cube)]
    /\ PropertyEditor_component (Some "a") model' = Ok (Some updated).
Proof.
  assert (R : ui_reachable (fun _ => 2%float)
                ([Some (newComponent "a" cube)], Some "a")).
  { apply (ui_next _ ([Some (newComponent "a" cube)], None)).
    - apply (ui_next _ ([], None)); [apply ui_start|].
      exact (ui_add _ [] None "a" cube).
    - apply ui_select. simpl. auto. }
  apply (proj1 (proj2 (proj2
           (ui_session_never_throws (fun _ => 2%float)
              [Some (newComponent "a" cube)] (Some "a") R)))
           (newComponent "a" cube) "scale.x" "2").
  - reflexivity.
  - simpl. auto 10.
Defined.
